(** * PYPOWER [pfsoln]: the power-flow solution written back to the case tables

    A shallow embedding of [src/pypower/pfsoln.py].  The Python function takes
    the three NumPy tables of a case (bus, gen, branch), the admittance
    matrices and a solved complex voltage vector, and rewrites in place the
    voltage columns of the bus table, the dispatch columns of the generator
    table and the flow columns of the branch table.

    The program is read over an abstract arithmetic [Num]: every definition
    below uses only the operations NumPy applies (+, -, *, /, ==, >, the cast
    to int).  Two instances are given.  [binary64] is IEEE double precision
    through Rocq's primitive floats, so that a run of the model on concrete
    tables is the run of the Python code, rounding included.  [exact] is the
    same program over the rationals, the arithmetic in which the balance
    equations of the specification are equations. *)

From Stdlib Require Import ZArith List Bool Lia Floats QArith Qcanon Field.
Import ListNotations.

Set Implicit Arguments.
Local Open Scope nat_scope.

(** ** Arithmetic *)

Class Num (F : Type) : Type := {
  f0 : F;                       (* 0.0 *)
  f1 : F;                       (* 1.0 *)
  f180 : F;                     (* the literal 180 *)
  fpi : F;                      (* numpy.pi *)
  EPS : F;                      (* finfo(float).eps *)
  fadd : F -> F -> F;
  fsub : F -> F -> F;
  fmul : F -> F -> F;
  fdiv : F -> F -> F;
  fopp : F -> F;
  feqb : F -> F -> bool;        (* == *)
  fltb : F -> F -> bool;        (* <  *)
  fint : F -> Z                 (* .astype(int) *)
}.

(** The two library functions behind [abs] and [angle] on a complex array:
    [abs(x + iy)] is [hypot x y] and [angle(x + iy)] is [arctan2 y x].  They
    belong to the C library, not to the repository, and are left abstract. *)
Class Libm (F : Type) : Type := {
  hypot : F -> F -> F;
  arctan2 : F -> F -> F
}.

Declare Scope num_scope.
Delimit Scope num_scope with num.
Infix "+" := fadd : num_scope.
Infix "-" := fsub : num_scope.
Infix "*" := fmul : num_scope.
Infix "/" := fdiv : num_scope.
Infix "==" := feqb (at level 70, no associativity) : num_scope.
Infix "<?" := fltb : num_scope.

(** ** Exceptions and the store

    [IndexError] and [ValueError] are what NumPy and SciPy raise on a bad
    index and on mismatched shapes.  [ConfigurationError] is the error class of
    the specification's taxonomy; it is part of the type so that statements
    can mention it. *)
Inductive exception : Type :=
| IndexError
| ValueError
| ConfigurationError.

Inductive res (A : Type) : Type :=
| Ok (a : A)
| Raise (e : exception).
Arguments Ok {A} a.
Arguments Raise {A} e.

Definition res_bind {A B} (r : res A) (k : A -> res B) : res B :=
  match r with
  | Ok a => k a
  | Raise e => Raise e
  end.

Fixpoint res_map {A B} (f : A -> res B) (l : list A) : res (list B) :=
  match l with
  | [] => Ok []
  | a :: l' =>
      res_bind (f a) (fun b => res_bind (res_map f l') (fun bs => Ok (b :: bs)))
  end.

(** ** Arrays and index arrays *)

(** [flatnonzero]: the positions that hold [true]. *)
Fixpoint find_from (k : nat) (mask : list bool) : list nat :=
  match mask with
  | [] => []
  | b :: mask' =>
      if b then k :: find_from (S k) mask' else find_from (S k) mask'
  end.

Definition find (mask : list bool) : list nat := find_from 0 mask.

(** An integer index into an axis of length [n], as NumPy resolves it: a
    negative index counts from the end, anything outside [-n, n) raises. *)
Definition np_index (n : nat) (i : Z) : res nat :=
  if (0 <=? i)%Z && (i <? Z.of_nat n)%Z then Ok (Z.to_nat i)
  else if (- Z.of_nat n <=? i)%Z && (i <? 0)%Z then Ok (Z.to_nat (Z.of_nat n + i))
  else Raise IndexError.

(** [a[i]] for an integer, and [a[idx]] for an integer index array. *)
Definition np_get {A} (a : list A) (i : Z) : res A :=
  res_bind (np_index (length a) i) (fun k =>
  match nth_error a k with
  | Some x => Ok x
  | None => Raise IndexError
  end).

Definition np_take {A} (a : list A) (idx : list Z) : res (list A) :=
  res_map (np_get a) idx.

(** [a[idx]] for an index array produced by [find] over the same axis. *)
Definition take {A} (d : A) (a : list A) (idx : list nat) : list A :=
  map (fun i => nth i a d) idx.

(** The row [i] of a table rewritten by [f]. *)
Fixpoint upd {R} (i : nat) (f : R -> R) (t : list R) : list R :=
  match t, i with
  | [], _ => []
  | r :: t', O => f r :: t'
  | r :: t', S i' => r :: upd i' f t'
  end.

(** [t[idx, c] = vals]: the column written by [set], at the rows [idx]. *)
Fixpoint put {R X} (set : X -> R -> R) (idx : list nat) (vals : list X)
    (t : list R) : list R :=
  match idx, vals with
  | i :: idx', v :: vals' => put set idx' vals' (upd i (set v) t)
  | _, _ => t
  end.

(** [t[:, c] = vals]: a whole column.  NumPy accepts a vector of the table's
    height, or of length one, which it broadcasts. *)
Definition broadcast {X} (n : nat) (vals : list X) : res (list X) :=
  if Nat.eqb (length vals) n then Ok vals
  else match vals with
       | [v] => Ok (repeat v n)
       | _ => Raise ValueError
       end.

Fixpoint zip_set {R X} (set : X -> R -> R) (vals : list X) (t : list R) : list R :=
  match t, vals with
  | r :: t', v :: vals' => set v r :: zip_set set vals' t'
  | _, _ => t
  end.

Definition assign_column {R X} (set : X -> R -> R) (vals : list X)
    (t : list R) : res (list R) :=
  res_bind (broadcast (length t) vals) (fun vs => Ok (zip_set set vs t)).

Fixpoint map2 {A B C} (f : A -> B -> C) (l1 : list A) (l2 : list B) : list C :=
  match l1, l2 with
  | a :: l1', b :: l2' => f a b :: map2 f l1' l2'
  | _, _ => []
  end.

(** ** Sparse matrices

    A CSR matrix: its width and, row by row, the stored entries as
    (column, value) pairs in storage order. *)
Record csr (A : Type) : Type := mk_csr {
  ncols : nat;
  rows : list (list (nat * A))
}.

Section Sparse.
Context {A : Type} (zero : A) (add mul : A -> A -> A).

(** One row of [M * x]: the accumulator starts at zero and takes the
    products in storage order. *)
Definition dot (row : list (nat * A)) (x : list A) : A :=
  fold_left (fun s e => add s (mul (snd e) (nth (fst e) x zero))) row zero.

(** [M * x]. *)
Definition matvec (M : csr A) (x : list A) : list A :=
  map (fun row => dot row x) (rows M).

(** [M * x], with SciPy's check of the inner dimension. *)
Definition np_matvec (M : csr A) (x : list A) : res (list A) :=
  if Nat.eqb (ncols M) (length x) then Ok (matvec M x) else Raise ValueError.

(** [M.T * x]: the entries of row [i] are scaled by [x[i]] and accumulated
    on their columns, rows taken in order. *)
Definition scatter_row (y : list A) (row : list (nat * A)) (xi : A) : list A :=
  fold_left (fun y e => upd (fst e) (fun s => add s (mul (snd e) xi)) y) row y.

Fixpoint tmatvec_from (y : list A) (rs : list (list (nat * A))) (x : list A)
  : list A :=
  match rs, x with
  | row :: rs', xi :: x' => tmatvec_from (scatter_row y row xi) rs' x'
  | _, _ => y
  end.

Definition tmatvec (M : csr A) (x : list A) : list A :=
  tmatvec_from (repeat zero (ncols M)) (rows M) x.

(** [M[idx, :]] for an integer index array. *)
Definition csr_take (M : csr A) (idx : list Z) : res (csr A) :=
  res_bind (np_take (rows M) idx) (fun rs => Ok (mk_csr (ncols M) rs)).
End Sparse.

(** [M.sum(0)]: SciPy multiplies a row of ones into the matrix. *)
Definition colsum {F} `{Num F} (M : csr F) : list F :=
  tmatvec f0 fadd fmul M (repeat f1 (length (rows M))).

(** [csr_matrix((data, (range(n), cols)), (n, nb))]: one entry per row.  SciPy
    refuses a column index outside [0, nb). *)
Definition in_range (nb : nat) (j : Z) : bool :=
  (0 <=? j)%Z && (j <? Z.of_nat nb)%Z.

Definition one_per_row {F} (data : list F) (cols : list Z) (nb : nat) : csr F :=
  mk_csr nb (map2 (fun d j => [(Z.to_nat j, d)]) data cols).

Definition csr_matrix {F} (data : list F) (cols : list Z) (nb : nat)
  : res (csr F) :=
  if forallb (in_range nb) cols then Ok (one_per_row data cols nb)
  else Raise ValueError.

(** ** Complex numbers *)

Record complex (F : Type) : Type := Cx { real : F; imag : F }.

Section Complex.
Context {F : Type} `{Num F}.
Local Open Scope num_scope.

Definition c0 : complex F := Cx f0 f0.
Definition of_real (x : F) : complex F := Cx x f0.
Definition cadd (a b : complex F) : complex F :=
  Cx (real a + real b) (imag a + imag b).
Definition cmul (a b : complex F) : complex F :=
  Cx (real a * real b - imag a * imag b) (real a * imag b + imag a * real b).
Definition conj (a : complex F) : complex F := Cx (real a) (fopp (imag a)).

(** [abs] and [angle] of NumPy on a complex number. *)
Definition cabs `{Libm F} (a : complex F) : F := hypot (real a) (imag a).
Definition angle `{Libm F} (a : complex F) : F := arctan2 (imag a) (real a).
End Complex.

(** ** The case tables

    The tables are two-dimensional arrays of floats whose columns are
    addressed through the constants of [idx_bus], [idx_gen] and [idx_brch].
    Those modules are not among the sources; their constants name pairwise
    distinct columns, which a record per row makes explicit.  The last field
    of each record holds, in order, the columns [pfsoln] never names. *)

Record bus_row (F : Type) : Type := mk_bus {
  VM : F; VA : F; PD : F; QD : F;
  bus_rest : list F
}.

Record gen_row (F : Type) : Type := mk_gen {
  GEN_BUS : F; GEN_STATUS : F; PG : F; QG : F; QMIN : F; QMAX : F;
  gen_rest : list F
}.

Record branch_row (F : Type) : Type := mk_branch {
  F_BUS : F; T_BUS : F; BR_STATUS : F;
  PF : F; QF : F; PT : F; QT : F;
  branch_rest : list F
}.

Record tables (F : Type) : Type := mk_tables {
  bus : list (bus_row F);
  gen : list (gen_row F);
  branch : list (branch_row F)
}.

Section Setters.
Context {F : Type}.

Definition set_VM (v : F) (r : bus_row F) : bus_row F :=
  mk_bus v (VA r) (PD r) (QD r) (bus_rest r).
Definition set_VA (v : F) (r : bus_row F) : bus_row F :=
  mk_bus (VM r) v (PD r) (QD r) (bus_rest r).

Definition set_PG (v : F) (r : gen_row F) : gen_row F :=
  mk_gen (GEN_BUS r) (GEN_STATUS r) v (QG r) (QMIN r) (QMAX r) (gen_rest r).
Definition set_QG (v : F) (r : gen_row F) : gen_row F :=
  mk_gen (GEN_BUS r) (GEN_STATUS r) (PG r) v (QMIN r) (QMAX r) (gen_rest r).

(** The four flow columns [PF, QF, PT, QT] of a branch, from the complex
    powers at its two ends. *)
Definition set_flows (s : complex F * complex F) (r : branch_row F)
  : branch_row F :=
  mk_branch (F_BUS r) (T_BUS r) (BR_STATUS r)
            (real (fst s)) (imag (fst s)) (real (snd s)) (imag (snd s))
            (branch_rest r).

Definition with_bus (b : list (bus_row F)) (t : tables F) : tables F :=
  mk_tables b (gen t) (branch t).
Definition with_gen (g : list (gen_row F)) (t : tables F) : tables F :=
  mk_tables (bus t) g (branch t).
Definition with_branch (b : list (branch_row F)) (t : tables F) : tables F :=
  mk_tables (bus t) (gen t) b.
End Setters.

(** ** Computations on the tables

    [pfsoln] binds its arguments to local names and writes through them: the
    caller's arrays are the ones that change.  A computation therefore takes
    the store of the three tables and gives back the store it leaves, together
    with its value or the exception that stopped it. *)

Definition M (F A : Type) : Type := tables F -> res A * tables F.

Section Monad.
Context {F : Type}.

Definition ret {A} (a : A) : M F A := fun t => (Ok a, t).
Definition bind {A B} (m : M F A) (k : A -> M F B) : M F B :=
  fun t => match m t with
           | (Ok a, t') => k a t'
           | (Raise e, t') => (Raise e, t')
           end.
Definition lift {A} (r : res A) : M F A := fun t => (r, t).
Definition get : M F (tables F) := fun t => (Ok t, t).
Definition modify (f : tables F -> tables F) : M F unit :=
  fun t => (Ok tt, f t).
End Monad.

Declare Scope pf_scope.
Delimit Scope pf_scope with pf.
Notation "x <- m ;; k" := (bind m (fun x => k))
  (at level 61, m at next level, right associativity) : pf_scope.
Notation "m ;; k" := (bind m (fun _ => k))
  (at level 61, right associativity) : pf_scope.

(** ** pfsoln *)

Section Pfsoln.
Context {F : Type} `{Num F} `{Libm F}.
Local Open Scope num_scope.
Local Open Scope pf_scope.

Definition set_bus (b : list (bus_row F)) : M F unit := modify (with_bus b).
Definition set_gen (g : list (gen_row F)) : M F unit := modify (with_gen g).
Definition set_branch (b : list (branch_row F)) : M F unit :=
  modify (with_branch b).

(** [V[vidx] * conj(Y[yidx, :] * V)]: the complex power injected at the
    buses [vidx], through the rows [yidx] of [Y]. *)
Definition injection (Y : csr (complex F)) (V : list (complex F))
    (vidx yidx : list Z) : res (list (complex F)) :=
  res_bind (np_take V vidx) (fun Vi =>
  res_bind (csr_take Y yidx) (fun Yi =>
  res_bind (np_matvec c0 cadd cmul Yi V) (fun I =>
  Ok (map2 cmul Vi (map conj I))))).

(** *** The assignments, as functions on a table *)

(** Line 45: which generators are on. *)
Definition gens_on (g : list (gen_row F)) : list nat :=
  find (map (fun r => f0 <? GEN_STATUS r) g).

(** Line 46: the buses they are at. *)
Definition gens_bus (g : list (gen_row F)) (on : list nat) : list Z :=
  map fint (take f0 (map (@GEN_BUS F) g) on).

(** Line 47: the positions in [on] of the generators at the reference bus. *)
Definition gens_ref (gbus : list Z) (ref : Z) : list nat :=
  find (map (fun b => Z.eqb b ref) gbus).

(** Line 53. *)
Definition zero_Qg (g : list (gen_row F)) : list (gen_row F) :=
  zip_set set_QG (repeat f0 (length g)) g.

(** Line 54; [Qd] is [bus[gbus, QD]]. *)
Definition bus_Qg (baseMVA : F) (Sg : list (complex F)) (Qd : list F)
  : list F :=
  map2 fadd (map (fun s => imag s * baseMVA) Sg) Qd.

Definition inject_Qg (baseMVA : F) (Sg : list (complex F)) (Qd : list F)
    (on : list nat) (g : list (gen_row F)) : list (gen_row F) :=
  put set_QG on (bus_Qg baseMVA Sg Qd) g.

(** Lines 67-69. *)
Definition ngg (Cg : csr F) : list F := matvec f0 fadd fmul Cg (colsum Cg).

Definition divide_equally (Cg : csr F) (on : list nat)
    (g : list (gen_row F)) : list (gen_row F) :=
  put set_QG on (map2 fdiv (take f0 (map (@QG F) g) on) (ngg Cg)) g.

(** Lines 75-86. *)
Definition zero_range (Cg Cmin Cmax : csr F) : list nat :=
  find (map2 feqb (matvec f0 fadd fmul Cg (colsum Cmin))
                  (matvec f0 fadd fmul Cg (colsum Cmax))).

Definition range_fraction (Cg Cmin Cmax : csr F) (Qg_on : list F) : list F :=
  let Qg_tot := tmatvec f0 fadd fmul Cg Qg_on in
  let Qg_min := colsum Cmin in
  let Qg_max := colsum Cmax in
  map2 fdiv (map2 fsub Qg_tot Qg_min)
            (map (fun d => d + EPS) (map2 fsub Qg_max Qg_min)).

Definition divide_proportionally (Cg Cmin Cmax : csr F) (on : list nat)
    (g : list (gen_row F)) : list (gen_row F) :=
  let Qmin_on := take f0 (map (@QMIN F) g) on in
  let Qmax_on := take f0 (map (@QMAX F) g) on in
  let ig := zero_range Cg Cmin Cmax in
  let Qg_save := take f0 (map (@QG F) g) (take 0%nat on ig) in
  let g' :=
    put set_QG on
      (map2 fadd Qmin_on
         (map2 fmul
            (matvec f0 fadd fmul Cg
               (range_fraction Cg Cmin Cmax (take f0 (map (@QG F) g) on)))
            (map2 fsub Qmax_on Qmin_on))) g in
  put set_QG (take 0%nat on ig) Qg_save g'.

(** Line 90; [Pd] is [bus[ref, PD]]. *)
Definition inject_Pg (baseMVA : F) (Sg : list (complex F)) (Pd : F)
    (on : list nat) (r0 : nat) (g : list (gen_row F)) : list (gen_row F) :=
  upd (nth r0 on 0%nat) (set_PG (real (nth r0 Sg c0) * baseMVA + Pd)) g.

(** Lines 93-94; [sum] is Python's, which starts from 0 and adds from the
    left. *)
Definition subtract_others (on : list nat) (r0 : nat) (others : list nat)
    (g : list (gen_row F)) : list (gen_row F) :=
  let Pg := map (@PG F) g in
  let anchor := nth r0 on 0%nat in
  upd anchor
      (set_PG (nth anchor Pg f0
               - fold_left fadd (take f0 Pg (take 0%nat on others)) f0)) g.

(** Lines 97-98. *)
Definition branches_out (b : list (branch_row F)) : list nat :=
  find (map (fun r => BR_STATUS r == f0) b).
Definition branches_in (b : list (branch_row F)) : list nat :=
  find (map (fun r => negb (BR_STATUS r == f0)) b).

(** Lines 104-105. *)
Definition write_flows (baseMVA : F) (Sf St : list (complex F))
    (br : list nat) (b : list (branch_row F)) : list (branch_row F) :=
  let scale := map (fun s => cmul s (of_real baseMVA)) in
  put set_flows br (combine (scale Sf) (scale St)) b.

Definition zero_flows (out : list nat) (b : list (branch_row F))
  : list (branch_row F) :=
  put set_flows out (repeat (@c0 F _, @c0 F _) (length out)) b.

(** *** The statements, in order *)

(** Lines 40-41. *)
Definition update_bus_voltages (V : list (complex F)) : M F unit :=
  t <- get ;;
  b <- lift (assign_column set_VM (map cabs V) (bus t)) ;;
  set_bus b ;;
  t <- get ;;
  b <- lift (assign_column set_VA
               (map (fun v => angle v * f180 / fpi) V) (bus t)) ;;
  set_bus b.

(** Lines 53-54. *)
Definition update_Qg (baseMVA : F) (Sg : list (complex F)) (on : list nat)
    (gbus : list Z) : M F unit :=
  t <- get ;;
  set_gen (zero_Qg (gen t)) ;;
  t <- get ;;
  Qd <- lift (np_take (map (@QD F) (bus t)) gbus) ;;
  set_gen (inject_Qg baseMVA Sg Qd on (gen t)).

(** Lines 62-86, the body of [if len(on) > 1]. *)
Definition split_Qg (on : list nat) (gbus : list Z) : M F unit :=
  t <- get ;;
  let nb := length (bus t) in
  let ngon := length on in
  Cg <- lift (csr_matrix (repeat f1 ngon) gbus nb) ;;
  set_gen (divide_equally Cg on (gen t)) ;;
  t <- get ;;
  Cmin <- lift (csr_matrix (take f0 (map (@QMIN F) (gen t)) on) gbus nb) ;;
  Cmax <- lift (csr_matrix (take f0 (map (@QMAX F) (gen t)) on) gbus nb) ;;
  set_gen (divide_proportionally Cg Cmin Cmax on (gen t)).

(** Lines 90-94.  [refgen[0]] raises when no generator that is on sits at
    the reference bus. *)
Definition update_Pg_swing (baseMVA : F) (Sg : list (complex F))
    (on refgen : list nat) (ref : Z) : M F unit :=
  match refgen with
  | [] => lift (Raise IndexError)
  | r0 :: others =>
      t <- get ;;
      Pd <- lift (np_get (map (@PD F) (bus t)) ref) ;;
      set_gen (inject_Pg baseMVA Sg Pd on r0 (gen t)) ;;
      if Nat.ltb 1 (length refgen)
      then t <- get ;; set_gen (subtract_others on r0 others (gen t))
      else ret tt
  end.

(** Lines 97-105. *)
Definition update_branch_flows (baseMVA : F) (Yf Yt : csr (complex F))
    (V : list (complex F)) : M F unit :=
  t <- get ;;
  let out := branches_out (branch t) in
  let br := branches_in (branch t) in
  let rows_br := map Z.of_nat br in
  Sf <- lift (injection Yf V
                (map fint (take f0 (map (@F_BUS F) (branch t)) br)) rows_br) ;;
  St <- lift (injection Yt V
                (map fint (take f0 (map (@T_BUS F) (branch t)) br)) rows_br) ;;
  set_branch (write_flows baseMVA Sf St br (branch t)) ;;
  t <- get ;;
  set_branch (zero_flows out (branch t)).

(** The function.  [pv] and [pq] are accepted and never read.  The tables
    it returns are the ones in the store. *)
Definition pfsoln (baseMVA : F) (Ybus Yf Yt : csr (complex F))
    (V : list (complex F)) (ref : Z) : M F (tables F) :=
  update_bus_voltages V ;;
  t <- get ;;
  let on := gens_on (gen t) in
  let gbus := gens_bus (gen t) on in
  let refgen := gens_ref gbus ref in
  Sg <- lift (injection Ybus V gbus gbus) ;;
  update_Qg baseMVA Sg on gbus ;;
  (if Nat.ltb 1 (length on) then split_Qg on gbus else ret tt) ;;
  update_Pg_swing baseMVA Sg on refgen ref ;;
  update_branch_flows baseMVA Yf Yt V ;;
  get.
End Pfsoln.

(** ** The two arithmetics *)

(** [x.astype(int)] on a double: truncation toward zero; what does not fit
    64 bits, an infinity or a NaN, comes out as the least 64-bit integer (the
    x86-64 conversion). *)
Definition float_to_int (x : float) : Z :=
  let int_min := (- 2 ^ 63)%Z in
  match Prim2SF x with
  | S754_zero _ => 0%Z
  | S754_finite s m e =>
      let a := if (0 <=? e)%Z then (Zpos m * 2 ^ e)%Z
               else (Zpos m / 2 ^ (- e))%Z in
      let v := if s then (- a)%Z else a in
      if (int_min <=? v)%Z && (v <? 2 ^ 63)%Z then v else int_min
  | _ => int_min
  end.

#[export] Instance binary64 : Num float := {|
  f0 := 0%float;
  f1 := 1%float;
  f180 := 180%float;
  fpi := 0x1.921fb54442d18p+1%float;
  EPS := 0x1p-52%float;
  fadd := PrimFloat.add;
  fsub := PrimFloat.sub;
  fmul := PrimFloat.mul;
  fdiv := PrimFloat.div;
  fopp := PrimFloat.opp;
  feqb := PrimFloat.eqb;
  fltb := PrimFloat.ltb;
  fint := float_to_int
|}.

Definition Qc_ltb (a b : Qc) : bool :=
  match (a ?= b)%Qc with
  | Lt => true
  | _ => false
  end.

Definition Qc_trunc (a : Qc) : Z := Z.quot (Qnum a) (Zpos (Qden a)).

(** The rationals, with the two constants at the values the doubles have. *)
#[export] Instance exact : Num Qc := {|
  f0 := 0%Qc;
  f1 := 1%Qc;
  f180 := Q2Qc 180;
  fpi := Q2Qc (7074237752028440 # 2251799813685248);
  EPS := Q2Qc (1 # 4503599627370496);
  fadd := Qcplus;
  fsub := Qcminus;
  fmul := Qcmult;
  fdiv := Qcdiv;
  fopp := Qcopp;
  feqb := Qc_eq_bool;
  fltb := Qc_ltb;
  fint := Qc_trunc
|}.

(** For running examples, the two library functions on the axes, where the C
    standard fixes their values: [hypot x 0 = |x|], [hypot 0 y = |y|] and
    [arctan2 0 x = 0] for [x > 0].  Off the axes the stand-in answers NaN (zero
    over the rationals): a value this development does not compute. *)
#[export] Instance libm_axes64 : Libm float := {|
  hypot x y :=
    if PrimFloat.eqb y 0 then PrimFloat.abs x
    else if PrimFloat.eqb x 0 then PrimFloat.abs y else nan;
  arctan2 y x :=
    if PrimFloat.eqb y 0 && PrimFloat.ltb 0 x then y else nan
|}.

#[export] Instance libm_axes_exact : Libm Qc := {|
  hypot x y :=
    if Qc_eq_bool y 0 then (if Qc_ltb x 0 then Qcopp x else x)
    else if Qc_eq_bool x 0 then (if Qc_ltb y 0 then Qcopp y else y) else 0%Qc;
  arctan2 y x := 0%Qc
|}.

(** ** Vocabulary of the statements *)

Section Vocabulary.
Context {F : Type} `{Num F} `{Libm F}.
Local Open Scope num_scope.

(** What [pfsoln] never writes in a row. *)
Definition bus_frame (r r' : bus_row F) : Prop :=
  PD r' = PD r /\ QD r' = QD r /\ bus_rest r' = bus_rest r.

Definition gen_frame (r r' : gen_row F) : Prop :=
  GEN_BUS r' = GEN_BUS r /\ GEN_STATUS r' = GEN_STATUS r /\
  QMIN r' = QMIN r /\ QMAX r' = QMAX r /\ gen_rest r' = gen_rest r.

Definition branch_frame (r r' : branch_row F) : Prop :=
  F_BUS r' = F_BUS r /\ T_BUS r' = T_BUS r /\ BR_STATUS r' = BR_STATUS r /\
  branch_rest r' = branch_rest r.

(** The anchor: the first generator that is on at the reference bus. *)
Definition anchor (g : list (gen_row F)) (ref : Z) : option nat :=
  let on := gens_on g in
  match gens_ref (gens_bus g on) ref with
  | [] => None
  | r0 :: _ => Some (nth r0 on 0)
  end.

(** The bus table after lines 40-41, for a voltage vector of the table's
    height. *)
Definition voltages_written (V : list (complex F)) (b : list (bus_row F))
  : list (bus_row F) :=
  zip_set set_VA (map (fun v => angle v * f180 / fpi) V)
          (zip_set set_VM (map cabs V) b).

(** The generator table after lines 62-86. *)
Definition split_table (on : list nat) (gbus : list Z) (nb : nat)
    (g : list (gen_row F)) : list (gen_row F) :=
  let Cg := one_per_row (repeat f1 (length on)) gbus nb in
  let g' := divide_equally Cg on g in
  let Cmin := one_per_row (take f0 (map (@QMIN F) g') on) gbus nb in
  let Cmax := one_per_row (take f0 (map (@QMAX F) g') on) gbus nb in
  divide_proportionally Cg Cmin Cmax on g'.

(** The complex power [V[i] * conj(Y[k, :] * V)] of one row. *)
Definition power (Y : csr (complex F)) (V : list (complex F)) (i k : Z)
  : res (complex F) :=
  res_bind (np_get V i) (fun v =>
  res_bind (np_get (rows Y) k) (fun row =>
  Ok (cmul v (conj (dot c0 cadd cmul row V))))).
End Vocabulary.

Section Outcome.
Context {F : Type} `{Num F} `{Libm F}.
Local Open Scope num_scope.

(** The generator table after lines 90-94. *)
Definition swing_table (baseMVA : F) (Sg : list (complex F)) (Pd : F)
    (on refgen : list nat) (g : list (gen_row F)) : list (gen_row F) :=
  match refgen with
  | [] => g
  | r0 :: others =>
      let g' := inject_Pg baseMVA Sg Pd on r0 g in
      if Nat.ltb 1 (length refgen) then subtract_others on r0 others g'
      else g'
  end.

(** The values a run that returns has read from its arguments: the
    broadcast voltage columns, the injections [Sg], [Sf], [St], and the
    loads [bus[gbus, QD]] and [bus[ref, PD]]. *)
Record reads : Type := mk_reads {
  r_vm : list F; r_va : list F;
  r_Sg : list (complex F); r_Qd : list F; r_Pd : F;
  r_Sf : list (complex F); r_St : list (complex F)
}.

(** The fallible steps of lines 40-86 succeed on [t], with these values. *)
Definition dispatch_reads (Ybus : csr (complex F)) (V : list (complex F))
    (t : tables F) (d : reads) : Prop :=
  let nb := length (bus t) in
  let on := gens_on (gen t) in
  let gbus := gens_bus (gen t) on in
  broadcast nb (map cabs V) = Ok (r_vm d) /\
  broadcast nb (map (fun v => angle v * f180 / fpi) V) = Ok (r_va d) /\
  injection Ybus V gbus gbus = Ok (r_Sg d) /\
  np_take (map (@QD F) (bus t)) gbus = Ok (r_Qd d) /\
  (1 < length on -> forallb (in_range nb) gbus = true).

(** Every fallible step of [pfsoln] succeeds on [t], with these values. *)
Definition pfsoln_reads (Ybus Yf Yt : csr (complex F))
    (V : list (complex F)) (ref : Z) (t : tables F) (d : reads) : Prop :=
  let on := gens_on (gen t) in
  let gbus := gens_bus (gen t) on in
  let br := branches_in (branch t) in
  dispatch_reads Ybus V t d /\
  gens_ref gbus ref <> [] /\
  np_get (map (@PD F) (bus t)) ref = Ok (r_Pd d) /\
  injection Yf V (map fint (take f0 (map (@F_BUS F) (branch t)) br))
            (map Z.of_nat br) = Ok (r_Sf d) /\
  injection Yt V (map fint (take f0 (map (@T_BUS F) (branch t)) br))
            (map Z.of_nat br) = Ok (r_St d).

(** The tables such a run leaves. *)
Definition Qg_table (baseMVA : F) (d : reads) (t : tables F)
  : list (gen_row F) :=
  let on := gens_on (gen t) in
  let gbus := gens_bus (gen t) on in
  let g := inject_Qg baseMVA (r_Sg d) (r_Qd d) on (zero_Qg (gen t)) in
  if Nat.ltb 1 (length on) then split_table on gbus (length (bus t)) g else g.

(** The three matrices of lines 64, 73 and 74. *)
Definition Cg_of (t : tables F) : csr F :=
  let on := gens_on (gen t) in
  one_per_row (repeat f1 (length on)) (gens_bus (gen t) on) (length (bus t)).
Definition Cmin_of (t : tables F) : csr F :=
  let on := gens_on (gen t) in
  one_per_row (take f0 (map (@QMIN F) (gen t)) on) (gens_bus (gen t) on)
              (length (bus t)).
Definition Cmax_of (t : tables F) : csr F :=
  let on := gens_on (gen t) in
  one_per_row (take f0 (map (@QMAX F) (gen t)) on) (gens_bus (gen t) on)
              (length (bus t)).

(** The reactive output of the generators that are on, position by
    position in [on]: the bus total of line 54, the equal share of line 69,
    the proportional share of lines 83-85, and what line 86 leaves. *)
Definition Qg_required (baseMVA : F) (d : reads) : list F :=
  bus_Qg baseMVA (r_Sg d) (r_Qd d).

Definition Qg_equal (baseMVA : F) (d : reads) (t : tables F) : list F :=
  map2 fdiv (Qg_required baseMVA d) (ngg (Cg_of t)).

Definition Qg_proportional (baseMVA : F) (d : reads) (t : tables F)
  : list F :=
  let on := gens_on (gen t) in
  let Qmin_on := take f0 (map (@QMIN F) (gen t)) on in
  let Qmax_on := take f0 (map (@QMAX F) (gen t)) on in
  map2 fadd Qmin_on
    (map2 fmul
       (matvec f0 fadd fmul (Cg_of t)
          (range_fraction (Cg_of t) (Cmin_of t) (Cmax_of t)
             (Qg_equal baseMVA d t)))
       (map2 fsub Qmax_on Qmin_on)).

Definition Qg_final (baseMVA : F) (d : reads) (t : tables F) (i : nat) : F :=
  if Nat.ltb 1 (length (gens_on (gen t)))
  then if existsb (Nat.eqb i) (zero_range (Cg_of t) (Cmin_of t) (Cmax_of t))
       then nth i (Qg_equal baseMVA d t) f0
       else nth i (Qg_proportional baseMVA d t) f0
  else nth i (Qg_required baseMVA d) f0.

(** Entry [i] of [Cg * x], for a generator [on[i]] at bus [b]: the row of
    [Cg] holds a single one, in column [b]. *)
Definition at_bus (b : nat) (x : list F) : F := f0 + f1 * nth b x f0.

(** The sum of the entries of [x] whose key is the bus [bz]: over the
    generators that are on, with [gbus] as keys, the total of a quantity at
    one bus. *)
Fixpoint sum_at (bz : Z) (keys : list Z) (x : list F) : F :=
  match keys, x with
  | k :: keys', v :: x' =>
      if Z.eqb k bz then v + sum_at bz keys' x' else sum_at bz keys' x'
  | _, _ => f0
  end.

(** The reactive output line 54 requires of bus [bz]: the imaginary part of
    its injection, scaled, plus its reactive load. *)
Definition bus_required (baseMVA : F) (Ybus : csr (complex F))
    (V : list (complex F)) (t : tables F) (bz : Z) : F :=
  match power Ybus V bz bz, np_get (map (@QD F) (bus t)) bz with
  | Ok s, Ok qd => imag s * baseMVA + qd
  | _, _ => f0
  end.

(** What lines 62-86 leave to a generator at bus [bz] with the limits
    [qmin] and [qmax]: the equal share when the summed limits of its bus
    compare equal, the share in proportion to its range otherwise. *)
Definition share (baseMVA : F) (Ybus : csr (complex F))
    (V : list (complex F)) (d : reads) (t : tables F)
    (bz : Z) (qmin qmax : F) : F :=
  let b := Z.to_nat bz in
  if at_bus b (colsum (Cmin_of t)) == at_bus b (colsum (Cmax_of t))
  then bus_required baseMVA Ybus V t bz / at_bus b (colsum (Cg_of t))
  else qmin
       + at_bus b (range_fraction (Cg_of t) (Cmin_of t) (Cmax_of t)
                                  (Qg_equal baseMVA d t))
         * (qmax - qmin).

Definition pfsoln_tables (baseMVA : F) (ref : Z) (d : reads) (t : tables F)
  : tables F :=
  let on := gens_on (gen t) in
  let gbus := gens_bus (gen t) on in
  mk_tables
    (zip_set set_VA (r_va d) (zip_set set_VM (r_vm d) (bus t)))
    (swing_table baseMVA (r_Sg d) (r_Pd d) on (gens_ref gbus ref)
                 (Qg_table baseMVA d t))
    (zero_flows (branches_out (branch t))
       (write_flows baseMVA (r_Sf d) (r_St d) (branches_in (branch t))
                    (branch t))).
End Outcome.
Arguments reads F : clear implicits.

(** ** Vocabulary of the proofs *)

Section Scatter.
Context {R X : Type}.

(** The value [t[idx, c] = vals] leaves in row [k]: the last one written
    there, if any. *)
Fixpoint written (k : nat) (idx : list nat) (vals : list X) : option X :=
  match idx, vals with
  | i :: idx', v :: vals' =>
      match written k idx' vals' with
      | Some w => Some w
      | None => if Nat.eqb i k then Some v else None
      end
  | _, _ => None
  end.

Definition apply_written (set : X -> R -> R) (w : option X) (r : R) : R :=
  match w with
  | Some v => set v r
  | None => r
  end.
End Scatter.

(** The exceptions NumPy and SciPy raise in the lines of [pfsoln]. *)
Definition numpy_error (e : exception) : Prop :=
  e = IndexError \/ e = ValueError.

Section Steps.
Context {F : Type} `{Num F} `{Libm F}.
Local Open Scope num_scope.

(** The row [update_Pg_swing] writes, if any. *)
Definition swing_row (on refgen : list nat) : option nat :=
  match refgen with
  | [] => None
  | r0 :: _ => Some (nth r0 on 0)
  end.

(** The generator-side frame of a state [s] reached from [t]. *)
Definition gen_kept (a : option nat) (t s : tables F) : Prop :=
  Forall2 gen_frame (gen t) (gen s) /\
  forall k, a <> Some k ->
    nth_error (map (@PG F) (gen s)) k = nth_error (map (@PG F) (gen t)) k.

(** Lines 43-94, from the state the voltage update leaves. *)
Definition dispatch (baseMVA : F) (Ybus : csr (complex F))
    (V : list (complex F)) (ref : Z) (t1 : tables F) : M F unit :=
  let on := gens_on (gen t1) in
  let gbus := gens_bus (gen t1) on in
  let refgen := gens_ref gbus ref in
  bind (lift (injection Ybus V gbus gbus)) (fun Sg =>
  bind (update_Qg baseMVA Sg on gbus) (fun _ =>
  bind (if Nat.ltb 1 (length on) then split_Qg on gbus else ret tt) (fun _ =>
  update_Pg_swing baseMVA Sg on refgen ref))).

(** A flow in per unit, in MVA. *)
Definition scaled (baseMVA : F) (s : complex F) : complex F :=
  cmul s (of_real baseMVA).

(** What lines 90-94 leave in the anchor's row: the injection plus the
    load, less the outputs of the other generators of the bus as they were
    on entry. *)
Definition anchor_Pg (baseMVA : F) (Sg : list (complex F)) (Pd : F)
    (on : list nat) (r0 : nat) (others : list nat)
    (g : list (gen_row F)) : F :=
  let inj := real (nth r0 Sg c0) * baseMVA + Pd in
  match others with
  | [] => inj
  | _ :: _ =>
      inj - fold_left fadd (take f0 (map (@PG F) g) (take 0 on others)) f0
  end.

(** Two stores that agree on every column [pfsoln] reads before writing. *)
Definition same_inputs (t t' : tables F) : Prop :=
  length (bus t') = length (bus t) /\
  map (@PD F) (bus t') = map (@PD F) (bus t) /\
  map (@QD F) (bus t') = map (@QD F) (bus t) /\
  map (@GEN_BUS F) (gen t') = map (@GEN_BUS F) (gen t) /\
  map (@GEN_STATUS F) (gen t') = map (@GEN_STATUS F) (gen t) /\
  map (@QMIN F) (gen t') = map (@QMIN F) (gen t) /\
  map (@QMAX F) (gen t') = map (@QMAX F) (gen t) /\
  map (@F_BUS F) (branch t') = map (@F_BUS F) (branch t) /\
  map (@T_BUS F) (branch t') = map (@T_BUS F) (branch t) /\
  map (@BR_STATUS F) (branch t') = map (@BR_STATUS F) (branch t).
End Steps.

(** ** Example cases

    Small cases on which the statements below are run.  All their numbers
    are doubles with few bits, so that the arithmetic can be followed by
    hand. *)

Module Cases.
Local Open Scope float_scope.

(** One bus, two generators that are on; the bus needs 20 MVAr:
    [imag(V * conj(Ybus * V)) * baseMVA + QD = 0.125 * 100 + 7.5]. *)
Definition one_bus : list (bus_row float) := [mk_bus 0 0 0 7.5 [1]].
Definition one_bus_Ybus : csr (complex float) :=
  mk_csr 1 [[(0%nat, Cx 0 (-0.125))]].
Definition one_bus_V : list (complex float) := [Cx 1 0].
Definition no_branch : csr (complex float) := mk_csr 1 [].

Definition two_gens (qmin1 qmax1 qmin2 qmax2 : float)
  : list (gen_row float) :=
  [mk_gen 0 1 3 99 qmin1 qmax1 [];
   mk_gen 0 1 4 99 qmin2 qmax2 []].

Definition one_bus_case (qmin1 qmax1 qmin2 qmax2 : float) : tables float :=
  mk_tables one_bus (two_gens qmin1 qmax1 qmin2 qmax2) [].


(** The scenario of the specification: ranges [0, 10] and [0, 30]. *)
Definition scenario : tables float := one_bus_case 0 10 0 30.



(** Two buses, a line between them in service and one out of service with
    stale flows, two generators on at bus 0 and one off at bus 1 with a
    stale reactive output. *)
Definition y_line : complex float := Cx 2 (-8).
Definition y_line_neg : complex float := Cx (-2) 8.

Definition two_bus_Ybus : csr (complex float) :=
  mk_csr 2 [[(0%nat, y_line); (1%nat, y_line_neg)];
            [(0%nat, y_line_neg); (1%nat, y_line)]].
Definition two_bus_Yf : csr (complex float) :=
  mk_csr 2 [[(0%nat, y_line); (1%nat, y_line_neg)]; []].
Definition two_bus_Yt : csr (complex float) :=
  mk_csr 2 [[(0%nat, y_line_neg); (1%nat, y_line)]; []].
Definition two_bus_V : list (complex float) := [Cx 1 0; Cx 0.96875 0].

Definition two_bus_case : tables float :=
  mk_tables
    [mk_bus 1.0625 3 0 0 [1; 3];
     mk_bus 1 0 50 25 [2; 1]]
    [mk_gen 0 1 0 0 (-30) 30 [100];
     mk_gen 0 1 20 0 (-10) 10 [100];
     mk_gen 1 0 5 3 (-5) 5 [100]]
    [mk_branch 0 1 1 9 9 9 9 [250];
     mk_branch 0 1 0 7 7 7 7 [250]].

(** The tables a run returns on these cases. *)
Definition one_bus_out (qg1 qg2 qmin1 qmax1 qmin2 qmax2 : float)
  : tables float :=
  mk_tables [mk_bus 1 0 0 7.5 [1]]
            [mk_gen 0 1 (-4) qg1 qmin1 qmax1 [];
             mk_gen 0 1 4 qg2 qmin2 qmax2 []]
            [].

Definition scenario_out : tables float := one_bus_out 5 15 0 10 0 30.

Definition two_bus_out : tables float :=
  mk_tables
    [mk_bus 1 0 0 0 [1; 3];
     mk_bus 0.96875 0 50 25 [2; 1]]
    [mk_gen 0 1 (-13.75) 18.75 (-30) 30 [100];
     mk_gen 0 1 20 6.25 (-10) 10 [100];
     mk_gen 1 0 5 0 (-5) 5 [100]]
    [mk_branch 0 1 1 6.25 25 (-6.0546875) (-24.21875) [250];
     mk_branch 0 1 0 0 0 0 0 [250]].

(** What the run with reference bus 1, where no generator is on, leaves
    behind. *)
Definition two_bus_stopped : tables float :=
  mk_tables
    [mk_bus 1 0 0 0 [1; 3];
     mk_bus 0.96875 0 50 25 [2; 1]]
    [mk_gen 0 1 0 18.75 (-30) 30 [100];
     mk_gen 0 1 20 6.25 (-10) 10 [100];
     mk_gen 1 0 5 0 (-5) 5 [100]]
    [mk_branch 0 1 1 9 9 9 9 [250];
     mk_branch 0 1 0 7 7 7 7 [250]].
End Cases.

(** The scenario of the specification over the rationals. *)
Module ExactCases.
Local Open Scope Qc_scope.

Definition q (n : Z) (p : positive) : Qc := Q2Qc (n # p).

Definition one_bus_Ybus : csr (complex Qc) :=
  mk_csr 1 [[(0%nat, Cx 0 (q (-1) 8))]].
Definition one_bus_V : list (complex Qc) := [Cx 1 0].
Definition no_branch : csr (complex Qc) := mk_csr 1 [].

Definition scenario : tables Qc :=
  mk_tables [mk_bus 0 0 0 (q 15 2) [1]]
            [mk_gen 0 1 (q 3 1) (q 99 1) 0 (q 10 1) [];
             mk_gen 0 1 (q 4 1) (q 99 1) 0 (q 30 1) []]
            [].

Definition scenario_out : tables Qc :=
  snd (pfsoln (q 100 1) one_bus_Ybus no_branch no_branch one_bus_V 0%Z
              scenario).
End ExactCases.

(** Agreement of two doubles up to a relative tolerance. *)
Definition close_to (rtol a b : float) : bool :=
  PrimFloat.leb (PrimFloat.abs (a - b)%float) (rtol * PrimFloat.abs b)%float.

(** ** Well-formed arguments *)

Section WellFormed.
Context {F : Type} `{Num F} `{Libm F}.

(** A matrix of [n] rows and [m] columns. *)
Definition has_shape {A} (n m : nat) (Y : csr A) : bool :=
  Nat.eqb (length (rows Y)) n && Nat.eqb (ncols Y) m.

(** Arguments of the shapes the caller of [pfsoln] builds: one voltage per
    bus, [Ybus] square over the buses, [Yf] and [Yt] with a row per branch
    and a column per bus, every generator that is on at a bus of the table,
    one of them at the reference bus, and every branch in service between
    two buses of the table.  Nothing is asked of a generator that is off or
    of a branch that is out. *)
Definition well_formed (Ybus Yf Yt : csr (complex F))
    (V : list (complex F)) (ref : Z) (t : tables F) : bool :=
  let nb := length (bus t) in
  let nl := length (branch t) in
  let gbus := gens_bus (gen t) (gens_on (gen t)) in
  let br := branches_in (branch t) in
  Nat.eqb (length V) nb
  && has_shape nb nb Ybus && has_shape nl nb Yf && has_shape nl nb Yt
  && forallb (in_range nb) gbus
  && existsb (Z.eqb ref) gbus
  && forallb (in_range nb) (map fint (take f0 (map (@F_BUS F) (branch t)) br))
  && forallb (in_range nb) (map fint (take f0 (map (@T_BUS F) (branch t)) br)).
End WellFormed.

(** ** Cases at the edges *)

Module EdgeCases.
Local Open Scope float_scope.

(** One bus, and a generator that is on at a bus number the table does not
    have. *)
Definition stray_generator : tables float :=
  mk_tables Cases.one_bus [mk_gen 5 1 3 99 0 10 []] [].

(** One bus and a single generator, with a load of 2 MW. *)
Definition one_generator : tables float :=
  mk_tables [mk_bus 0 0 2 7.5 [1]] [mk_gen 0 1 3 99 0 10 []] [].

Definition one_generator_out : tables float :=
  mk_tables [mk_bus 1 0 2 7.5 [1]] [mk_gen 0 1 2 20 0 10 []] [].

(** Two buses, two generators on at the second one, which the second
    generator names by -1, counting from the end as NumPy does. *)
Definition counted_from_end : tables float :=
  mk_tables
    [mk_bus 1 0 0 0 []; mk_bus 1 0 50 25 []]
    [mk_gen 1 1 0 0 (-30) 30 []; mk_gen (-1) 1 20 0 (-10) 10 []]
    [].

(** A second solution of the two-bus case, with both voltages at 1, and
    the tables a run on it leaves. *)
Definition flat_V : list (complex float) := [Cx 1 0; Cx 1 0].

Definition flat_out : tables float :=
  snd (pfsoln 100 Cases.two_bus_Ybus Cases.two_bus_Yf Cases.two_bus_Yt
              flat_V 0%Z Cases.two_bus_case).

(** Over the rationals: one bus of which 20 MVAr are required, and two
    generators both pinned at 5 MVAr. *)
Definition both_pinned : tables Qc :=
  mk_tables [mk_bus 0%Qc 0%Qc 0%Qc (ExactCases.q 15 2) []]
            [mk_gen 0%Qc 1%Qc 0%Qc 0%Qc (ExactCases.q 5 1) (ExactCases.q 5 1) [];
             mk_gen 0%Qc 1%Qc 0%Qc 0%Qc (ExactCases.q 5 1) (ExactCases.q 5 1) []]
            [].

Definition both_pinned_out : tables Qc :=
  snd (pfsoln (ExactCases.q 100 1) ExactCases.one_bus_Ybus
              ExactCases.no_branch ExactCases.no_branch ExactCases.one_bus_V
              0%Z both_pinned).

(** The two-bus case with its line in service wired to a bus 7. *)
Definition loose_end : tables float :=
  with_branch [mk_branch 0 7 1 9 9 9 9 [250]] Cases.two_bus_case.

(** Over the rationals: one bus with a reactive load of 82.5 MVAr, so that
    95 MVAr are required, and two generators that can give 40 together. *)
Definition overloaded : tables Qc :=
  mk_tables [mk_bus 0%Qc 0%Qc 0%Qc (ExactCases.q 165 2) []]
            [mk_gen 0%Qc 1%Qc 0%Qc 0%Qc 0%Qc (ExactCases.q 10 1) [];
             mk_gen 0%Qc 1%Qc 0%Qc 0%Qc 0%Qc (ExactCases.q 30 1) []]
            [].

Definition overloaded_out : tables Qc :=
  snd (pfsoln (ExactCases.q 100 1) ExactCases.one_bus_Ybus
              ExactCases.no_branch ExactCases.no_branch ExactCases.one_bus_V
              0%Z overloaded).

(** One bus with a load of 1 MW, and beside the anchor a generator that
    comes with 1e16 MW. *)
Definition heavy_neighbour : tables float :=
  mk_tables [mk_bus 0 0 1 7.5 [1]]
            [mk_gen 0 1 3 99 0 10 []; mk_gen 0 1 1e16 99 0 30 []]
            [].

Definition heavy_neighbour_out : tables float :=
  mk_tables [mk_bus 1 0 1 7.5 [1]]
            [mk_gen 0 1 (-1e16) 5 0 10 []; mk_gen 0 1 1e16 15 0 30 []]
            [].



(** The admittance matrix of one bus, declared two columns wide. *)
Definition wide_Ybus : csr (complex float) :=
  mk_csr 2 [[(0%nat, Cx 0 (-0.125))]].
End EdgeCases.
(** ** Index arrays and table updates *)

Section ListFacts.
Context {R X : Type}.
Implicit Types (t : list R) (f : R -> R) (set : X -> R -> R).

Lemma length_upd i f t : length (upd i f t) = length t.
Proof.
  revert i; induction t as [|r t IH]; intros [|i]; simpl; auto.
Qed.

Lemma nth_error_upd i f t k :
  nth_error (upd i f t) k =
  if Nat.eqb k i then option_map f (nth_error t k) else nth_error t k.
Proof.
  revert i k; induction t as [|r t IH]; intros [|i] [|k]; simpl; auto.
  - destruct (Nat.eqb k i); reflexivity.
Qed.

Lemma length_put set idx vals t : length (put set idx vals t) = length t.
Proof.
  revert vals t; induction idx as [|i idx IH]; intros [|v vals] t; simpl; auto.
  rewrite IH. apply length_upd.
Qed.

Lemma length_zip_set set vals t : length (zip_set set vals t) = length t.
Proof.
  revert vals; induction t as [|r t IH]; intros [|v vals]; simpl; auto.
Qed.

(** A column the update does not write reads the same afterwards. *)
Lemma map_upd_frame {Y} (c : R -> Y) i f t :
  (forall r, c (f r) = c r) -> map c (upd i f t) = map c t.
Proof.
  intros Hc. revert i; induction t as [|r t IH]; intros [|i]; simpl;
    try rewrite Hc; try rewrite IH; reflexivity.
Qed.

Lemma map_put_frame {Y} (c : R -> Y) set idx vals t :
  (forall v r, c (set v r) = c r) -> map c (put set idx vals t) = map c t.
Proof.
  intros Hc. revert vals t; induction idx as [|i idx IH]; intros [|v vals] t;
    simpl; auto.
  rewrite IH. apply map_upd_frame. intros r; apply Hc.
Qed.

Lemma map_zip_set_frame {Y} (c : R -> Y) set vals t :
  (forall v r, c (set v r) = c r) -> map c (zip_set set vals t) = map c t.
Proof.
  intros Hc. revert vals; induction t as [|r t IH]; intros [|v vals]; simpl;
    try rewrite Hc; try rewrite IH; reflexivity.
Qed.

(** The column that is written, read back. *)
Lemma map_upd_col (c : R -> X) set i v t :
  (forall v r, c (set v r) = v) ->
  map c (upd i (set v) t) = upd i (fun _ => v) (map c t).
Proof.
  intros Hc. revert i; induction t as [|r t IH]; intros [|i]; simpl;
    try rewrite Hc; try rewrite IH; reflexivity.
Qed.

Lemma map_put_col (c : R -> X) set idx vals t :
  (forall v r, c (set v r) = v) ->
  map c (put set idx vals t) = put (fun v _ => v) idx vals (map c t).
Proof.
  intros Hc. revert vals t; induction idx as [|i idx IH]; intros [|v vals] t;
    simpl; auto.
  rewrite IH. f_equal. apply map_upd_col, Hc.
Qed.

Lemma map_zip_set_col (c : R -> X) set vals t :
  (forall v r, c (set v r) = v) ->
  length vals = length t -> map c (zip_set set vals t) = vals.
Proof.
  intros Hc. revert vals; induction t as [|r t IH]; intros [|v vals]; simpl;
    intros Hl; try discriminate; auto.
  rewrite Hc, IH; auto.
Qed.

(** Rows pointwise. *)
Lemma Forall2_upd (P : R -> R -> Prop) i f t :
  (forall r, P r r) -> (forall r, P r (f r)) -> Forall2 P t (upd i f t).
Proof.
  intros Hr Hf. revert i; induction t as [|r t IH]; intros [|i]; simpl;
    constructor; auto.
  clear IH. induction t; constructor; auto.
Qed.

Lemma Forall2_refl_list (P : R -> R -> Prop) t :
  (forall r, P r r) -> Forall2 P t t.
Proof. intros Hr; induction t; constructor; auto. Qed.

Lemma Forall2_trans_list (P : R -> R -> Prop) t1 t2 t3 :
  (forall a b c, P a b -> P b c -> P a c) ->
  Forall2 P t1 t2 -> Forall2 P t2 t3 -> Forall2 P t1 t3.
Proof.
  intros Ht H12. revert t3; induction H12; intros t3 H23; inversion H23;
    subst; constructor; eauto.
Qed.

Lemma Forall2_put (P : R -> R -> Prop) set idx vals t :
  (forall r, P r r) -> (forall a b c, P a b -> P b c -> P a c) ->
  (forall v r, P r (set v r)) -> Forall2 P t (put set idx vals t).
Proof.
  intros Hr Ht Hs. revert vals t; induction idx as [|i idx IH];
    intros [|v vals] t; simpl; try (apply Forall2_refl_list; assumption).
  eapply Forall2_trans_list; [exact Ht| |apply IH].
  apply Forall2_upd; auto.
Qed.

Lemma Forall2_zip_set (P : R -> R -> Prop) set vals t :
  (forall r, P r r) -> (forall v r, P r (set v r)) ->
  Forall2 P t (zip_set set vals t).
Proof.
  intros Hr Hs. revert vals; induction t as [|r t IH]; intros [|v vals];
    simpl; constructor; auto.
  apply Forall2_refl_list; assumption.
Qed.
End ListFacts.

(** [find] lists, without repetition and in increasing order, the positions
    of the mask that hold [true]. *)
Lemma find_from_spec mask k0 k :
  In k (find_from k0 mask) <->
  k0 <= k /\ nth_error mask (k - k0) = Some true.
Proof.
  revert k0; induction mask as [|b mask IH]; intros k0; simpl.
  - split; [tauto|]. intros [_ Hn]. destruct (k - k0); discriminate.
  - assert (Hstep : In k (find_from (S k0) mask) <->
                    k0 < k /\ nth_error (b :: mask) (k - k0) = Some true).
    { rewrite IH. split; intros [Hle Hn]; split; try lia.
      - replace (k - k0) with (S (k - S k0)) by lia. exact Hn.
      - replace (k - k0) with (S (k - S k0)) in Hn by lia. exact Hn. }
    destruct b; simpl; rewrite Hstep.
    + split.
      * intros [->|[Hlt Hn]]; [rewrite Nat.sub_diag; auto|split; [lia|exact Hn]].
      * intros [Hle Hn]. destruct (Nat.eq_dec k0 k) as [->|Hne]; [auto|].
        right; split; [lia|exact Hn].
    + split.
      * intros [Hlt Hn]; split; [lia|exact Hn].
      * intros [Hle Hn]. destruct (Nat.eq_dec k0 k) as [->|Hne].
        -- rewrite Nat.sub_diag in Hn. discriminate.
        -- split; [lia|exact Hn].
Qed.

Lemma find_spec mask k : In k (find mask) <-> nth_error mask k = Some true.
Proof.
  unfold find. rewrite find_from_spec, Nat.sub_0_r. intuition lia.
Qed.

Lemma find_lt mask k : In k (find mask) -> k < length mask.
Proof.
  rewrite find_spec. intros Hn. apply nth_error_Some. congruence.
Qed.

Lemma find_from_NoDup mask k0 : NoDup (find_from k0 mask).
Proof.
  revert k0; induction mask as [|b mask IH]; intros k0; simpl.
  - constructor.
  - destruct b; [constructor|]; auto.
    rewrite find_from_spec. intros [Hle _]. lia.
Qed.

Lemma find_NoDup mask : NoDup (find mask).
Proof. apply find_from_NoDup. Qed.

Lemma find_map_ext {A} (p q : A -> bool) (l l' : list A) :
  map p l = map q l' -> find (map p l) = find (map q l').
Proof. intros ->; reflexivity. Qed.

(** ** What a scattered assignment leaves in a row *)

Section Written.
Context {R X : Type}.
Implicit Types (t : list R) (set : X -> R -> R) (vals : list X).

Lemma nth_error_put set idx vals t k :
  (forall a b r, set a (set b r) = set a r) ->
  nth_error (put set idx vals t) k =
  option_map (apply_written set (written k idx vals)) (nth_error t k).
Proof.
  intros Habs. revert vals t; induction idx as [|i idx IH];
    intros [|v vals] t; simpl;
    try (destruct (nth_error t k); reflexivity).
  rewrite IH, nth_error_upd.
  destruct (written k idx vals) as [w|]; simpl.
  - destruct (Nat.eqb_spec k i) as [->|Hne];
      destruct (nth_error t _); simpl; try rewrite Habs; reflexivity.
  - destruct (Nat.eqb_spec k i) as [->|Hne].
    + rewrite Nat.eqb_refl. destruct (nth_error t i); reflexivity.
    + destruct (Nat.eqb_spec i k); [congruence|].
      destruct (nth_error t k); reflexivity.
Qed.

Lemma written_none k idx vals : ~ In k idx -> written k idx vals = None.
Proof.
  revert vals; induction idx as [|i idx IH]; intros [|v vals] Hn; simpl; auto.
  rewrite IH by (intros Hin; apply Hn; right; exact Hin).
  destruct (Nat.eqb_spec i k); [|reflexivity].
  exfalso; apply Hn; left; assumption.
Qed.

Lemma written_some k idx vals j v :
  NoDup idx -> nth_error idx j = Some k -> nth_error vals j = Some v ->
  written k idx vals = Some v.
Proof.
  revert vals j; induction idx as [|i idx IH]; intros [|w vals] [|j] Hnd Hi Hv;
    simpl in *; try discriminate; inversion Hnd; subst.
  - inversion Hi; inversion Hv; subst.
    rewrite written_none by assumption. rewrite Nat.eqb_refl. reflexivity.
  - erewrite IH; eauto.
Qed.

Lemma written_in k idx vals v :
  written k idx vals = Some v ->
  exists j, nth_error idx j = Some k /\ nth_error vals j = Some v.
Proof.
  revert vals; induction idx as [|i idx IH]; intros [|w vals]; simpl;
    try discriminate.
  destruct (written k idx vals) as [u|] eqn:Hw.
  - intros Hu; inversion Hu; subst. destruct (IH _ Hw) as [j [Hi Hv]].
    exists (S j); auto.
  - destruct (Nat.eqb_spec i k) as [->|]; [|discriminate].
    intros Hu; inversion Hu; subst. exists 0; auto.
Qed.
End Written.

(** ** Results *)

Lemma res_map_ok {A B} (f : A -> res B) l l' :
  res_map f l = Ok l' -> Forall2 (fun a b => f a = Ok b) l l'.
Proof.
  revert l'; induction l as [|a l IH]; simpl; intros l' Hm.
  - inversion Hm; constructor.
  - destruct (f a) as [b|] eqn:Hf; simpl in Hm; [|discriminate].
    destruct (res_map f l) as [bs|]; simpl in Hm; [|discriminate].
    inversion Hm; subst. constructor; auto.
Qed.

Lemma res_map_never {A B} (f : A -> res B) l e (P : exception -> Prop) :
  (forall a e, f a = Raise e -> P e) -> res_map f l = Raise e -> P e.
Proof.
  intros Hf. induction l as [|a l IH]; simpl; [discriminate|].
  destruct (f a) as [b|e'] eqn:Hfa; simpl.
  - destruct (res_map f l) as [bs|e']; simpl; [discriminate|].
    intros He; inversion He; subst; auto.
  - intros He; inversion He; subst; eauto.
Qed.

Lemma Forall2_nth_error {A B} (P : A -> B -> Prop) l l' j a :
  Forall2 P l l' -> nth_error l j = Some a ->
  exists b, nth_error l' j = Some b /\ P a b.
Proof.
  intros HF; revert j; induction HF; intros [|j]; simpl; try discriminate.
  - intros Ha; inversion Ha; subst; eauto.
  - apply IHHF.
Qed.

Lemma Forall2_length_eq {A B} (P : A -> B -> Prop) l l' :
  Forall2 P l l' -> length l = length l'.
Proof. induction 1; simpl; auto. Qed.

(** ** The statements of [pfsoln], one by one *)

Section Stages.
Context {F : Type} `{Num F} `{Libm F}.
Local Open Scope num_scope.

Lemma with_gen_gen (t : tables F) : with_gen (gen t) t = t.
Proof. destruct t; reflexivity. Qed.

Lemma assign_column_ok {R X} (set : X -> R -> R) vals (t t' : list R) :
  assign_column set vals t = Ok t' <->
  exists vs, broadcast (length t) vals = Ok vs /\ t' = zip_set set vs t.
Proof.
  unfold assign_column. destruct (broadcast (length t) vals) as [vs|e]; simpl.
  - split.
    + intros Ht; inversion Ht; eauto.
    + intros [vs' [Hv ->]]; inversion Hv; reflexivity.
  - split; [discriminate|]. intros [vs [Hv _]]; discriminate.
Qed.

Lemma broadcast_same {X} (vals : list X) n :
  length vals = n -> broadcast n vals = Ok vals.
Proof. intros <-. unfold broadcast. rewrite Nat.eqb_refl. reflexivity. Qed.

Lemma update_bus_voltages_ok V (t s : tables F) u :
  update_bus_voltages V t = (Ok u, s) <->
  exists vm va,
    broadcast (length (bus t)) (map cabs V) = Ok vm /\
    broadcast (length (bus t)) (map (fun v => angle v * f180 / fpi) V)
      = Ok va /\
    s = with_bus (zip_set set_VA va (zip_set set_VM vm (bus t))) t.
Proof.
  destruct u.
  unfold update_bus_voltages, bind, get, lift, set_bus, modify. simpl.
  destruct (assign_column set_VM (map cabs V) (bus t)) as [b1|e] eqn:E1.
  - apply assign_column_ok in E1. destruct E1 as [vm [Hvm ->]].
    destruct (assign_column set_VA _ _) as [b2|e] eqn:E2.
    + apply assign_column_ok in E2. destruct E2 as [va [Hva ->]].
      rewrite length_zip_set in Hva. split.
      * intros Hs; inversion Hs; subst. exists vm, va. auto.
      * intros [vm' [va' [Hvm' [Hva' ->]]]].
        rewrite Hvm in Hvm'; rewrite Hva in Hva'.
        inversion Hvm'; inversion Hva'; subst. reflexivity.
    + split; [discriminate|].
      intros [vm' [va' [Hvm' [Hva' ->]]]]. exfalso.
      assert (Hok : assign_column set_VA
                      (map (fun v => angle v * f180 / fpi) V)
                      (zip_set set_VM vm (bus t))
                    = Ok (zip_set set_VA va' (zip_set set_VM vm (bus t)))).
      { apply assign_column_ok. exists va'. rewrite length_zip_set. auto. }
      congruence.
  - split; [discriminate|].
    intros [vm [va [Hvm _]]]. exfalso.
    assert (Hok : assign_column set_VM (map cabs V) (bus t)
                  = Ok (zip_set set_VM vm (bus t))).
    { apply assign_column_ok. eauto. }
    congruence.
Qed.

Lemma update_Qg_ok baseMVA Sg on gbus (t s : tables F) u :
  update_Qg baseMVA Sg on gbus t = (Ok u, s) <->
  exists Qd,
    np_take (map (@QD F) (bus t)) gbus = Ok Qd /\
    s = with_gen (inject_Qg baseMVA Sg Qd on (zero_Qg (gen t))) t.
Proof.
  destruct u.
  unfold update_Qg, bind, get, lift, set_gen, modify. simpl.
  destruct (np_take (map (@QD F) (bus t)) gbus) as [Qd|e].
  - split.
    + intros Hs; inversion Hs; subst. exists Qd. auto.
    + intros [Qd' [HQ ->]]. inversion HQ; subst. reflexivity.
  - split; [discriminate|]. intros [Qd [HQ _]]; discriminate.
Qed.

Lemma csr_matrix_ok {X} (data : list X) cols nb M :
  csr_matrix data cols nb = Ok M <->
  forallb (in_range nb) cols = true /\ M = one_per_row data cols nb.
Proof.
  unfold csr_matrix. destruct (forallb (in_range nb) cols).
  - split; [intros HM; inversion HM; auto|intros [_ ->]; reflexivity].
  - split; [discriminate|intros [Hf _]; discriminate].
Qed.

Lemma split_Qg_ok on gbus (t s : tables F) u :
  split_Qg on gbus t = (Ok u, s) <->
  forallb (in_range (length (bus t))) gbus = true /\
  s = with_gen (split_table on gbus (length (bus t)) (gen t)) t.
Proof.
  destruct u.
  unfold split_Qg, bind, get, lift, set_gen, modify, csr_matrix. simpl.
  destruct (forallb (in_range (length (bus t))) gbus).
  - split; [intros Hs; inversion Hs; subst; auto|intros [_ ->]; reflexivity].
  - split; [discriminate|intros [Hf _]; discriminate].
Qed.

Lemma update_Pg_swing_ok baseMVA Sg on refgen ref (t s : tables F) u :
  update_Pg_swing baseMVA Sg on refgen ref t = (Ok u, s) <->
  exists Pd,
    refgen <> [] /\
    np_get (map (@PD F) (bus t)) ref = Ok Pd /\
    s = with_gen (swing_table baseMVA Sg Pd on refgen (gen t)) t.
Proof.
  destruct u.
  unfold update_Pg_swing, swing_table, bind, get, lift, set_gen, modify, ret.
  destruct refgen as [|r0 others].
  - split; [discriminate|]. intros [Pd [Hne _]]. congruence.
  - simpl. destruct (np_get (map (@PD F) (bus t)) ref) as [Pd|e].
    + destruct others as [|r1 others]; simpl.
      * split.
        -- intros Hs; inversion Hs; subst. exists Pd.
           repeat split; auto; discriminate.
        -- intros [Pd' [_ [HP ->]]]. inversion HP; subst. reflexivity.
      * split.
        -- intros Hs; inversion Hs; subst. exists Pd.
           repeat split; auto; discriminate.
        -- intros [Pd' [_ [HP ->]]]. inversion HP; subst. reflexivity.
    + split; [discriminate|]. intros [Pd [_ [HP _]]]; discriminate.
Qed.

Lemma update_branch_flows_ok baseMVA Yf Yt V (t s : tables F) u :
  update_branch_flows baseMVA Yf Yt V t = (Ok u, s) <->
  exists Sf St,
    injection Yf V
      (map fint (take f0 (map (@F_BUS F) (branch t)) (branches_in (branch t))))
      (map Z.of_nat (branches_in (branch t))) = Ok Sf /\
    injection Yt V
      (map fint (take f0 (map (@T_BUS F) (branch t)) (branches_in (branch t))))
      (map Z.of_nat (branches_in (branch t))) = Ok St /\
    s = with_branch
          (zero_flows (branches_out (branch t))
             (write_flows baseMVA Sf St (branches_in (branch t)) (branch t)))
          t.
Proof.
  destruct u.
  unfold update_branch_flows, bind, get, lift, set_branch, modify. simpl.
  destruct (injection Yf V _ _) as [Sf|e].
  - destruct (injection Yt V _ _) as [St|e].
    + split.
      * intros Hs; inversion Hs; subst. exists Sf, St. auto.
      * intros [Sf' [St' [HSf [HSt ->]]]].
        inversion HSf; inversion HSt; subst. reflexivity.
    + split; [discriminate|]. intros [Sf' [St' [_ [HSt _]]]]; discriminate.
  - split; [discriminate|]. intros [Sf' [St' [HSf _]]]; discriminate.
Qed.
End Stages.

(** ** A run that returns *)

Section Returns.
Context {F : Type} `{Num F} `{Libm F}.
Local Open Scope num_scope.

Lemma bind_ok {A B} (m : M F A) (k : A -> M F B) t b s :
  bind m k t = (Ok b, s) <->
  exists a t1, m t = (Ok a, t1) /\ k a t1 = (Ok b, s).
Proof.
  unfold bind. destruct (m t) as [[a|e] t1].
  - split; [eauto|]. intros [a' [t1' [Hm Hk]]]. inversion Hm; subst; auto.
  - split; [discriminate|]. intros [a' [t1' [Hm _]]]; discriminate.
Qed.

Lemma get_ok (t a s : tables F) : get t = (Ok a, s) <-> a = t /\ s = t.
Proof.
  unfold get. split; [intros Hg; inversion Hg; auto|intros [-> ->]; auto].
Qed.

Lemma lift_ok {A} (r : res A) (t s : tables F) a :
  lift r t = (Ok a, s) <-> r = Ok a /\ s = t.
Proof.
  unfold lift. split; [intros Hl; inversion Hl; auto|intros [-> ->]; auto].
Qed.

Lemma ret_ok {A} (x a : A) (t s : tables F) :
  ret x t = (Ok a, s) <-> a = x /\ s = t.
Proof.
  unfold ret. split; [intros Hr; inversion Hr; auto|intros [-> ->]; auto].
Qed.

Lemma map_QD_voltages (vm va : list F) (b : list (bus_row F)) :
  map (@QD F) (zip_set set_VA va (zip_set set_VM vm b)) = map (@QD F) b.
Proof. rewrite !map_zip_set_frame by reflexivity. reflexivity. Qed.

Lemma map_PD_voltages (vm va : list F) (b : list (bus_row F)) :
  map (@PD F) (zip_set set_VA va (zip_set set_VM vm b)) = map (@PD F) b.
Proof. rewrite !map_zip_set_frame by reflexivity. reflexivity. Qed.

Lemma length_voltages (vm va : list F) (b : list (bus_row F)) :
  length (zip_set set_VA va (zip_set set_VM vm b)) = length b.
Proof. rewrite !length_zip_set. reflexivity. Qed.

Variables (baseMVA : F) (Ybus Yf Yt : csr (complex F))
          (V : list (complex F)) (ref : Z).

(** [pfsoln] returns exactly when every fallible step succeeds, and then
    the tables it returns, which are the tables it leaves in the store, are
    [pfsoln_tables]. *)
Lemma pfsoln_returns (t t' s : tables F) :
  pfsoln baseMVA Ybus Yf Yt V ref t = (Ok t', s) <->
  exists d, pfsoln_reads Ybus Yf Yt V ref t d /\
            t' = pfsoln_tables baseMVA ref d t /\ s = t'.
Proof.
  unfold pfsoln. split.
  - intros Hrun.
    apply bind_ok in Hrun. destruct Hrun as (u1 & t1 & E1 & Hrun).
    apply update_bus_voltages_ok in E1. destruct E1 as (vm & va & Hvm & Hva & ->).
    apply bind_ok in Hrun. destruct Hrun as (t0 & t1 & E0 & Hrun).
    apply get_ok in E0. destruct E0 as [-> ->].
    cbn [gen with_bus] in Hrun.
    apply bind_ok in Hrun. destruct Hrun as (Sg & t1 & ESg & Hrun).
    apply lift_ok in ESg. destruct ESg as [HSg ->].
    apply bind_ok in Hrun. destruct Hrun as (u2 & t2 & E2 & Hrun).
    apply update_Qg_ok in E2. destruct E2 as (Qd & HQd & ->).
    cbn [bus gen with_bus] in HQd. rewrite map_QD_voltages in HQd.
    apply bind_ok in Hrun. destruct Hrun as (u3 & t3 & E3 & Hrun).
    apply bind_ok in Hrun. destruct Hrun as (u4 & t4 & E4 & Hrun).
    apply update_Pg_swing_ok in E4. destruct E4 as (Pd & Hne & HPd & ->).
    apply bind_ok in Hrun. destruct Hrun as (u5 & t5 & E5 & Hrun).
    apply update_branch_flows_ok in E5. destruct E5 as (Sf & St & HSf & HSt & ->).
    apply get_ok in Hrun. destruct Hrun as [-> ->].
    exists (mk_reads vm va Sg Qd Pd Sf St).
    destruct (Nat.ltb 1 (length (gens_on (gen t)))) eqn:Hon.
    + apply split_Qg_ok in E3. destruct E3 as [Hrange ->].
      cbn [bus gen branch with_bus with_gen with_branch] in *.
      rewrite length_voltages in Hrange.
      rewrite map_PD_voltages in HPd.
      split.
      * unfold pfsoln_reads, dispatch_reads.
        cbn [r_vm r_va r_Sg r_Qd r_Pd r_Sf r_St].
        repeat split; auto.
      * split; [|reflexivity].
        unfold pfsoln_tables, Qg_table, with_branch, with_gen, with_bus.
        cbn [bus gen branch r_vm r_va r_Sg r_Qd r_Pd r_Sf r_St].
        rewrite Hon, length_voltages. reflexivity.
    + apply ret_ok in E3. destruct E3 as [_ ->].
      cbn [bus gen branch with_bus with_gen with_branch] in *.
      rewrite map_PD_voltages in HPd.
      split.
      * unfold pfsoln_reads, dispatch_reads.
        cbn [r_vm r_va r_Sg r_Qd r_Pd r_Sf r_St].
        repeat split; auto.
        intros Hlt. apply Nat.ltb_lt in Hlt. congruence.
      * split; [|reflexivity].
        unfold pfsoln_tables, Qg_table, with_branch, with_gen, with_bus.
        cbn [bus gen branch r_vm r_va r_Sg r_Qd r_Pd r_Sf r_St].
        rewrite Hon. reflexivity.
  - intros (d & Hd & -> & ->).
    destruct d as [vm va Sg Qd Pd Sf St].
    unfold pfsoln_reads, dispatch_reads in Hd.
    cbn [r_vm r_va r_Sg r_Qd r_Pd r_Sf r_St] in Hd.
    destruct Hd as ((Hvm & Hva & HSg & HQd & Hrange) & Hne & HPd & HSf & HSt).
    apply bind_ok. eexists tt, _. split.
    { apply update_bus_voltages_ok. exists vm, va. eauto. }
    apply bind_ok. eexists _, _. split; [apply get_ok; eauto|].
    cbn [gen with_bus].
    apply bind_ok. eexists Sg, _. split; [apply lift_ok; eauto|].
    apply bind_ok. eexists tt, _. split.
    { apply update_Qg_ok. exists Qd. cbn [bus with_bus].
      rewrite map_QD_voltages. eauto. }
    unfold pfsoln_tables, Qg_table.
    cbn [r_vm r_va r_Sg r_Qd r_Pd r_Sf r_St].
    destruct (Nat.ltb 1 (length (gens_on (gen t)))) eqn:Hon.
    + apply bind_ok. eexists tt, _. split.
      { apply split_Qg_ok. cbn [bus gen with_bus with_gen].
        rewrite length_voltages. split; [|reflexivity].
        apply Hrange, Nat.ltb_lt, Hon. }
      apply bind_ok. eexists tt, _. split.
      { apply update_Pg_swing_ok. exists Pd.
        cbn [bus gen with_bus with_gen]. rewrite map_PD_voltages. eauto. }
      apply bind_ok. eexists tt, _. split.
      { apply update_branch_flows_ok. exists Sf, St.
        cbn [bus gen branch with_bus with_gen]. eauto. }
      apply get_ok. split; reflexivity.
    + apply bind_ok. eexists tt, _. split; [apply ret_ok; eauto|].
      apply bind_ok. eexists tt, _. split.
      { apply update_Pg_swing_ok. exists Pd.
        cbn [bus gen with_bus with_gen]. rewrite map_PD_voltages. eauto. }
      apply bind_ok. eexists tt, _. split.
      { apply update_branch_flows_ok. exists Sf, St.
        cbn [bus gen branch with_bus with_gen]. eauto. }
      apply get_ok. split; reflexivity.
Qed.
End Returns.

(** ** What every run leaves untouched, however it ends *)

Section Frames.
Context {F : Type} `{Num F} `{Libm F}.
Local Open Scope num_scope.

Lemma bus_frame_refl (r : bus_row F) : bus_frame r r.
Proof. repeat split. Qed.

Lemma bus_frame_trans (a b c : bus_row F) :
  bus_frame a b -> bus_frame b c -> bus_frame a c.
Proof. unfold bus_frame. intuition congruence. Qed.

Lemma gen_frame_refl (r : gen_row F) : gen_frame r r.
Proof. repeat split. Qed.

Lemma gen_frame_trans (a b c : gen_row F) :
  gen_frame a b -> gen_frame b c -> gen_frame a c.
Proof. unfold gen_frame. intuition congruence. Qed.

Lemma branch_frame_refl (r : branch_row F) : branch_frame r r.
Proof. repeat split. Qed.

Lemma branch_frame_trans (a b c : branch_row F) :
  branch_frame a b -> branch_frame b c -> branch_frame a c.
Proof. unfold branch_frame. intuition congruence. Qed.

Lemma put_QG_frame idx vals (g : list (gen_row F)) :
  Forall2 gen_frame g (put set_QG idx vals g).
Proof.
  apply Forall2_put;
    [apply gen_frame_refl|apply gen_frame_trans|intros v r; repeat split].
Qed.

Lemma upd_PG_frame i v (g : list (gen_row F)) :
  Forall2 gen_frame g (upd i (set_PG v) g).
Proof.
  apply Forall2_upd; [apply gen_frame_refl|intros r; repeat split].
Qed.

Lemma zero_Qg_frame (g : list (gen_row F)) : Forall2 gen_frame g (zero_Qg g).
Proof.
  apply Forall2_zip_set; [apply gen_frame_refl|intros v r; repeat split].
Qed.

Lemma gen_frame_trans_list (g1 g2 g3 : list (gen_row F)) :
  Forall2 gen_frame g1 g2 -> Forall2 gen_frame g2 g3 -> Forall2 gen_frame g1 g3.
Proof. apply Forall2_trans_list, gen_frame_trans. Qed.

Lemma split_table_frame on gbus nb (g : list (gen_row F)) :
  Forall2 gen_frame g (split_table on gbus nb g).
Proof.
  unfold split_table, divide_proportionally, divide_equally.
  eapply gen_frame_trans_list; [apply put_QG_frame|].
  eapply gen_frame_trans_list; apply put_QG_frame.
Qed.

Lemma split_table_PG on gbus nb (g : list (gen_row F)) :
  map (@PG F) (split_table on gbus nb g) = map (@PG F) g.
Proof.
  unfold split_table, divide_proportionally, divide_equally.
  rewrite !map_put_frame by reflexivity. reflexivity.
Qed.

Lemma snd_bind {A B} (m : M F A) (k : A -> M F B) t :
  snd (bind m k t) =
  match fst (m t) with
  | Ok a => snd (k a (snd (m t)))
  | Raise _ => snd (m t)
  end.
Proof. unfold bind. destruct (m t) as [[a|e] t1]; reflexivity. Qed.

Lemma update_bus_voltages_frame V (t : tables F) :
  let s := snd (update_bus_voltages V t) in
  Forall2 bus_frame (bus t) (bus s) /\ gen s = gen t /\ branch s = branch t.
Proof.
  unfold update_bus_voltages, bind, get, lift, set_bus, modify,
    assign_column. simpl.
  assert (HVM : forall vs (b : list (bus_row F)),
             Forall2 bus_frame b (zip_set set_VM vs b)).
  { intros. apply Forall2_zip_set;
      [apply bus_frame_refl|intros v r; repeat split]. }
  assert (HVA : forall vs (b : list (bus_row F)),
             Forall2 bus_frame b (zip_set set_VA vs b)).
  { intros. apply Forall2_zip_set;
      [apply bus_frame_refl|intros v r; repeat split]. }
  destruct (broadcast (length (bus t)) (map cabs V)) as [vm|e]; simpl.
  - destruct (broadcast _ _) as [va|e]; simpl; repeat split; auto.
    eapply Forall2_trans_list; [apply bus_frame_trans|apply HVM|apply HVA].
  - repeat split. apply Forall2_refl_list, bus_frame_refl.
Qed.

Lemma update_Qg_frame baseMVA Sg on gbus (t : tables F) :
  let s := snd (update_Qg baseMVA Sg on gbus t) in
  bus s = bus t /\ branch s = branch t /\
  Forall2 gen_frame (gen t) (gen s) /\
  map (@PG F) (gen s) = map (@PG F) (gen t).
Proof.
  unfold update_Qg, bind, get, lift, set_gen, modify. simpl.
  destruct (np_take _ _) as [Qd|e]; simpl; repeat split.
  - eapply gen_frame_trans_list; [apply zero_Qg_frame|apply put_QG_frame].
  - unfold inject_Qg, zero_Qg.
    rewrite map_put_frame, map_zip_set_frame by reflexivity. reflexivity.
  - apply zero_Qg_frame.
  - unfold zero_Qg. rewrite map_zip_set_frame by reflexivity. reflexivity.
Qed.

Lemma split_Qg_frame on gbus (t : tables F) :
  let s := snd (split_Qg on gbus t) in
  bus s = bus t /\ branch s = branch t /\
  Forall2 gen_frame (gen t) (gen s) /\
  map (@PG F) (gen s) = map (@PG F) (gen t).
Proof.
  unfold split_Qg, bind, get, lift, set_gen, modify, csr_matrix. simpl.
  destruct (forallb _ _); simpl; repeat split.
  - apply split_table_frame.
  - apply split_table_PG.
  - apply Forall2_refl_list, gen_frame_refl.
Qed.

Lemma swing_table_frame baseMVA Sg Pd on refgen (g : list (gen_row F)) :
  Forall2 gen_frame g (swing_table baseMVA Sg Pd on refgen g) /\
  map (@QG F) (swing_table baseMVA Sg Pd on refgen g) = map (@QG F) g /\
  forall k, swing_row on refgen <> Some k ->
    nth_error (map (@PG F) (swing_table baseMVA Sg Pd on refgen g)) k
    = nth_error (map (@PG F) g) k.
Proof.
  unfold swing_table, swing_row, inject_Pg, subtract_others.
  destruct refgen as [|r0 others].
  - repeat split. apply Forall2_refl_list, gen_frame_refl.
  - destruct (Nat.ltb 1 (length (r0 :: others))); repeat split.
    + eapply gen_frame_trans_list; apply upd_PG_frame.
    + rewrite !map_upd_frame by reflexivity. reflexivity.
    + intros k Hk. rewrite !nth_error_map, !nth_error_upd.
      destruct (Nat.eqb_spec k (nth r0 on 0)); [congruence|reflexivity].
    + apply upd_PG_frame.
    + rewrite !map_upd_frame by reflexivity. reflexivity.
    + intros k Hk. rewrite !nth_error_map, !nth_error_upd.
      destruct (Nat.eqb_spec k (nth r0 on 0)); [congruence|reflexivity].
Qed.

Lemma update_Pg_swing_frame baseMVA Sg on refgen ref (t : tables F) :
  let s := snd (update_Pg_swing baseMVA Sg on refgen ref t) in
  bus s = bus t /\ branch s = branch t /\
  Forall2 gen_frame (gen t) (gen s) /\
  map (@QG F) (gen s) = map (@QG F) (gen t) /\
  forall k, swing_row on refgen <> Some k ->
    nth_error (map (@PG F) (gen s)) k = nth_error (map (@PG F) (gen t)) k.
Proof.
  destruct (update_Pg_swing baseMVA Sg on refgen ref t) as [[u|e] s] eqn:E.
  - apply update_Pg_swing_ok in E. destruct E as (Pd & _ & _ & ->). simpl.
    destruct (swing_table_frame baseMVA Sg Pd on refgen (gen t))
      as (Hf & HQ & HP).
    repeat split; assumption.
  - simpl. revert E.
    unfold update_Pg_swing, bind, get, lift, set_gen, modify, ret.
    destruct refgen as [|r0 others].
    + intros E; inversion E; subst.
      repeat split. apply Forall2_refl_list, gen_frame_refl.
    + simpl. destruct (np_get _ ref) as [Pd|e'].
      * destruct others; simpl; discriminate.
      * intros E; inversion E; subst.
        repeat split. apply Forall2_refl_list, gen_frame_refl.
Qed.

Lemma put_flows_frame idx vals (b : list (branch_row F)) :
  Forall2 branch_frame b (put set_flows idx vals b).
Proof.
  apply Forall2_put;
    [apply branch_frame_refl|apply branch_frame_trans
    |intros v r; repeat split].
Qed.

Lemma update_branch_flows_frame baseMVA Yf Yt V (t : tables F) :
  let s := snd (update_branch_flows baseMVA Yf Yt V t) in
  bus s = bus t /\ gen s = gen t /\ Forall2 branch_frame (branch t) (branch s).
Proof.
  unfold update_branch_flows, bind, get, lift, set_branch, modify. simpl.
  destruct (injection Yf V _ _) as [Sf|e]; simpl.
  - destruct (injection Yt V _ _) as [St|e]; simpl; repeat split.
    + unfold zero_flows, write_flows.
      eapply Forall2_trans_list;
        [apply branch_frame_trans|apply put_flows_frame|apply put_flows_frame].
    + apply Forall2_refl_list, branch_frame_refl.
  - repeat split. apply Forall2_refl_list, branch_frame_refl.
Qed.
End Frames.

Section WholeFrame.
Context {F : Type} `{Num F} `{Libm F}.
Local Open Scope num_scope.

Variables (baseMVA : F) (Ybus Yf Yt : csr (complex F))
          (V : list (complex F)) (ref : Z).

Lemma gen_kept_refl a (t : tables F) : gen_kept a t t.
Proof. split; [apply Forall2_refl_list, gen_frame_refl|reflexivity]. Qed.

Lemma gen_kept_trans a (t1 t2 t3 : tables F) :
  gen_kept a t1 t2 -> gen_kept a t2 t3 -> gen_kept a t1 t3.
Proof.
  intros [Hf1 Hp1] [Hf2 Hp2]. split.
  - eapply gen_frame_trans_list; eassumption.
  - intros k Hk. rewrite Hp2, Hp1 by assumption. reflexivity.
Qed.

Lemma gen_kept_same_PG a (t s : tables F) :
  Forall2 gen_frame (gen t) (gen s) ->
  map (@PG F) (gen s) = map (@PG F) (gen t) -> gen_kept a t s.
Proof. intros Hf Hp. split; [assumption|]. intros k _. rewrite Hp; reflexivity. Qed.

Lemma pfsoln_unfold (t : tables F) :
  pfsoln baseMVA Ybus Yf Yt V ref t =
  bind (update_bus_voltages V) (fun _ =>
  bind get (fun t1 =>
  bind (dispatch baseMVA Ybus V ref t1) (fun _ =>
  bind (update_branch_flows baseMVA Yf Yt V) (fun _ => get)))) t.
Proof.
  unfold pfsoln, dispatch, bind, get, lift.
  destruct (update_bus_voltages V t) as [[u|e] t1]; [|reflexivity].
  destruct (injection Ybus V _ _) as [Sg|e]; [|reflexivity].
  destruct (update_Qg _ _ _ _ t1) as [[u2|e] t2]; [|reflexivity].
  destruct ((if Nat.ltb 1 (length (gens_on (gen t1)))
             then split_Qg (gens_on (gen t1))
                           (gens_bus (gen t1) (gens_on (gen t1)))
             else ret tt) t2) as [[u3|e] t3]; [|reflexivity].
  destruct (update_Pg_swing _ _ _ _ _ t3) as [[u4|e] t4]; reflexivity.
Qed.

Lemma dispatch_frame (t1 t : tables F) :
  let s := snd (dispatch baseMVA Ybus V ref t1 t) in
  bus s = bus t /\ branch s = branch t /\
  gen_kept (anchor (gen t1) ref) t s.
Proof.
  unfold dispatch, anchor.
  set (on := gens_on (gen t1)). set (gbus := gens_bus (gen t1) on).
  set (refgen := gens_ref gbus ref).
  rewrite snd_bind. unfold lift at 1 2. simpl.
  destruct (injection Ybus V gbus gbus) as [Sg|e];
    [|split; [reflexivity|split; [reflexivity|apply gen_kept_refl]]].
  rewrite snd_bind.
  destruct (update_Qg_frame baseMVA Sg on gbus t) as (Hb2 & Hr2 & Hf2 & Hp2).
  destruct (update_Qg baseMVA Sg on gbus t) as [[u2|e] t2]; simpl in *;
    [|split; [assumption|split; [assumption|]];
      apply gen_kept_same_PG; assumption].
  rewrite snd_bind.
  assert (H3 : let s := snd ((if Nat.ltb 1 (length on)
                              then split_Qg on gbus else ret tt) t2) in
               bus s = bus t2 /\ branch s = branch t2 /\
               Forall2 gen_frame (gen t2) (gen s) /\
               map (@PG F) (gen s) = map (@PG F) (gen t2)).
  { destruct (Nat.ltb 1 (length on)); [apply split_Qg_frame|].
    simpl. repeat split. apply Forall2_refl_list, gen_frame_refl. }
  destruct H3 as (Hb3 & Hr3 & Hf3 & Hp3).
  destruct ((if Nat.ltb 1 (length on) then split_Qg on gbus else ret tt) t2)
    as [[u3|e] t3]; simpl in *.
  - destruct (update_Pg_swing_frame baseMVA Sg on refgen ref t3)
      as (Hb4 & Hr4 & Hf4 & _ & Hp4).
    split; [congruence|]. split; [congruence|]. split.
    + eapply gen_frame_trans_list; [exact Hf2|].
      eapply gen_frame_trans_list; [exact Hf3|exact Hf4].
    + intros k Hk. unfold swing_row in Hp4.
      rewrite Hp4, Hp3, Hp2; [reflexivity|exact Hk].
  - split; [congruence|]. split; [congruence|]. split.
    + eapply gen_frame_trans_list; eassumption.
    + intros k _. rewrite Hp3, Hp2. reflexivity.
Qed.

(** However [pfsoln] ends, the store it leaves holds the bus table of the
    voltage update, the never-written generator and branch columns, and the
    real outputs of all generators but the anchor. *)
Lemma pfsoln_frame (t : tables F) :
  let s := snd (pfsoln baseMVA Ybus Yf Yt V ref t) in
  bus s = bus (snd (update_bus_voltages V t)) /\
  gen_kept (anchor (gen t) ref) t s /\
  Forall2 branch_frame (branch t) (branch s).
Proof.
  rewrite pfsoln_unfold, snd_bind.
  destruct (update_bus_voltages_frame V t) as (_ & Hg1 & Hr1).
  destruct (update_bus_voltages V t) as [[u|e] t1]; simpl in *.
  - rewrite snd_bind. unfold get. simpl.
    rewrite snd_bind.
    destruct (dispatch_frame t1 t1) as (Hb2 & Hr2 & Hk2).
    assert (Hk : gen_kept (anchor (gen t) ref) t (snd (dispatch baseMVA Ybus V ref t1 t1))).
    { destruct Hk2 as [Hf Hp]. rewrite Hg1 in Hf, Hp. split; assumption. }
    clear Hk2.
    destruct (dispatch baseMVA Ybus V ref t1 t1) as [[u2|e] t2]; simpl in *.
    + rewrite snd_bind.
      destruct (update_branch_flows_frame baseMVA Yf Yt V t2)
        as (Hb3 & Hg3 & Hf3).
      destruct (update_branch_flows baseMVA Yf Yt V t2) as [[u3|e] t3];
        simpl in *.
      * split; [congruence|]. split.
        -- unfold gen_kept in *. rewrite Hg3. exact Hk.
        -- rewrite <- Hr1, <- Hr2. exact Hf3.
      * split; [congruence|]. split.
        -- unfold gen_kept in *. rewrite Hg3. exact Hk.
        -- rewrite <- Hr1, <- Hr2. exact Hf3.
    + split; [congruence|]. split; [exact Hk|].
      rewrite Hr2, Hr1. apply Forall2_refl_list, branch_frame_refl.
  - split; [reflexivity|]. split.
    + split; rewrite Hg1; [apply Forall2_refl_list, gen_frame_refl|reflexivity].
    + rewrite Hr1. apply Forall2_refl_list, branch_frame_refl.
Qed.
End WholeFrame.

(** ** The exceptions a run can end with *)

Lemma broadcast_raises {X} n (vals : list X) e :
  broadcast n vals = Raise e -> numpy_error e.
Proof.
  unfold broadcast. destruct (Nat.eqb _ _); [discriminate|].
  destruct vals as [|v [|w vals]]; try discriminate;
    intros He; inversion He; right; reflexivity.
Qed.

Lemma assign_column_raises {R X} (set : X -> R -> R) vals (t : list R) e :
  assign_column set vals t = Raise e -> numpy_error e.
Proof.
  unfold assign_column.
  destruct (broadcast (length t) vals) as [vs|e'] eqn:E; simpl; [discriminate|].
  intros He; inversion He; subst. eapply broadcast_raises; eauto.
Qed.

Lemma np_get_raises {A} (a : list A) i e : np_get a i = Raise e -> numpy_error e.
Proof.
  unfold np_get, np_index.
  destruct (_ && _); simpl.
  - destruct (nth_error _ _); [discriminate|].
    intros He; inversion He; left; reflexivity.
  - destruct (_ && _); simpl.
    + destruct (nth_error _ _); [discriminate|].
      intros He; inversion He; left; reflexivity.
    + intros He; inversion He; left; reflexivity.
Qed.

Lemma np_take_raises {A} (a : list A) idx e :
  np_take a idx = Raise e -> numpy_error e.
Proof. apply res_map_never. intros i e'. apply np_get_raises. Qed.

Lemma csr_matrix_raises {X} (data : list X) cols nb e :
  csr_matrix data cols nb = Raise e -> numpy_error e.
Proof.
  unfold csr_matrix. destruct (forallb _ _); [discriminate|].
  intros He; inversion He; right; reflexivity.
Qed.

Section Raises.
Context {F : Type} `{Num F} `{Libm F}.
Local Open Scope num_scope.

Lemma injection_raises (Y : csr (complex F)) V vidx yidx e :
  injection Y V vidx yidx = Raise e -> numpy_error e.
Proof.
  unfold injection, csr_take, np_matvec.
  destruct (np_take V vidx) as [Vi|e1] eqn:E1; simpl.
  - destruct (np_take (rows Y) yidx) as [rs|e2] eqn:E2; simpl.
    + destruct (Nat.eqb _ _); simpl; [discriminate|].
      intros He; inversion He; right; reflexivity.
    + intros He; inversion He; subst. eapply np_take_raises; eauto.
  - intros He; inversion He; subst. eapply np_take_raises; eauto.
Qed.

Lemma bind_raise {A B} (m : M F A) (k : A -> M F B) t e s :
  bind m k t = (Raise e, s) ->
  m t = (Raise e, s) \/
  exists a t1, m t = (Ok a, t1) /\ k a t1 = (Raise e, s).
Proof.
  unfold bind. destruct (m t) as [[a|e'] t1]; intros Hk.
  - right. exists a, t1. auto.
  - left. inversion Hk; reflexivity.
Qed.

Lemma bind_run {A B} (m : M F A) (k : A -> M F B) t a t1 :
  m t = (Ok a, t1) -> bind m k t = k a t1.
Proof. unfold bind. intros ->. reflexivity. Qed.

Lemma lift_raise {A} (r : res A) (t s : tables F) e :
  lift r t = (Raise e, s) -> r = Raise e /\ s = t.
Proof. unfold lift. intros Hl; inversion Hl; auto. Qed.

Lemma update_bus_voltages_raises V (t s : tables F) e :
  update_bus_voltages V t = (Raise e, s) -> numpy_error e.
Proof.
  unfold update_bus_voltages, bind, get, lift, set_bus, modify. simpl.
  destruct (assign_column set_VM _ _) as [b1|e1] eqn:E1.
  - destruct (assign_column set_VA _ _) as [b2|e2] eqn:E2; [discriminate|].
    intros He; inversion He; subst. eapply assign_column_raises; eauto.
  - intros He; inversion He; subst. eapply assign_column_raises; eauto.
Qed.

Lemma update_Qg_raises baseMVA Sg on gbus (t s : tables F) e :
  update_Qg baseMVA Sg on gbus t = (Raise e, s) -> numpy_error e.
Proof.
  unfold update_Qg, bind, get, lift, set_gen, modify. simpl.
  destruct (np_take _ _) as [Qd|e1] eqn:E1; [discriminate|].
  intros He; inversion He; subst. eapply np_take_raises; eauto.
Qed.

Lemma split_Qg_raises on gbus (t s : tables F) e :
  split_Qg on gbus t = (Raise e, s) -> numpy_error e.
Proof.
  unfold split_Qg, bind, get, lift, set_gen, modify, csr_matrix. simpl.
  destruct (forallb _ _); simpl; [discriminate|].
  intros He; inversion He; right; reflexivity.
Qed.

Lemma update_Pg_swing_raises baseMVA Sg on refgen ref (t s : tables F) e :
  update_Pg_swing baseMVA Sg on refgen ref t = (Raise e, s) ->
  numpy_error e.
Proof.
  unfold update_Pg_swing, bind, get, lift, set_gen, modify, ret.
  destruct refgen as [|r0 others].
  - intros He; inversion He; left; reflexivity.
  - simpl. destruct (np_get _ ref) as [Pd|e1] eqn:E1.
    + destruct others; simpl; discriminate.
    + intros He; inversion He; subst. eapply np_get_raises; eauto.
Qed.

Lemma update_branch_flows_raises baseMVA Yf Yt V (t s : tables F) e :
  update_branch_flows baseMVA Yf Yt V t = (Raise e, s) -> numpy_error e.
Proof.
  unfold update_branch_flows, bind, get, lift, set_branch, modify. simpl.
  destruct (injection Yf V _ _) as [Sf|e1] eqn:E1.
  - destruct (injection Yt V _ _) as [St|e2] eqn:E2; [discriminate|].
    intros He; inversion He; subst. eapply injection_raises; eauto.
  - intros He; inversion He; subst. eapply injection_raises; eauto.
Qed.

Variables (baseMVA : F) (Ybus Yf Yt : csr (complex F))
          (V : list (complex F)) (ref : Z).

Lemma dispatch_raises (t1 t s : tables F) e :
  dispatch baseMVA Ybus V ref t1 t = (Raise e, s) -> numpy_error e.
Proof.
  unfold dispatch. intros Hd.
  apply bind_raise in Hd. destruct Hd as [Hd|(Sg & t2 & _ & Hd)].
  { apply lift_raise in Hd. destruct Hd as [Hd _].
    eapply injection_raises; eauto. }
  apply bind_raise in Hd. destruct Hd as [Hd|(u2 & t3 & _ & Hd)].
  { eapply update_Qg_raises; eauto. }
  apply bind_raise in Hd. destruct Hd as [Hd|(u3 & t4 & _ & Hd)].
  { destruct (Nat.ltb 1 _); [eapply split_Qg_raises; eauto|discriminate]. }
  eapply update_Pg_swing_raises; eauto.
Qed.

Lemma dispatch_needs_ref (t1 t s : tables F) u :
  dispatch baseMVA Ybus V ref t1 t = (Ok u, s) ->
  gens_ref (gens_bus (gen t1) (gens_on (gen t1))) ref <> [].
Proof.
  unfold dispatch. intros Hd.
  apply bind_ok in Hd. destruct Hd as (Sg & t2 & _ & Hd).
  apply bind_ok in Hd. destruct Hd as (u2 & t3 & _ & Hd).
  apply bind_ok in Hd. destruct Hd as (u3 & t4 & _ & Hd).
  apply update_Pg_swing_ok in Hd. destruct Hd as (Pd & Hne & _). exact Hne.
Qed.

(** [pfsoln] ends with no other exception than NumPy's two. *)
Lemma pfsoln_raises (t s : tables F) e :
  pfsoln baseMVA Ybus Yf Yt V ref t = (Raise e, s) -> numpy_error e.
Proof.
  rewrite pfsoln_unfold. intros Hp.
  apply bind_raise in Hp. destruct Hp as [Hp|(u1 & t1 & _ & Hp)].
  { eapply update_bus_voltages_raises; eauto. }
  apply bind_raise in Hp. destruct Hp as [Hp|(t0 & t2 & Hg & Hp)].
  { discriminate. }
  apply bind_raise in Hp. destruct Hp as [Hp|(u2 & t3 & _ & Hp)].
  { eapply dispatch_raises; eauto. }
  apply bind_raise in Hp. destruct Hp as [Hp|(u3 & t4 & _ & Hp)].
  { eapply update_branch_flows_raises; eauto. }
  discriminate.
Qed.

(** The steps up to line 86 run through when their reads succeed. *)
Lemma dispatch_Q_runs (t : tables F) d :
  dispatch_reads Ybus V t d ->
  let t1 := with_bus (zip_set set_VA (r_va d) (zip_set set_VM (r_vm d) (bus t)))
                     t in
  update_bus_voltages V t = (Ok tt, t1) /\
  dispatch baseMVA Ybus V ref t1 t1 =
  update_Pg_swing baseMVA (r_Sg d)
    (gens_on (gen t)) (gens_ref (gens_bus (gen t) (gens_on (gen t))) ref) ref
    (with_gen (Qg_table baseMVA d t) t1).
Proof.
  intros (Hvm & Hva & HSg & HQd & Hrange). split.
  { apply update_bus_voltages_ok. eauto. }
  unfold dispatch. cbn [gen with_bus].
  set (t1 := with_bus _ t).
  rewrite bind_run with (a := r_Sg d) (t1 := t1)
    by (apply lift_ok; auto).
  rewrite bind_run
    with (a := tt)
         (t1 := with_gen (inject_Qg baseMVA (r_Sg d) (r_Qd d)
                            (gens_on (gen t)) (zero_Qg (gen t))) t1)
    by (apply update_Qg_ok; exists (r_Qd d); subst t1; cbn [bus with_bus];
        rewrite map_QD_voltages; auto).
  unfold Qg_table.
  destruct (Nat.ltb 1 (length (gens_on (gen t)))) eqn:Hon.
  - rewrite bind_run
      with (a := tt)
           (t1 := with_gen (split_table (gens_on (gen t))
                              (gens_bus (gen t) (gens_on (gen t)))
                              (length (bus t))
                              (inject_Qg baseMVA (r_Sg d) (r_Qd d)
                                 (gens_on (gen t)) (zero_Qg (gen t)))) t1);
      [reflexivity|].
    apply split_Qg_ok. subst t1. cbn [bus gen with_bus with_gen].
    rewrite length_voltages. split; [|reflexivity].
    apply Hrange, Nat.ltb_lt, Hon.
  - rewrite bind_run
      with (a := tt)
           (t1 := with_gen (inject_Qg baseMVA (r_Sg d) (r_Qd d)
                              (gens_on (gen t)) (zero_Qg (gen t))) t1);
      [reflexivity|].
    apply ret_ok. auto.
Qed.
End Raises.

(** ** Reading back what was written *)

Lemma length_map2 {A B C} (f : A -> B -> C) l1 l2 :
  length (map2 f l1 l2) = Nat.min (length l1) (length l2).
Proof.
  revert l2; induction l1 as [|a l1 IH]; intros [|b l2]; simpl; auto.
Qed.

Lemma nth_error_map2 {A B C} (f : A -> B -> C) l1 l2 i :
  nth_error (map2 f l1 l2) i =
  match nth_error l1 i, nth_error l2 i with
  | Some a, Some b => Some (f a b)
  | _, _ => None
  end.
Proof.
  revert l2 i; induction l1 as [|a l1 IH]; intros [|b l2] [|i]; simpl; auto.
  destruct (nth_error l1 i); reflexivity.
Qed.

Lemma nth_error_pairs {A B} (l1 : list A) (l2 : list B) i :
  nth_error (combine l1 l2) i =
  match nth_error l1 i, nth_error l2 i with
  | Some a, Some b => Some (a, b)
  | _, _ => None
  end.
Proof.
  revert l2 i; induction l1 as [|a l1 IH]; intros [|b l2] [|i]; simpl; auto.
  destruct (nth_error l1 i); reflexivity.
Qed.

Lemma nth_map2 {A B C} (f : A -> B -> C) l1 l2 i da db dc :
  i < length l1 -> i < length l2 ->
  nth i (map2 f l1 l2) dc = f (nth i l1 da) (nth i l2 db).
Proof.
  revert l2 i; induction l1 as [|a l1 IH]; intros [|b l2] [|i]; simpl;
    intros H1 H2; try lia; auto.
  apply IH; lia.
Qed.

Lemma nth_error_zip_set {R X} (set : X -> R -> R) vals (t : list R) i :
  nth_error (zip_set set vals t) i =
  match nth_error vals i with
  | Some v => option_map (set v) (nth_error t i)
  | None => nth_error t i
  end.
Proof.
  revert vals i; induction t as [|r t IH]; intros [|v vals] [|i]; simpl; auto.
  - destruct (nth_error vals i); reflexivity.
Qed.

Lemma nth_error_nth_iff {A} (l : list A) i d :
  i < length l -> nth_error l i = Some (nth i l d).
Proof. intros Hi. apply nth_error_nth'. exact Hi. Qed.

Lemma nth_map_lt {A B} (f : A -> B) l b d d' :
  b < length l -> nth b (map f l) d = f (nth b l d').
Proof.
  intros Hb. rewrite nth_indep with (d' := f d')
    by (rewrite length_map; exact Hb).
  apply map_nth.
Qed.

Lemma length_take {A} (d : A) a idx : length (take d a idx) = length idx.
Proof. unfold take. apply length_map. Qed.

Lemma nth_take {A} (d : A) a idx i :
  i < length idx -> nth i (take d a idx) d = nth (nth i idx 0) a d.
Proof.
  intros Hi. unfold take.
  rewrite nth_indep with (d' := (fun k => nth k a d) 0)
    by (rewrite length_map; exact Hi).
  exact (map_nth (fun k => nth k a d) idx 0 i).
Qed.

Lemma nth_put_col {X} (d : X) idx vals col k :
  k < length col ->
  nth k (put (fun v _ => v) idx vals col) d =
  match written k idx vals with
  | Some v => v
  | None => nth k col d
  end.
Proof.
  intros Hk.
  assert (Hn := nth_error_put (fun (v : X) (_ : X) => v) idx vals col k
                  (fun a b r => eq_refl)).
  rewrite (nth_error_nth_iff col d Hk) in Hn. simpl in Hn.
  apply nth_error_nth with (d := d) in Hn. rewrite Hn.
  destruct (written k idx vals); reflexivity.
Qed.

Lemma NoDup_nth_inj (l : list nat) i j :
  NoDup l -> i < length l -> j < length l -> nth i l 0 = nth j l 0 -> i = j.
Proof. intros Hnd Hi Hj Heq. eapply NoDup_nth; eauto. Qed.

Lemma written_at {X} (on : list nat) (vals : list X) i d :
  NoDup on -> i < length on -> length vals = length on ->
  written (nth i on 0) on vals = Some (nth i vals d).
Proof.
  intros Hnd Hi Hl. apply written_some with (j := i); auto.
  - apply nth_error_nth_iff; exact Hi.
  - apply nth_error_nth_iff; lia.
Qed.

(** Positions of an index array, taken through another one: [on[ig]]. *)
Lemma written_through {X} (on ig : list nat) (saves : list X) i :
  NoDup on -> (forall j, In j ig -> j < length on) -> i < length on ->
  written (nth i on 0) (take 0 on ig) saves = written i ig saves.
Proof.
  intros Hon Hlt Hi. revert saves.
  induction ig as [|a ig IH]; intros [|v saves]; simpl; auto.
  rewrite IH by (intros j Hj; apply Hlt; right; exact Hj).
  destruct (written i ig saves); [reflexivity|].
  destruct (Nat.eqb_spec a i) as [->|Hne].
  - rewrite Nat.eqb_refl. reflexivity.
  - destruct (Nat.eqb_spec (nth a on 0) (nth i on 0)) as [Heq|]; [|reflexivity].
    exfalso. apply Hne. apply (NoDup_nth_inj Hon); auto.
    apply Hlt. left; reflexivity.
Qed.

Lemma written_saved {X} (f : nat -> X) (ig : list nat) i :
  written i ig (map f ig) =
  if existsb (Nat.eqb i) ig then Some (f i) else None.
Proof.
  induction ig as [|a ig IH]; simpl; [reflexivity|].
  rewrite IH. rewrite (Nat.eqb_sym i a).
  destruct (existsb (Nat.eqb i) ig).
  - rewrite orb_true_r. reflexivity.
  - rewrite orb_false_r. destruct (Nat.eqb_spec a i) as [->|]; reflexivity.
Qed.

Lemma take_take {X} (d : X) col (on ig : list nat) :
  take d col (take 0 on ig) = map (fun j => nth (nth j on 0) col d) ig.
Proof. unfold take. rewrite map_map. reflexivity. Qed.

Lemma nth_In_lt (l : list nat) n i :
  (forall k, In k l -> k < n) -> i < length l -> nth i l 0 < n.
Proof. intros Hl Hi. apply Hl, nth_In, Hi. Qed.

Lemma take_put_same {X} (d : X) (col : list X) idx vals :
  NoDup idx -> (forall k, In k idx -> k < length col) ->
  length vals = length idx ->
  take d (put (fun v _ => v) idx vals col) idx = vals.
Proof.
  intros Hnd Hlt Hl. apply nth_ext with (d := d) (d' := d).
  - rewrite length_take. symmetry; exact Hl.
  - intros i Hi. rewrite length_take in Hi.
    rewrite nth_take by exact Hi.
    rewrite nth_put_col by (apply nth_In_lt; auto).
    rewrite (written_at vals d Hnd Hi Hl). reflexivity.
Qed.

Lemma res_map_length {A B} (f : A -> res B) l l' :
  res_map f l = Ok l' -> length l' = length l.
Proof.
  intros Hm. apply res_map_ok in Hm. symmetry.
  eapply Forall2_length_eq; eauto.
Qed.

Lemma res_map_nth {A B} (f : A -> res B) l l' j a :
  res_map f l = Ok l' -> nth_error l j = Some a ->
  exists b, nth_error l' j = Some b /\ f a = Ok b.
Proof.
  intros Hm Ha. apply res_map_ok in Hm.
  eapply Forall2_nth_error in Hm; eauto.
Qed.

Section Injection.
Context {F : Type} `{Num F} `{Libm F}.

Lemma injection_length (Y : csr (complex F)) V vidx yidx S :
  injection Y V vidx yidx = Ok S ->
  length S = Nat.min (length vidx) (length yidx).
Proof.
  unfold injection, csr_take, np_matvec.
  destruct (np_take V vidx) as [Vi|] eqn:E1; simpl; [|discriminate].
  destruct (np_take (rows Y) yidx) as [rs|] eqn:E2; simpl; [|discriminate].
  destruct (Nat.eqb _ _); simpl; [|discriminate].
  intros HS; inversion HS; subst.
  unfold matvec. simpl.
  rewrite length_map2, !length_map.
  apply res_map_length in E1. apply res_map_length in E2. lia.
Qed.

(** Entry [j] of an injection is the power of its own pair of indices. *)
Lemma injection_nth (Y : csr (complex F)) V vidx yidx S j i k :
  injection Y V vidx yidx = Ok S ->
  nth_error vidx j = Some i -> nth_error yidx j = Some k ->
  exists s, power Y V i k = Ok s /\ nth_error S j = Some s.
Proof.
  unfold injection, csr_take, np_matvec, power.
  destruct (np_take V vidx) as [Vi|] eqn:E1; simpl; [|discriminate].
  destruct (np_take (rows Y) yidx) as [rs|] eqn:E2; simpl; [|discriminate].
  destruct (Nat.eqb _ _); simpl; [|discriminate].
  intros HS Hi Hk; inversion HS; subst.
  destruct (res_map_nth _ _ _ E1 Hi) as (v & Hv & Hgv).
  destruct (res_map_nth _ _ _ E2 Hk) as (row & Hrow & Hgr).
  rewrite Hgv, Hgr. simpl. eexists; split; [reflexivity|].
  unfold matvec. simpl.
  rewrite nth_error_map2, !nth_error_map, Hv, Hrow. reflexivity.
Qed.
End Injection.

(** ** The generator table of a run that returns *)

Section Dispatch.
Context {F : Type} `{Num F} `{Libm F}.
Local Open Scope num_scope.

Lemma gens_on_NoDup (g : list (gen_row F)) : NoDup (gens_on g).
Proof. apply find_NoDup. Qed.

Lemma gens_on_lt (g : list (gen_row F)) k : In k (gens_on g) -> k < length g.
Proof.
  unfold gens_on. intros Hin. apply find_lt in Hin.
  rewrite length_map in Hin. exact Hin.
Qed.

Lemma gens_on_spec (g : list (gen_row F)) k :
  In k (gens_on g) <->
  exists r, nth_error g k = Some r /\ (f0 <? GEN_STATUS r) = true.
Proof.
  unfold gens_on. rewrite find_spec, nth_error_map.
  destruct (nth_error g k) as [r|]; simpl.
  - split.
    + intros Hs; inversion Hs. eauto.
    + intros [r' [Hr Hs]]. inversion Hr; subst. rewrite Hs. reflexivity.
  - split; [discriminate|]. intros [r [Hr _]]; discriminate.
Qed.

Lemma length_gens_bus (g : list (gen_row F)) on :
  length (gens_bus g on) = length on.
Proof. unfold gens_bus. rewrite length_map, length_take. reflexivity. Qed.

Lemma length_one_per_row {X} (data : list X) cols nb :
  length (rows (one_per_row data cols nb))
  = Nat.min (length data) (length cols).
Proof. unfold one_per_row. simpl. apply length_map2. Qed.

Lemma length_matvec {A} (z : A) add mul M x :
  length (matvec z add mul M x) = length (rows M).
Proof. unfold matvec. apply length_map. Qed.

Lemma take_QG_put (g : list (gen_row F)) on vals :
  NoDup on -> (forall k, In k on -> k < length g) ->
  length vals = length on ->
  take f0 (map (@QG F) (put set_QG on vals g)) on = vals.
Proof.
  intros Hnd Hlt Hl.
  rewrite map_put_col by reflexivity.
  apply take_put_same; auto.
  intros k Hk. rewrite length_map. auto.
Qed.

Variables (baseMVA : F) (Ybus : csr (complex F)) (V : list (complex F)).
Variables (t : tables F) (d : reads F).
Hypothesis Hd : dispatch_reads Ybus V t d.

Let on := gens_on (gen t).
Let gbus := gens_bus (gen t) on.

Lemma length_Qg_required : length (Qg_required baseMVA d) = length on.
Proof.
  destruct Hd as (_ & _ & HSg & HQd & _).
  unfold Qg_required, bus_Qg.
  rewrite length_map2, length_map.
  apply injection_length in HSg. apply res_map_length in HQd.
  fold on in HSg, HQd. fold gbus in HSg, HQd.
  rewrite HSg, HQd. unfold gbus. rewrite length_gens_bus. lia.
Qed.

Lemma length_rows_Cg : length (rows (Cg_of t)) = length on.
Proof.
  unfold Cg_of. rewrite length_one_per_row, repeat_length.
  fold on. rewrite length_gens_bus. lia.
Qed.

Lemma length_Qg_equal : length (Qg_equal baseMVA d t) = length on.
Proof.
  unfold Qg_equal, ngg.
  rewrite length_map2, length_matvec, length_Qg_required, length_rows_Cg.
  lia.
Qed.

Lemma length_Qg_proportional :
  length (Qg_proportional baseMVA d t) = length on.
Proof.
  unfold Qg_proportional. fold on.
  rewrite !length_map2, length_matvec, !length_take, length_rows_Cg. lia.
Qed.

Lemma zero_range_lt j :
  In j (zero_range (Cg_of t) (Cmin_of t) (Cmax_of t)) -> j < length on.
Proof.
  unfold zero_range. intros Hj. apply find_lt in Hj.
  rewrite length_map2, !length_matvec, length_rows_Cg in Hj. lia.
Qed.

(** Lines 62-86 in terms of the three share vectors. *)
Lemma split_table_shares :
  let g1 := inject_Qg baseMVA (r_Sg d) (r_Qd d) on (zero_Qg (gen t)) in
  let ig := zero_range (Cg_of t) (Cmin_of t) (Cmax_of t) in
  split_table on gbus (length (bus t)) g1 =
  put set_QG (take 0 on ig)
      (map (fun j => nth j (Qg_equal baseMVA d t) f0) ig)
      (put set_QG on (Qg_proportional baseMVA d t)
           (put set_QG on (Qg_equal baseMVA d t) g1)).
Proof.
  intros g1 ig.
  assert (Hlt1 : forall k, In k on -> k < length (zero_Qg (gen t))).
  { intros k Hk. unfold zero_Qg. rewrite length_zip_set.
    apply gens_on_lt. exact Hk. }
  assert (Hq1 : take f0 (map (@QG F) g1) on = Qg_required baseMVA d).
  { unfold g1, inject_Qg. apply take_QG_put; auto.
    - apply gens_on_NoDup.
    - apply length_Qg_required. }
  assert (HCg : one_per_row (repeat f1 (length on)) gbus (length (bus t))
                = Cg_of t) by reflexivity.
  unfold split_table, divide_equally. rewrite HCg, Hq1.
  fold (Qg_equal baseMVA d t).
  set (g2 := put set_QG on (Qg_equal baseMVA d t) g1).
  assert (Hmin : map (@QMIN F) g2 = map (@QMIN F) (gen t)).
  { unfold g2, g1, inject_Qg, zero_Qg.
    rewrite !map_put_frame, map_zip_set_frame by reflexivity. reflexivity. }
  assert (Hmax : map (@QMAX F) g2 = map (@QMAX F) (gen t)).
  { unfold g2, g1, inject_Qg, zero_Qg.
    rewrite !map_put_frame, map_zip_set_frame by reflexivity. reflexivity. }
  assert (Hq2 : take f0 (map (@QG F) g2) on = Qg_equal baseMVA d t).
  { unfold g2. apply take_QG_put.
    - apply gens_on_NoDup.
    - intros k Hk. unfold g1, inject_Qg. rewrite length_put. auto.
    - apply length_Qg_equal. }
  unfold divide_proportionally. rewrite Hmin, Hmax, Hq2.
  fold (Cmin_of t) (Cmax_of t) ig.
  rewrite take_take.
  f_equal.
  apply map_ext_in. intros j Hj.
  rewrite <- Hq2. rewrite nth_take; [reflexivity|].
  apply zero_range_lt. exact Hj.
Qed.

Lemma nth_error_zero_Qg (g : list (gen_row F)) k :
  nth_error (zero_Qg g) k = option_map (set_QG f0) (nth_error g k).
Proof.
  unfold zero_Qg. rewrite nth_error_zip_set.
  destruct (nth_error g k) as [r|] eqn:Hr; simpl.
  - assert (Hk : k < length g) by (apply nth_error_Some; congruence).
    rewrite (nth_error_nth_iff (repeat f0 (length g)) f0)
      by (rewrite repeat_length; exact Hk).
    rewrite nth_repeat. reflexivity.
  - destruct (nth_error (repeat f0 (length g)) k); reflexivity.
Qed.

Lemma set_QG_absorbs (a b : F) (r : gen_row F) :
  set_QG a (set_QG b r) = set_QG a r.
Proof. reflexivity. Qed.

(** A generator that is off ends with a zero reactive output. *)
Lemma Qg_table_off k r :
  ~ In k on -> nth_error (gen t) k = Some r ->
  nth_error (Qg_table baseMVA d t) k = Some (set_QG f0 r).
Proof.
  intros Hk Hr. unfold Qg_table. fold on. fold gbus.
  assert (H1 : nth_error (inject_Qg baseMVA (r_Sg d) (r_Qd d) on
                            (zero_Qg (gen t))) k = Some (set_QG f0 r)).
  { unfold inject_Qg. rewrite nth_error_put by apply set_QG_absorbs.
    rewrite written_none by exact Hk.
    rewrite nth_error_zero_Qg, Hr. reflexivity. }
  destruct (Nat.ltb 1 (length on)); [|exact H1].
  rewrite split_table_shares.
  rewrite !nth_error_put by apply set_QG_absorbs.
  assert (Hk' : ~ In k (take 0 on
                          (zero_range (Cg_of t) (Cmin_of t) (Cmax_of t)))).
  { unfold take. rewrite in_map_iff. intros [j [Hj Hin]].
    apply Hk. rewrite <- Hj. apply nth_In. apply zero_range_lt. exact Hin. }
  rewrite H1. rewrite !written_none by assumption. reflexivity.
Qed.

(** The generator at position [i] of [on] ends with [Qg_final]. *)
Lemma Qg_table_on i r :
  i < length on -> nth_error (gen t) (nth i on 0) = Some r ->
  nth_error (Qg_table baseMVA d t) (nth i on 0)
  = Some (set_QG (Qg_final baseMVA d t i) r).
Proof.
  intros Hi Hr. unfold Qg_table, Qg_final. fold on. fold gbus.
  assert (Hnd : NoDup on) by apply gens_on_NoDup.
  assert (H1 : nth_error (inject_Qg baseMVA (r_Sg d) (r_Qd d) on
                            (zero_Qg (gen t))) (nth i on 0)
               = Some (set_QG (nth i (Qg_required baseMVA d) f0) r)).
  { unfold inject_Qg. rewrite nth_error_put by apply set_QG_absorbs.
    fold (Qg_required baseMVA d).
    rewrite (written_at _ f0 Hnd Hi length_Qg_required).
    rewrite nth_error_zero_Qg, Hr. reflexivity. }
  destruct (Nat.ltb 1 (length on)); [|exact H1].
  rewrite split_table_shares.
  rewrite !nth_error_put by apply set_QG_absorbs.
  rewrite H1.
  rewrite (written_at _ f0 Hnd Hi length_Qg_equal).
  rewrite (written_at _ f0 Hnd Hi length_Qg_proportional).
  rewrite written_through by (auto using zero_range_lt).
  rewrite written_saved.
  destruct (existsb _ _); reflexivity.
Qed.
End Dispatch.

(** ** The branch table of a run that returns *)

Section Branches.
Context {F : Type} `{Num F} `{Libm F}.
Local Open Scope num_scope.

Lemma set_flows_absorbs (a b : complex F * complex F) (r : branch_row F) :
  set_flows a (set_flows b r) = set_flows a r.
Proof. reflexivity. Qed.

Lemma branches_out_spec (b : list (branch_row F)) k :
  In k (branches_out b) <->
  exists r, nth_error b k = Some r /\ (BR_STATUS r == f0) = true.
Proof.
  unfold branches_out. rewrite find_spec, nth_error_map.
  destruct (nth_error b k) as [r|]; simpl.
  - split.
    + intros Hs; inversion Hs. eauto.
    + intros [r' [Hr Hs]]. inversion Hr; subst. rewrite Hs. reflexivity.
  - split; [discriminate|]. intros [r [Hr _]]; discriminate.
Qed.

Lemma branches_in_spec (b : list (branch_row F)) k :
  In k (branches_in b) <->
  exists r, nth_error b k = Some r /\ (BR_STATUS r == f0) = false.
Proof.
  unfold branches_in. rewrite find_spec, nth_error_map.
  destruct (nth_error b k) as [r|]; simpl.
  - split.
    + intros Hs; inversion Hs.
      exists r. split; [reflexivity|]. apply negb_true_iff. assumption.
    + intros [r' [Hr Hs]]. inversion Hr; subst. rewrite Hs. reflexivity.
  - split; [discriminate|]. intros [r [Hr _]]; discriminate.
Qed.

Variables (baseMVA : F) (Sf St : list (complex F)).

(** A branch that is out of service ends with four zero flows. *)
Lemma flows_out (b : list (branch_row F)) k r :
  nth_error b k = Some r -> (BR_STATUS r == f0) = true ->
  nth_error (zero_flows (branches_out b)
               (write_flows baseMVA Sf St (branches_in b) b)) k
  = Some (set_flows (c0, c0) r).
Proof.
  intros Hr Hs. unfold zero_flows, write_flows.
  rewrite !nth_error_put by apply set_flows_absorbs.
  rewrite Hr. simpl.
  assert (Hout : In k (branches_out b)) by (apply branches_out_spec; eauto).
  assert (Hin : ~ In k (branches_in b)).
  { rewrite branches_in_spec. intros [r' [Hr' Hs']]. congruence. }
  rewrite (written_none k (branches_in b) _ Hin). simpl.
  apply In_nth_error in Hout. destruct Hout as [j Hj].
  assert (Hjl : j < length (branches_out b))
    by (apply nth_error_Some; congruence).
  erewrite written_some; [reflexivity| |exact Hj|].
  - apply find_NoDup.
  - rewrite (nth_error_nth_iff _ (@c0 F _, @c0 F _))
      by (rewrite repeat_length; exact Hjl).
    rewrite nth_repeat. reflexivity.
Qed.

(** A branch in service, at position [j] of [br], ends with the scaled
    entries [j] of [Sf] and [St]. *)
Lemma flows_in (b : list (branch_row F)) j k r sf st :
  nth_error (branches_in b) j = Some k -> nth_error b k = Some r ->
  nth_error Sf j = Some sf -> nth_error St j = Some st ->
  nth_error (zero_flows (branches_out b)
               (write_flows baseMVA Sf St (branches_in b) b)) k
  = Some (set_flows (scaled baseMVA sf, scaled baseMVA st) r).
Proof.
  intros Hj Hr Hsf Hst. unfold zero_flows, write_flows.
  rewrite !nth_error_put by apply set_flows_absorbs.
  rewrite Hr. simpl.
  assert (Hin : In k (branches_in b)) by (eapply nth_error_In; eauto).
  assert (Hout : ~ In k (branches_out b)).
  { rewrite branches_out_spec. intros [r' [Hr' Hs']].
    apply branches_in_spec in Hin. destruct Hin as [r'' [Hr'' Hs'']].
    congruence. }
  rewrite (written_none k (branches_out b) _ Hout). simpl.
  erewrite written_some; [reflexivity| |exact Hj|].
  - apply find_NoDup.
  - rewrite nth_error_pairs, !nth_error_map, Hsf, Hst. reflexivity.
Qed.
End Branches.

(** ** The anchor's real output *)

Section Swing.
Context {F : Type} `{Num F} `{Libm F}.
Local Open Scope num_scope.

Variables (baseMVA : F) (Sg : list (complex F)) (Pd : F).

Lemma swing_table_other on refgen (g : list (gen_row F)) k :
  swing_row on refgen <> Some k ->
  nth_error (swing_table baseMVA Sg Pd on refgen g) k = nth_error g k.
Proof.
  unfold swing_table, swing_row, inject_Pg, subtract_others.
  destruct refgen as [|r0 others]; [reflexivity|].
  intros Hk.
  destruct (Nat.ltb 1 (length (r0 :: others))); rewrite !nth_error_upd;
    destruct (Nat.eqb_spec k (nth r0 on 0)); congruence.
Qed.

Lemma swing_table_anchor on r0 others (g : list (gen_row F)) r :
  NoDup on -> NoDup (r0 :: others) ->
  (forall j, In j (r0 :: others) -> j < length on) ->
  nth_error g (nth r0 on 0) = Some r ->
  nth_error (swing_table baseMVA Sg Pd on (r0 :: others) g) (nth r0 on 0)
  = Some (set_PG (anchor_Pg baseMVA Sg Pd on r0 others g) r).
Proof.
  intros Hon Href Hlt Hr.
  unfold swing_table, anchor_Pg, inject_Pg, subtract_others.
  destruct others as [|r1 others]; simpl length; cbn [Nat.ltb Nat.leb].
  - rewrite nth_error_upd, Nat.eqb_refl, Hr. reflexivity.
  - set (a := nth r0 on 0) in *.
    set (X := real (nth r0 Sg c0) * baseMVA + Pd).
    set (oth := r1 :: others) in *.
    assert (Hanchor : nth a (map (@PG F) (upd a (set_PG X) g)) f0 = X).
    { rewrite map_upd_col by reflexivity.
      assert (Hn := nth_error_upd a (fun _ : F => X) (map (@PG F) g) a).
      rewrite Nat.eqb_refl, nth_error_map, Hr in Hn. simpl in Hn.
      apply nth_error_nth with (d := f0) in Hn. exact Hn. }
    assert (Hothers : take f0 (map (@PG F) (upd a (set_PG X) g))
                           (take 0 on oth)
                      = take f0 (map (@PG F) g) (take 0 on oth)).
    { rewrite map_upd_col by reflexivity.
      unfold take. rewrite !map_map. apply map_ext_in. intros j Hj.
      assert (Hne : nth j on 0 <> a).
      { unfold a. intros Heq.
        assert (j = r0).
        { apply (NoDup_nth_inj Hon); auto; apply Hlt; simpl; auto. }
        subst j. inversion Href; subst. contradiction. }
      destruct (nth_error (map (@PG F) g) (nth j on 0)) as [p|] eqn:Hp.
      - assert (Hn := nth_error_upd a (fun _ : F => X) (map (@PG F) g)
                        (nth j on 0)).
        destruct (Nat.eqb_spec (nth j on 0) a); [contradiction|].
        rewrite Hp in Hn.
        apply nth_error_nth with (d := f0) in Hn.
        apply nth_error_nth with (d := f0) in Hp. congruence.
      - apply nth_error_None in Hp.
        rewrite !nth_overflow; [reflexivity|exact Hp|].
        rewrite length_upd. exact Hp. }
    rewrite Hanchor, Hothers.
    rewrite !nth_error_upd, Nat.eqb_refl, Hr. reflexivity.
Qed.
End Swing.

(** ** Rows of the tables a run returns *)

Section Rows.
Context {F : Type} `{Num F} `{Libm F}.
Local Open Scope num_scope.

Lemma gens_ref_spec gbus ref j :
  In j (gens_ref gbus ref) <-> nth_error gbus j = Some ref.
Proof.
  unfold gens_ref. rewrite find_spec, nth_error_map.
  destruct (nth_error gbus j) as [b|]; simpl.
  - split.
    + intros Hb; inversion Hb as [Hb']. apply Z.eqb_eq in Hb'. congruence.
    + intros Hb; inversion Hb; subst. rewrite Z.eqb_refl. reflexivity.
  - split; discriminate.
Qed.

Lemma gens_ref_lt gbus ref j :
  In j (gens_ref gbus ref) -> j < length gbus.
Proof.
  rewrite gens_ref_spec. intros Hj. apply nth_error_Some. congruence.
Qed.

Variables (baseMVA : F) (Ybus Yf Yt : csr (complex F))
          (V : list (complex F)) (ref : Z).
Variables (t : tables F) (d : reads F).
Hypothesis Hd : pfsoln_reads Ybus Yf Yt V ref t d.

Let on := gens_on (gen t).
Let gbus := gens_bus (gen t) on.
Let refgen := gens_ref gbus ref.

Lemma refgen_lt j : In j refgen -> j < length on.
Proof.
  intros Hj. apply gens_ref_lt in Hj. unfold gbus in Hj.
  rewrite length_gens_bus in Hj. exact Hj.
Qed.

Lemma swing_row_on k : swing_row on refgen = Some k -> In k on.
Proof.
  unfold swing_row. destruct refgen as [|r0 others] eqn:Href; [discriminate|].
  intros Hk; inversion Hk; subst. apply nth_In. apply refgen_lt.
  rewrite Href. left; reflexivity.
Qed.

Lemma Qg_table_PG :
  map (@PG F) (Qg_table baseMVA d t) = map (@PG F) (gen t).
Proof.
  unfold Qg_table, inject_Qg, zero_Qg.
  destruct (Nat.ltb 1 _).
  - rewrite split_table_PG, map_put_frame, map_zip_set_frame by reflexivity.
    reflexivity.
  - rewrite map_put_frame, map_zip_set_frame by reflexivity. reflexivity.
Qed.

Lemma length_Qg_table : length (Qg_table baseMVA d t) = length (gen t).
Proof.
  rewrite <- (length_map (@PG F)), Qg_table_PG, length_map. reflexivity.
Qed.

(** A generator that is off. *)
Lemma returned_gen_off k r :
  nth_error (gen t) k = Some r -> (f0 <? GEN_STATUS r) = false ->
  nth_error (gen (pfsoln_tables baseMVA ref d t)) k = Some (set_QG f0 r).
Proof.
  intros Hr Hs. unfold pfsoln_tables. cbn [gen]. fold on gbus refgen.
  assert (Hk : ~ In k on).
  { unfold on. rewrite gens_on_spec. intros [r' [Hr' Hs']]. congruence. }
  rewrite swing_table_other.
  - destruct Hd as [Hdr _]. apply (Qg_table_off baseMVA Hdr); assumption.
  - intros Ha. apply Hk, swing_row_on, Ha.
Qed.

(** Any generator that is on: its reactive output is [Qg_final]. *)
Lemma returned_gen_on i r :
  i < length on -> nth_error (gen t) (nth i on 0) = Some r ->
  exists r',
    nth_error (gen (pfsoln_tables baseMVA ref d t)) (nth i on 0) = Some r' /\
    QG r' = Qg_final baseMVA d t i /\ gen_frame r r'.
Proof.
  intros Hi Hr. unfold pfsoln_tables. cbn [gen]. fold on gbus refgen.
  destruct Hd as [Hdr _].
  pose proof (Qg_table_on baseMVA Hdr Hi Hr) as HQ. fold on in HQ.
  destruct (swing_table_frame baseMVA (r_Sg d) (r_Pd d) on refgen
              (Qg_table baseMVA d t)) as (Hf & HQG & _).
  destruct (Forall2_nth_error _ Hf HQ) as (r' & Hr' & Hfr).
  exists r'. split; [exact Hr'|]. split.
  - assert (Hq : nth_error (map (@QG F) (swing_table baseMVA (r_Sg d) (r_Pd d)
                               on refgen (Qg_table baseMVA d t))) (nth i on 0)
                 = nth_error (map (@QG F) (Qg_table baseMVA d t)) (nth i on 0))
      by (rewrite HQG; reflexivity).
    rewrite !nth_error_map, Hr', HQ in Hq. simpl in Hq. congruence.
  - eapply gen_frame_trans; [|exact Hfr]. repeat split.
Qed.

(** The anchor. *)
Lemma returned_anchor r0 others :
  refgen = r0 :: others ->
  exists S r r',
    power Ybus V ref ref = Ok S /\
    nth_error (gen t) (nth r0 on 0) = Some r /\
    nth_error (gen (pfsoln_tables baseMVA ref d t)) (nth r0 on 0) = Some r' /\
    PG r' =
    match others with
    | [] => real S * baseMVA + r_Pd d
    | _ :: _ =>
        real S * baseMVA + r_Pd d
        - fold_left fadd (take f0 (map (@PG F) (gen t)) (take 0 on others)) f0
    end.
Proof.
  intros Href.
  destruct Hd as ((_ & _ & HSg & _) & _).
  fold on in HSg. fold gbus in HSg.
  assert (Hr0 : In r0 refgen) by (rewrite Href; left; reflexivity).
  assert (Hi : r0 < length on) by (apply refgen_lt; exact Hr0).
  assert (Hb : nth_error gbus r0 = Some ref)
    by (apply gens_ref_spec; exact Hr0).
  assert (HS' := HSg).
  eapply injection_nth in HS'; [|exact Hb|exact Hb].
  destruct HS' as (S & HS & HSn).
  assert (Hk : nth r0 on 0 < length (gen t))
    by (apply gens_on_lt, nth_In, Hi).
  destruct (nth_error (gen t) (nth r0 on 0)) as [r|] eqn:Hr;
    [|apply nth_error_None in Hr; lia].
  assert (Hk' : nth r0 on 0 < length (Qg_table baseMVA d t))
    by (rewrite length_Qg_table; exact Hk).
  destruct (nth_error (Qg_table baseMVA d t) (nth r0 on 0)) as [rq|] eqn:Hrq;
    [|apply nth_error_None in Hrq; lia].
  exists S, r, (set_PG (anchor_Pg baseMVA (r_Sg d) (r_Pd d) on r0 others
                          (Qg_table baseMVA d t)) rq).
  split; [exact HS|]. split; [reflexivity|]. split.
  - unfold pfsoln_tables. cbn [gen]. fold on gbus refgen. rewrite Href.
    apply swing_table_anchor; auto.
    + apply gens_on_NoDup.
    + rewrite <- Href. apply find_NoDup.
    + intros j Hj. apply refgen_lt. rewrite Href. exact Hj.
  - cbn [PG set_PG]. unfold anchor_Pg. rewrite Qg_table_PG.
    apply nth_error_nth with (d := c0) in HSn. rewrite HSn.
    destruct others; reflexivity.
Qed.

(** The other generators of the reference bus keep their real output. *)
Lemma returned_others_Pg r0 others :
  refgen = r0 :: others ->
  take f0 (map (@PG F) (gen (pfsoln_tables baseMVA ref d t)))
       (take 0 on others)
  = take f0 (map (@PG F) (gen t)) (take 0 on others).
Proof.
  intros Href. unfold pfsoln_tables. cbn [gen]. fold on gbus refgen.
  destruct (swing_table_frame baseMVA (r_Sg d) (r_Pd d) on refgen
              (Qg_table baseMVA d t)) as (_ & _ & HP).
  rewrite Qg_table_PG in HP.
  unfold take. rewrite !map_map. apply map_ext_in. intros j Hj.
  assert (Hne : swing_row on refgen <> Some (nth j on 0)).
  { rewrite Href. unfold swing_row. intros Heq. inversion Heq as [Heq'].
    assert (Hnd : NoDup (r0 :: others)) by (rewrite <- Href; apply find_NoDup).
    assert (r0 = j).
    { apply (NoDup_nth_inj (gens_on_NoDup (gen t))); fold on; auto.
      - apply refgen_lt. rewrite Href. left; reflexivity.
      - apply refgen_lt. rewrite Href. right; exact Hj. }
    subst j. inversion Hnd; contradiction. }
  specialize (HP _ Hne).
  destruct (nth_error (map (@PG F) (gen t)) (nth j on 0)) as [p|] eqn:Hp.
  - apply nth_error_nth with (d := f0) in HP.
    apply nth_error_nth with (d := f0) in Hp. congruence.
  - rewrite !nth_overflow; [reflexivity| |].
    + apply nth_error_None. exact Hp.
    + apply nth_error_None. exact HP.
Qed.
End Rows.

(** ** What a run reads *)

Section Inputs.
Context {F : Type} `{Num F} `{Libm F}.
Local Open Scope num_scope.

Lemma Forall2_map_eq {R Y} (P : R -> R -> Prop) (c : R -> Y) l l' :
  Forall2 P l l' -> (forall r r', P r r' -> c r' = c r) ->
  map c l' = map c l.
Proof.
  intros HF Hc. induction HF as [|r r' l l' Hrr HF IH]; simpl;
    [reflexivity|].
  rewrite IH, (Hc _ _ Hrr). reflexivity.
Qed.

Lemma frames_same_inputs (t t' : tables F) :
  Forall2 bus_frame (bus t) (bus t') ->
  Forall2 gen_frame (gen t) (gen t') ->
  Forall2 branch_frame (branch t) (branch t') ->
  same_inputs t t'.
Proof.
  intros Hb Hg Hr. unfold same_inputs.
  split; [symmetry; eapply Forall2_length_eq; eassumption|].
  split; [apply (Forall2_map_eq (@PD F) Hb); intros r r' Hf; apply Hf|].
  split; [apply (Forall2_map_eq (@QD F) Hb); intros r r' Hf; apply Hf|].
  split; [apply (Forall2_map_eq (@GEN_BUS F) Hg); intros r r' Hf; apply Hf|].
  split; [apply (Forall2_map_eq (@GEN_STATUS F) Hg); intros r r' Hf; apply Hf|].
  split; [apply (Forall2_map_eq (@QMIN F) Hg); intros r r' Hf; apply Hf|].
  split; [apply (Forall2_map_eq (@QMAX F) Hg); intros r r' Hf; apply Hf|].
  split; [apply (Forall2_map_eq (@F_BUS F) Hr); intros r r' Hf; apply Hf|].
  split; [apply (Forall2_map_eq (@T_BUS F) Hr); intros r r' Hf; apply Hf|].
  apply (Forall2_map_eq (@BR_STATUS F) Hr); intros r r' Hf; apply Hf.
Qed.

Lemma gens_on_map (g : list (gen_row F)) :
  gens_on g = find (map (fltb f0) (map (@GEN_STATUS F) g)).
Proof. unfold gens_on. rewrite map_map. reflexivity. Qed.

Lemma branches_in_map (b : list (branch_row F)) :
  branches_in b
  = find (map (fun s => negb (s == f0)) (map (@BR_STATUS F) b)).
Proof. unfold branches_in. rewrite map_map. reflexivity. Qed.

Lemma branches_out_map (b : list (branch_row F)) :
  branches_out b = find (map (fun s => s == f0) (map (@BR_STATUS F) b)).
Proof. unfold branches_out. rewrite map_map. reflexivity. Qed.

Variables (t t' : tables F).
Hypothesis Hsame : same_inputs t t'.

Lemma same_gens_on : gens_on (gen t') = gens_on (gen t).
Proof.
  rewrite !gens_on_map.
  destruct Hsame as (_ & _ & _ & _ & -> & _). reflexivity.
Qed.

Lemma same_gens_bus :
  gens_bus (gen t') (gens_on (gen t')) = gens_bus (gen t) (gens_on (gen t)).
Proof.
  rewrite same_gens_on. unfold gens_bus.
  destruct Hsame as (_ & _ & _ & -> & _). reflexivity.
Qed.

Lemma same_branches_in : branches_in (branch t') = branches_in (branch t).
Proof.
  rewrite !branches_in_map.
  destruct Hsame as (_ & _ & _ & _ & _ & _ & _ & _ & _ & ->). reflexivity.
Qed.

Lemma same_branches_out : branches_out (branch t') = branches_out (branch t).
Proof.
  rewrite !branches_out_map.
  destruct Hsame as (_ & _ & _ & _ & _ & _ & _ & _ & _ & ->). reflexivity.
Qed.

Lemma same_Cg : Cg_of t' = Cg_of t.
Proof.
  unfold Cg_of. rewrite same_gens_bus, same_gens_on.
  destruct Hsame as (-> & _). reflexivity.
Qed.

Lemma same_Cmin : Cmin_of t' = Cmin_of t.
Proof.
  unfold Cmin_of. rewrite same_gens_bus, same_gens_on.
  destruct Hsame as (-> & _ & _ & _ & _ & -> & _). reflexivity.
Qed.

Lemma same_Cmax : Cmax_of t' = Cmax_of t.
Proof.
  unfold Cmax_of. rewrite same_gens_bus, same_gens_on.
  destruct Hsame as (-> & _ & _ & _ & _ & _ & -> & _). reflexivity.
Qed.

Lemma same_Qg_final baseMVA d i :
  Qg_final baseMVA d t' i = Qg_final baseMVA d t i.
Proof.
  unfold Qg_final, Qg_proportional, Qg_equal.
  rewrite same_Cg, same_Cmin, same_Cmax, same_gens_on.
  destruct Hsame as (_ & _ & _ & _ & _ & -> & -> & _). reflexivity.
Qed.

Lemma same_reads Ybus Yf Yt V ref d :
  pfsoln_reads Ybus Yf Yt V ref t d -> pfsoln_reads Ybus Yf Yt V ref t' d.
Proof.
  unfold pfsoln_reads, dispatch_reads.
  rewrite same_gens_bus, same_gens_on, same_branches_in.
  destruct Hsame as (-> & -> & -> & _ & _ & _ & _ & -> & -> & _).
  auto.
Qed.
End Inputs.

(** ** Running again on the tables returned *)

Section Again.
Context {F : Type} `{Num F} `{Libm F}.
Local Open Scope num_scope.

Lemma voltages_twice (vm va : list F) (b : list (bus_row F)) :
  zip_set set_VA va (zip_set set_VM vm
    (zip_set set_VA va (zip_set set_VM vm b)))
  = zip_set set_VA va (zip_set set_VM vm b).
Proof.
  apply nth_error_ext. intros k. rewrite !nth_error_zip_set.
  destruct (nth_error va k), (nth_error vm k), (nth_error b k); reflexivity.
Qed.

Lemma flows_twice (out br : list nat) Z W (b : list (branch_row F)) :
  put set_flows out Z (put set_flows br W
    (put set_flows out Z (put set_flows br W b)))
  = put set_flows out Z (put set_flows br W b).
Proof.
  apply nth_error_ext. intros k.
  rewrite !nth_error_put by apply set_flows_absorbs.
  destruct (nth_error b k) as [r|]; simpl; [|reflexivity].
  destruct (written k out Z), (written k br W); reflexivity.
Qed.

Lemma set_QG_same (r : gen_row F) : set_QG (QG r) r = r.
Proof. destruct r; reflexivity. Qed.

Lemma set_PG_same (r : gen_row F) : set_PG (PG r) r = r.
Proof. destruct r; reflexivity. Qed.

Variables (baseMVA : F) (Ybus Yf Yt : csr (complex F))
          (V : list (complex F)) (ref : Z).
Variables (t : tables F) (d : reads F).
Hypothesis Hd : pfsoln_reads Ybus Yf Yt V ref t d.

Let t' := pfsoln_tables baseMVA ref d t.
Let on := gens_on (gen t).

Lemma returned_run :
  pfsoln baseMVA Ybus Yf Yt V ref t = (Ok t', t').
Proof. apply pfsoln_returns. exists d. auto. Qed.

Lemma returned_same_inputs : same_inputs t t'.
Proof.
  pose proof (pfsoln_frame baseMVA Ybus Yf Yt V ref t) as (Hb & [Hg _] & Hr).
  pose proof (update_bus_voltages_frame V t) as (Hbf & _).
  rewrite <- Hb in Hbf. rewrite returned_run in Hbf, Hg, Hr.
  apply frames_same_inputs; assumption.
Qed.

Lemma returned_anchor_row r0 others :
  gens_ref (gens_bus (gen t) on) ref = r0 :: others ->
  exists r',
    nth_error (gen t') (nth r0 on 0) = Some r' /\
    PG r' = anchor_Pg baseMVA (r_Sg d) (r_Pd d) on r0 others (gen t').
Proof.
  intros Href.
  assert (Hr0 : r0 < length on).
  { apply (refgen_lt ref t). fold on. rewrite Href.
    left; reflexivity. }
  assert (Hk : nth r0 on 0 < length (Qg_table baseMVA d t)).
  { rewrite length_Qg_table. apply gens_on_lt, nth_In, Hr0. }
  destruct (nth_error (Qg_table baseMVA d t) (nth r0 on 0)) as [rq|] eqn:Hrq;
    [|apply nth_error_None in Hrq; lia].
  exists (set_PG (anchor_Pg baseMVA (r_Sg d) (r_Pd d) on r0 others
                    (Qg_table baseMVA d t)) rq).
  split.
  - unfold t', pfsoln_tables. cbn [gen]. fold on. rewrite Href.
    apply swing_table_anchor; auto.
    + apply gens_on_NoDup.
    + rewrite <- Href. apply find_NoDup.
    + intros j Hj. apply (refgen_lt ref t). fold on.
      rewrite Href. exact Hj.
  - cbn [PG set_PG]. unfold anchor_Pg.
    pose proof (returned_others_Pg baseMVA ref t d Href) as Hoth.
    fold t' on in Hoth. rewrite Hoth, Qg_table_PG. reflexivity.
Qed.

Lemma Qg_table_again : Qg_table baseMVA d t' = gen t'.
Proof.
  pose proof returned_same_inputs as Hsame.
  pose proof (same_reads Hsame Hd) as Hd'.
  destruct Hd' as [Hdr' _].
  assert (Hon : gens_on (gen t') = on) by apply (same_gens_on Hsame).
  assert (Hlen : length (gen t') = length (gen t)).
  { destruct Hsame as (_ & _ & _ & Hgb & _).
    rewrite <- (length_map (@GEN_BUS F)), Hgb, length_map. reflexivity. }
  apply nth_error_ext. intros k.
  destruct (nth_error (gen t) k) as [r|] eqn:Hr.
  - destruct (in_dec Nat.eq_dec k on) as [Hin|Hout].
    + apply In_nth with (d := 0) in Hin. destruct Hin as (i & Hi & <-).
      destruct (returned_gen_on baseMVA Hd Hi Hr) as (r' & Hr' & HQ & _).
      fold t' on in Hr'. rewrite Hr'.
      pose proof (Qg_table_on baseMVA Hdr') as Hq.
      rewrite Hon in Hq. rewrite (Hq i r' Hi Hr').
      rewrite (same_Qg_final Hsame), <- HQ, set_QG_same. reflexivity.
    + assert (Hs : (f0 <? GEN_STATUS r) = false).
      { destruct (f0 <? GEN_STATUS r) eqn:Hs; [|reflexivity].
        exfalso. apply Hout. apply gens_on_spec. eauto. }
      pose proof (returned_gen_off baseMVA Hd k Hr Hs) as Hr'.
      fold t' in Hr'. rewrite Hr'.
      pose proof (Qg_table_off baseMVA Hdr') as Hq.
      rewrite Hon in Hq. rewrite (Hq k _ Hout Hr'). reflexivity.
  - assert (Hk : length (gen t) <= k) by (apply nth_error_None; exact Hr).
    assert (H1 : nth_error (gen t') k = None)
      by (apply nth_error_None; lia).
    assert (H2 : nth_error (Qg_table baseMVA d t') k = None).
    { apply nth_error_None. rewrite length_Qg_table. lia. }
    congruence.
Qed.

Lemma swing_table_again :
  swing_table baseMVA (r_Sg d) (r_Pd d) on
              (gens_ref (gens_bus (gen t) on) ref) (gen t')
  = gen t'.
Proof.
  destruct (gens_ref (gens_bus (gen t) on) ref) as [|r0 others] eqn:Href;
    [reflexivity|].
  destruct (returned_anchor_row Href) as (r' & Hr' & HPG).
  apply nth_error_ext. intros k.
  destruct (Nat.eq_dec k (nth r0 on 0)) as [->|Hne].
  - rewrite (@swing_table_anchor F _ baseMVA (r_Sg d) (r_Pd d)
               on r0 others (gen t') r').
    + rewrite <- HPG, set_PG_same, Hr'. reflexivity.
    + apply gens_on_NoDup.
    + rewrite <- Href. apply find_NoDup.
    + intros j Hj. apply (refgen_lt ref t). fold on.
      rewrite Href. exact Hj.
    + exact Hr'.
  - apply swing_table_other. unfold swing_row. congruence.
Qed.

(** The tables returned are a fixed point of the run. *)
Lemma pfsoln_tables_again : pfsoln_tables baseMVA ref d t' = t'.
Proof.
  pose proof returned_same_inputs as Hsame.
  unfold pfsoln_tables at 1.
  rewrite (same_gens_bus Hsame), (same_gens_on Hsame),
    (same_branches_in Hsame), (same_branches_out Hsame).
  fold on. rewrite Qg_table_again, swing_table_again.
  unfold t' at 1 3. unfold pfsoln_tables. cbn [bus branch].
  rewrite voltages_twice.
  unfold zero_flows, write_flows. rewrite flows_twice.
  reflexivity.
Qed.
End Again.

(** ** The share of one generator *)

Lemma existsb_find mask i :
  existsb (Nat.eqb i) (find mask) = nth i mask false.
Proof.
  destruct (nth i mask false) eqn:Hn.
  - apply existsb_exists. exists i. split; [|apply Nat.eqb_refl].
    apply find_spec.
    destruct (Nat.lt_ge_cases i (length mask)) as [Hi|Hi].
    + rewrite (nth_error_nth_iff mask false Hi), Hn. reflexivity.
    + rewrite nth_overflow in Hn by exact Hi. discriminate.
  - destruct (existsb (Nat.eqb i) (find mask)) eqn:He; [|reflexivity].
    apply existsb_exists in He. destruct He as [j [Hj Hij]].
    apply Nat.eqb_eq in Hij. subst j. apply find_spec in Hj.
    apply nth_error_nth with (d := false) in Hj. congruence.
Qed.

Section Share.
Context {F : Type} `{Num F} `{Libm F}.
Local Open Scope num_scope.

Lemma matvec_one_per_row (data : list F) cols nb x i dd j :
  nth_error data i = Some dd -> nth_error cols i = Some j ->
  nth i (matvec f0 fadd fmul (one_per_row data cols nb) x) f0
  = f0 + dd * nth (Z.to_nat j) x f0.
Proof.
  intros Hdd Hj. apply nth_error_nth. unfold matvec, one_per_row. simpl.
  rewrite nth_error_map, nth_error_map2, Hdd, Hj. reflexivity.
Qed.

Variables (baseMVA : F) (Ybus : csr (complex F)) (V : list (complex F)).
Variables (t : tables F) (d : reads F).
Hypothesis Hd : dispatch_reads Ybus V t d.

Let on := gens_on (gen t).
Let gbus := gens_bus (gen t) on.

Lemma gbus_at i r :
  i < length on -> nth_error (gen t) (nth i on 0) = Some r ->
  nth_error gbus i = Some (fint (GEN_BUS r)).
Proof.
  intros Hi Hr. unfold gbus, gens_bus, take.
  rewrite !nth_error_map, (nth_error_nth_iff on 0 Hi). simpl.
  do 2 f_equal. apply nth_error_nth.
  rewrite nth_error_map, Hr. reflexivity.
Qed.

Lemma matvec_Cg x i r :
  i < length on -> nth_error (gen t) (nth i on 0) = Some r ->
  nth i (matvec f0 fadd fmul (Cg_of t) x) f0
  = at_bus (Z.to_nat (fint (GEN_BUS r))) x.
Proof.
  intros Hi Hr. unfold Cg_of, at_bus. fold on. fold gbus.
  apply matvec_one_per_row; [|apply gbus_at; assumption].
  rewrite <- (repeat_length f1 (length on)) in Hi.
  rewrite (nth_error_nth_iff _ f1 Hi), nth_repeat. reflexivity.
Qed.

Lemma Qg_required_at i r :
  i < length on -> nth_error (gen t) (nth i on 0) = Some r ->
  nth i (Qg_required baseMVA d) f0
  = bus_required baseMVA Ybus V t (fint (GEN_BUS r)).
Proof.
  intros Hi Hr.
  pose proof (gbus_at Hi Hr) as Hb.
  destruct Hd as (_ & _ & HSg & HQd & _).
  fold on in HSg, HQd. fold gbus in HSg, HQd.
  assert (HS' := HSg).
  eapply injection_nth in HS'; [|exact Hb|exact Hb].
  destruct HS' as (S & HS & HSn).
  destruct (res_map_nth _ _ _ HQd Hb) as (qd & Hqn & Hqd).
  unfold bus_required. rewrite HS, Hqd.
  unfold Qg_required, bus_Qg. apply nth_error_nth.
  rewrite nth_error_map2, nth_error_map, HSn, Hqn. reflexivity.
Qed.


(** With more than one generator on, the reactive output of [on[i]] is the
    share of its bus and limits. *)
Lemma Qg_final_share i r :
  1 < length on -> i < length on ->
  nth_error (gen t) (nth i on 0) = Some r ->
  Qg_final baseMVA d t i
  = share baseMVA Ybus V d t (fint (GEN_BUS r)) (QMIN r) (QMAX r).
Proof.
  intros Hmany Hi Hr. unfold Qg_final, share. fold on.
  apply Nat.ltb_lt in Hmany. rewrite Hmany.
  unfold zero_range. rewrite existsb_find.
  assert (Hmask : forall x y,
             nth i (map2 feqb (matvec f0 fadd fmul (Cg_of t) x)
                              (matvec f0 fadd fmul (Cg_of t) y)) false
             = (at_bus (Z.to_nat (fint (GEN_BUS r))) x
                == at_bus (Z.to_nat (fint (GEN_BUS r))) y)).
  { intros x y.
    rewrite nth_map2 with (da := f0) (db := f0)
      by (rewrite length_matvec, (length_rows_Cg t); exact Hi).
    rewrite !(matvec_Cg _ Hi Hr). reflexivity. }
  rewrite Hmask.
  destruct (_ == _).
  - unfold Qg_equal, ngg.
    rewrite nth_map2 with (da := f0) (db := f0).
    + rewrite (Qg_required_at Hi Hr), (matvec_Cg _ Hi Hr). reflexivity.
    + rewrite (length_Qg_required baseMVA Hd). exact Hi.
    + rewrite length_matvec, (length_rows_Cg t). exact Hi.
  - unfold Qg_proportional. fold on.
    assert (Hq : forall (c : gen_row F -> F),
               nth i (take f0 (map c (gen t)) on) f0 = c r).
    { intros c. rewrite nth_take by exact Hi. apply nth_error_nth.
      rewrite nth_error_map, Hr. reflexivity. }
    rewrite nth_map2 with (da := f0) (db := f0).
    + rewrite nth_map2 with (da := f0) (db := f0).
      * rewrite nth_map2 with (da := f0) (db := f0)
          by (rewrite length_take; exact Hi).
        rewrite !Hq, (matvec_Cg _ Hi Hr). reflexivity.
      * rewrite length_matvec, (length_rows_Cg t). exact Hi.
      * rewrite length_map2, !length_take. lia.
    + rewrite length_take. exact Hi.
    + rewrite !length_map2, length_matvec, (length_rows_Cg t), !length_take.
      fold on. lia.
Qed.
End Share.

(** ** Exact arithmetic: sums over the generators of a bus *)

Section ExactSums.
Local Open Scope Qc_scope.

Lemma exact_ops (a b : Qc) :
  fadd a b = a + b /\ fsub a b = a - b /\ fmul a b = a * b /\
  fdiv a b = a / b /\ (@f0 Qc _) = 0 /\ (@f1 Qc _) = 1.
Proof. repeat split. Qed.

Lemma Qc_eqb_true (a b : Qc) : feqb a b = true <-> a = b.
Proof.
  cbn [feqb exact]. unfold Qc_eq_bool.
  destruct (Qc_eq_dec a b); split; congruence.
Qed.

Lemma Qc_eqb_false (a b : Qc) : feqb a b = false <-> a <> b.
Proof.
  cbn [feqb exact]. unfold Qc_eq_bool.
  destruct (Qc_eq_dec a b); split; congruence.
Qed.

Lemma at_bus_exact b (x : list Qc) : at_bus b x = nth b x 0.
Proof. unfold at_bus. cbn [fadd fmul f0 f1 exact]. ring. Qed.

Lemma nth_upd_col (y : list Qc) j f b :
  nth b (upd j f y) 0 =
  if Nat.eqb b j && Nat.ltb j (length y) then f (nth b y 0) else nth b y 0.
Proof.
  destruct (Nat.ltb_spec j (length y)) as [Hj|Hj].
  - rewrite andb_true_r.
    destruct (Nat.eqb_spec b j) as [->|Hne].
    + apply nth_error_nth. rewrite nth_error_upd, Nat.eqb_refl.
      rewrite (nth_error_nth_iff y 0 Hj). reflexivity.
    + destruct (Nat.lt_ge_cases b (length y)) as [Hb|Hb].
      * apply nth_error_nth. rewrite nth_error_upd.
        destruct (Nat.eqb_spec b j); [contradiction|].
        apply nth_error_nth_iff. exact Hb.
      * rewrite !nth_overflow; [reflexivity|exact Hb|].
        rewrite length_upd. exact Hb.
  - rewrite andb_false_r.
    destruct (Nat.lt_ge_cases b (length y)) as [Hb|Hb].
    + apply nth_error_nth. rewrite nth_error_upd.
      destruct (Nat.eqb_spec b j) as [->|]; [lia|].
      apply nth_error_nth_iff. exact Hb.
    + rewrite !nth_overflow; [reflexivity|exact Hb|].
      rewrite length_upd. exact Hb.
Qed.

Lemma length_tmatvec_from (y : list Qc) rs x :
  length (tmatvec_from Qcplus Qcmult y rs x) = length y.
Proof.
  revert y x; induction rs as [|row rs IH]; intros y [|xi x]; simpl; auto.
  rewrite IH. unfold scatter_row.
  revert y. induction row as [|e row IHr]; intros y; simpl; auto.
  rewrite IHr. apply length_upd.
Qed.

Lemma in_range_to_nat nb j bz :
  in_range nb j = true -> in_range nb bz = true ->
  Nat.eqb (Z.to_nat bz) (Z.to_nat j) = Z.eqb j bz.
Proof.
  unfold in_range. intros Hj Hb.
  apply andb_true_iff in Hj. apply andb_true_iff in Hb.
  destruct Hj as [Hj1 Hj2]. destruct Hb as [Hb1 Hb2].
  apply Z.leb_le in Hj1, Hb1. apply Z.ltb_lt in Hj2, Hb2.
  destruct (Z.eqb_spec j bz) as [->|Hne].
  - apply Nat.eqb_refl.
  - apply Nat.eqb_neq. lia.
Qed.

(** [M.T * x] for a matrix with one entry per row, column by column. *)
Lemma tmatvec_from_one_per_row nb bz data cols x (y : list Qc) :
  forallb (in_range nb) cols = true -> in_range nb bz = true ->
  length y = nb ->
  nth (Z.to_nat bz)
      (tmatvec_from Qcplus Qcmult y
         (map2 (fun d j => [(Z.to_nat j, d)]) data cols) x) 0
  = nth (Z.to_nat bz) y 0 + sum_at bz cols (map2 Qcmult data x).
Proof.
  intros Hcols Hbz. revert cols x y Hcols.
  induction data as [|dd data IH]; intros [|j cols] [|xi x] y Hcols Hy;
    cbn [map2 tmatvec_from sum_at scatter_row fold_left fst snd];
    try (cbn [f0 exact]; ring).
  - simpl in Hcols. apply andb_true_iff in Hcols. destruct Hcols as [Hj Hcols].
    rewrite IH by (auto; rewrite length_upd; exact Hy).
    rewrite nth_upd_col, (in_range_to_nat _ _ _ Hj Hbz).
    assert (Hlt : Nat.ltb (Z.to_nat j) (length y) = true).
    { apply Nat.ltb_lt. unfold in_range in Hj.
      apply andb_true_iff in Hj. destruct Hj as [Hj1 Hj2].
      apply Z.leb_le in Hj1. apply Z.ltb_lt in Hj2. lia. }
    rewrite Hlt, andb_true_r.
    destruct (Z.eqb j bz); cbn [fadd exact]; ring.
Qed.

Lemma map2_mul_ones_r (data : list Qc) n :
  (length data <= n)%nat -> map2 Qcmult data (repeat 1 n) = data.
Proof.
  revert n; induction data as [|dd data IH]; intros [|n] Hl; simpl in *;
    try lia; auto.
  rewrite IH by lia. f_equal. ring.
Qed.

Lemma map2_mul_ones_l (x : list Qc) n :
  (length x <= n)%nat -> map2 Qcmult (repeat 1 n) x = x.
Proof.
  revert n; induction x as [|xi x IH]; intros [|n] Hl; simpl in *;
    try lia; auto.
  rewrite IH by lia. f_equal. ring.
Qed.

Lemma nth_repeat_zero n b : nth b (repeat (0 : Qc) n) 0 = 0.
Proof. apply nth_repeat. Qed.

Lemma colsum_one_per_row nb bz data cols :
  forallb (in_range nb) cols = true -> in_range nb bz = true ->
  length data = length cols ->
  nth (Z.to_nat bz) (colsum (one_per_row data cols nb)) 0
  = sum_at bz cols data.
Proof.
  intros Hcols Hbz Hl. unfold colsum, tmatvec, one_per_row.
  cbn [rows ncols fadd fmul f0 f1 exact].
  rewrite tmatvec_from_one_per_row with (nb := nb)
    by (auto; apply repeat_length).
  rewrite nth_repeat_zero, length_map2, map2_mul_ones_r by lia.
  cbn [f0 exact]. ring.
Qed.

Lemma tmatvec_Cg nb bz cols x n :
  forallb (in_range nb) cols = true -> in_range nb bz = true ->
  (length x <= n)%nat ->
  nth (Z.to_nat bz)
      (tmatvec f0 fadd fmul (one_per_row (repeat f1 n) cols nb) x) 0
  = sum_at bz cols x.
Proof.
  intros Hcols Hbz Hl. unfold tmatvec, one_per_row.
  cbn [rows ncols fadd fmul f0 f1 exact].
  rewrite tmatvec_from_one_per_row with (nb := nb)
    by (auto; apply repeat_length).
  rewrite nth_repeat_zero, map2_mul_ones_l by lia.
  cbn [f0 exact]. ring.
Qed.


Lemma sum_at_const bz keys (x : list Qc) c :
  length x = length keys ->
  (forall i, nth_error keys i = Some bz -> nth i x 0 = c) ->
  sum_at bz keys x = sum_at bz keys (repeat 1 (length keys)) * c.
Proof.
  revert x; induction keys as [|k keys IH]; intros [|v x] Hx He;
    simpl in *; try lia; cbn [f0 fadd exact]; try ring.
  assert (Hrest : sum_at bz keys x
                  = sum_at bz keys (repeat 1 (length keys)) * c).
  { apply IH; try lia. intros i Hi. apply (He (S i)). exact Hi. }
  destruct (Z.eqb_spec k bz) as [->|Hne]; [|exact Hrest].
  rewrite Hrest, (He 0%nat eq_refl). cbn [fadd exact]. ring.
Qed.


Lemma sum_at_ones_nonneg bz keys n :
  0 <= sum_at bz keys (repeat 1 n).
Proof.
  revert n; induction keys as [|k keys IH]; intros [|n]; simpl;
    try apply Qcle_refl.
  destruct (Z.eqb k bz); [|apply IH].
  cbn [fadd exact].
  apply Qcle_trans with (0 + 0); [rewrite Qcplus_0_r; apply Qcle_refl|].
  apply Qcplus_le_compat; [discriminate|apply IH].
Qed.

Lemma sum_at_ones_pos bz keys n i :
  nth_error keys i = Some bz -> (i < n)%nat ->
  sum_at bz keys (repeat 1 n) <> 0.
Proof.
  revert n i; induction keys as [|k keys IH]; intros [|n] [|i] Hi Hn;
    simpl in *; try discriminate; try lia.
  - inversion Hi; subst. rewrite Z.eqb_refl. cbn [fadd exact].
    intros Hz.
    pose proof (sum_at_ones_nonneg bz keys n) as Hnn.
    assert (Hlt : 0 < 1 + sum_at bz keys (repeat 1 n)).
    { apply Qclt_le_trans with (1 + 0); [reflexivity|].
      apply Qcplus_le_compat; [apply Qcle_refl|exact Hnn]. }
    rewrite Hz in Hlt. discriminate.
  - destruct (Z.eqb k bz).
    + cbn [fadd exact]. intros Hz.
      pose proof (sum_at_ones_nonneg bz keys n) as Hnn.
      assert (Hlt : 0 < 1 + sum_at bz keys (repeat 1 n)).
      { apply Qclt_le_trans with (1 + 0); [reflexivity|].
        apply Qcplus_le_compat; [apply Qcle_refl|exact Hnn]. }
      rewrite Hz in Hlt. discriminate.
    + apply (IH n i); [exact Hi|lia].
Qed.
End ExactSums.

(** ** Exact arithmetic: the reactive balance of a bus *)

Section ExactBalance.
Context {L : Libm Qc}.
Local Open Scope Qc_scope.

Variables (baseMVA : Qc) (Ybus Yf Yt : csr (complex Qc))
          (V : list (complex Qc)) (ref : Z).
Variables (t : tables Qc) (d : reads Qc).
Hypothesis Hd : pfsoln_reads Ybus Yf Yt V ref t d.

Let on := gens_on (gen t).
Let gbus := gens_bus (gen t) on.
Let nb := length (bus t).
Let t' := pfsoln_tables baseMVA ref d t.

Variables (bz : Z) (i0 : nat).
Hypothesis Hhost : nth_error gbus i0 = Some bz.

Let Qmin_on := take 0 (map (@QMIN Qc) (gen t)) on.
Let Qmax_on := take 0 (map (@QMAX Qc) (gen t)) on.
Let A := sum_at bz gbus Qmin_on.
Let B := sum_at bz gbus Qmax_on.
Let N := sum_at bz gbus (repeat 1 (length on)).
Let R := bus_required baseMVA Ybus V t bz.
Let Qg_on := take 0 (map (@QG Qc) (gen t')) on.

Lemma length_gbus : length gbus = length on.
Proof. apply length_gens_bus. Qed.

Lemma host_lt : (i0 < length on)%nat.
Proof.
  rewrite <- length_gbus. apply nth_error_Some. rewrite Hhost. discriminate.
Qed.

Lemma member_row i :
  nth_error gbus i = Some bz ->
  (i < length on)%nat /\
  exists r, nth_error (gen t) (nth i on 0%nat) = Some r /\
            fint (GEN_BUS r) = bz.
Proof.
  intros Hi.
  assert (Hlt : (i < length on)%nat).
  { rewrite <- length_gbus. apply nth_error_Some. rewrite Hi. discriminate. }
  split; [exact Hlt|].
  assert (Hk : (nth i on 0 < length (gen t))%nat)
    by (apply gens_on_lt, nth_In, Hlt).
  destruct (nth_error (gen t) (nth i on 0%nat)) as [r|] eqn:Hr;
    [|apply nth_error_None in Hr; lia].
  exists r. split; [reflexivity|].
  pose proof (gbus_at t Hlt Hr) as Hg. fold on in Hg. fold gbus in Hg.
  congruence.
Qed.




Hypothesis Hmany : (1 < length on)%nat.

Lemma gbus_in_range : forallb (in_range nb) gbus = true.
Proof. destruct Hd as [(_ & _ & _ & _ & Hr) _]. apply Hr. exact Hmany. Qed.

Lemma bz_in_range : in_range nb bz = true.
Proof.
  pose proof gbus_in_range as Hr. rewrite forallb_forall in Hr.
  apply Hr. eapply nth_error_In. exact Hhost.
Qed.

Lemma at_bus_Cg : at_bus (Z.to_nat bz) (colsum (Cg_of t)) = N.
Proof.
  rewrite at_bus_exact. unfold Cg_of. fold on. fold gbus. fold nb.
  apply colsum_one_per_row.
  - apply gbus_in_range.
  - apply bz_in_range.
  - rewrite repeat_length, length_gbus. reflexivity.
Qed.

Lemma at_bus_Cmin : at_bus (Z.to_nat bz) (colsum (Cmin_of t)) = A.
Proof.
  rewrite at_bus_exact. unfold Cmin_of. fold on. fold gbus. fold nb.
  apply colsum_one_per_row.
  - apply gbus_in_range.
  - apply bz_in_range.
  - rewrite length_take, length_gbus. reflexivity.
Qed.

Lemma at_bus_Cmax : at_bus (Z.to_nat bz) (colsum (Cmax_of t)) = B.
Proof.
  rewrite at_bus_exact. unfold Cmax_of. fold on. fold gbus. fold nb.
  apply colsum_one_per_row.
  - apply gbus_in_range.
  - apply bz_in_range.
  - rewrite length_take, length_gbus. reflexivity.
Qed.

Lemma N_nonzero : N <> 0.
Proof. eapply sum_at_ones_pos; [exact Hhost|apply host_lt]. Qed.

Lemma Qg_equal_member i :
  nth_error gbus i = Some bz -> nth i (Qg_equal baseMVA d t) 0 = R / N.
Proof.
  intros Hi. destruct (member_row _ Hi) as (Hil & r & Hr & Hb).
  destruct Hd as [Hdr _].
  unfold Qg_equal, ngg.
  rewrite nth_map2 with (da := @f0 Qc exact) (db := @f0 Qc exact).
  - rewrite (Qg_required_at baseMVA Hdr Hil Hr).
    rewrite (matvec_Cg t _ Hil Hr), Hb, at_bus_Cg. reflexivity.
  - rewrite (length_Qg_required baseMVA Hdr). exact Hil.
  - rewrite length_matvec, (length_rows_Cg t). exact Hil.
Qed.

Lemma Qg_tot_bus :
  nth (Z.to_nat bz)
      (tmatvec f0 fadd fmul (Cg_of t) (Qg_equal baseMVA d t)) 0 = R.
Proof.
  destruct Hd as [Hdr _].
  unfold Cg_of. fold on. fold gbus. fold nb.
  rewrite tmatvec_Cg.
  - rewrite sum_at_const with (c := R / N).
    + rewrite length_gbus. fold N. field. apply N_nonzero.
    + rewrite (length_Qg_equal baseMVA Hdr), length_gbus. reflexivity.
    + apply Qg_equal_member.
  - apply gbus_in_range.
  - apply bz_in_range.
  - rewrite (length_Qg_equal baseMVA Hdr). apply Nat.le_refl.
Qed.

Lemma bz_lt_nb : (Z.to_nat bz < nb)%nat.
Proof.
  pose proof bz_in_range as Hr. unfold in_range in Hr.
  apply andb_true_iff in Hr. destruct Hr as [H1 H2].
  apply Z.leb_le in H1. apply Z.ltb_lt in H2. lia.
Qed.

Lemma length_colsum (M : csr Qc) : length (colsum M) = ncols M.
Proof.
  unfold colsum, tmatvec. rewrite length_tmatvec_from. apply repeat_length.
Qed.

Lemma fraction_bus :
  at_bus (Z.to_nat bz)
         (range_fraction (Cg_of t) (Cmin_of t) (Cmax_of t)
                         (Qg_equal baseMVA d t))
  = (R - A) / (B - A + EPS).
Proof.
  rewrite at_bus_exact. unfold range_fraction.
  pose proof bz_lt_nb as Hb.
  assert (Hl1 : length (tmatvec f0 fadd fmul (Cg_of t) (Qg_equal baseMVA d t))
                = nb).
  { unfold tmatvec. cbn [f0 fadd fmul exact].
    rewrite length_tmatvec_from. apply repeat_length. }
  assert (Hl2 : length (colsum (Cmin_of t)) = nb) by apply length_colsum.
  assert (Hl3 : length (colsum (Cmax_of t)) = nb) by apply length_colsum.
  rewrite nth_map2 with (da := 0) (db := 0).
  - rewrite nth_map2 with (da := 0) (db := 0) by lia.
    rewrite Qg_tot_bus.
    rewrite <- at_bus_exact, at_bus_Cmin.
    rewrite nth_map_lt with (d' := 0) by (rewrite length_map2; lia).
    rewrite nth_map2 with (da := 0) (db := 0) by lia.
    rewrite <- !at_bus_exact, at_bus_Cmin, at_bus_Cmax. reflexivity.
  - rewrite length_map2. lia.
  - rewrite length_map, length_map2. lia.
Qed.

Lemma share_member r :
  fint (GEN_BUS r) = bz ->
  share baseMVA Ybus V d t (fint (GEN_BUS r)) (QMIN r) (QMAX r)
  = if Qc_eq_bool A B then R / N
    else QMIN r + (R - A) / (B - A + EPS) * (QMAX r - QMIN r).
Proof.
  intros Hb. unfold share. rewrite Hb.
  rewrite at_bus_Cmin, at_bus_Cmax, at_bus_Cg, fraction_bus. reflexivity.
Qed.


End ExactBalance.

(** ** Counting the generators of a bus *)

Section HeadCount.
Local Open Scope Qc_scope.

Lemma Qc_of_nat_succ (c : nat) :
  Q2Qc (inject_Z (Z.of_nat (S c))) = 1 + Q2Qc (inject_Z (Z.of_nat c)).
Proof.
  apply Qc_is_canon. unfold Qcplus, Q2Qc. cbn [this].
  rewrite !Qred_correct.
  rewrite Nat2Z.inj_succ, <- Z.add_1_l, inject_Z_plus. reflexivity.
Qed.

(** Summing ones over the generators of a bus counts them. *)
Lemma sum_at_ones_count bz keys n :
  (length keys <= n)%nat ->
  sum_at bz keys (repeat (1 : Qc) n)
  = Q2Qc (inject_Z (Z.of_nat (count_occ Z.eq_dec keys bz))).
Proof.
  revert n. induction keys as [|k keys IH]; intros n Hn; simpl.
  - reflexivity.
  - destruct n as [|n]; simpl in *; [lia|].
    rewrite (IH n) by lia.
    destruct (Z.eqb_spec k bz) as [->|Hne].
    + destruct (Z.eq_dec bz bz) as [_|Hc]; [|contradiction].
      rewrite Qc_of_nat_succ. reflexivity.
    + destruct (Z.eq_dec k bz) as [Hc|_]; [contradiction|]. reflexivity.
Qed.
End HeadCount.

(** * The claims *)

(** The two-bus case runs to the tables written out above. *)
Lemma two_bus_run :
  pfsoln 100%float Cases.two_bus_Ybus Cases.two_bus_Yf Cases.two_bus_Yt
         Cases.two_bus_V 0%Z Cases.two_bus_case
  = (Ok Cases.two_bus_out, Cases.two_bus_out).
Proof. vm_compute. reflexivity. Defined.

(** ** Reactive balance of a bus *)




(** ** Generators left out of the proportional split *)





(** ** The reference bus *)

(** The real output lines 90-94 leave to the anchor, the first generator
    that is on at the reference bus, and to the other generators of that
    bus.  The last part is the balance of the bus, in an arithmetic where
    subtracting and adding back the same amount cancel. *)
Lemma anchor_real_power {F : Type} `{Num F} `{Libm F}
    (baseMVA : F) (Ybus Yf Yt : csr (complex F)) (V : list (complex F))
    (ref : Z) (t t' s : tables F) :
  pfsoln baseMVA Ybus Yf Yt V ref t = (Ok t', s) ->
  let on := gens_on (gen t) in
  exists r0 others v_ref row_ref Pd,
    gens_ref (gens_bus (gen t) on) ref = r0 :: others /\
    np_get V ref = Ok v_ref /\
    np_get (rows Ybus) ref = Ok row_ref /\
    np_get (map (@PD F) (bus t)) ref = Ok Pd /\
    let anchor := nth r0 on 0 in
    let inj := fadd (fmul (real (cmul v_ref (conj (dot c0 cadd cmul row_ref V))))
                          baseMVA) Pd in
    let others_Pg := take f0 (map (@PG F) (gen t)) (take 0 on others) in
    let sum_others := fold_left fadd others_Pg f0 in
    nth anchor (map (@PG F) (gen t')) f0 =
      match others with
      | [] => inj
      | _ :: _ => fsub inj sum_others
      end /\
    take f0 (map (@PG F) (gen t')) (take 0 on others) = others_Pg /\
    ((forall x y, fadd (fsub x y) y = x) -> (forall x, fadd x f0 = x) ->
     fadd (nth anchor (map (@PG F) (gen t')) f0)
          (fold_left fadd (take f0 (map (@PG F) (gen t')) (take 0 on others)) f0)
     = inj).
Proof.
  intros Hrun on. apply pfsoln_returns in Hrun.
  destruct Hrun as (d & Hd & -> & _).
  destruct (gens_ref (gens_bus (gen t) on) ref) as [|r0 others] eqn:Href.
  { destruct Hd as (_ & Hne & _). fold on in Hne. contradiction. }
  destruct (returned_anchor baseMVA Hd Href) as (S & r & r' & HS & Hr & Hr' & HPG).
  pose proof (returned_others_Pg baseMVA ref t d Href) as Hoth.
  fold on in Hr, Hr', HPG, Hoth.
  unfold power in HS.
  destruct (np_get V ref) as [v|] eqn:Hv; [|discriminate]. simpl in HS.
  destruct (np_get (rows Ybus) ref) as [row|] eqn:Hrow; [|discriminate].
  simpl in HS. inversion HS; subst S.
  exists r0, others, v, row, (r_Pd d).
  split; [reflexivity|]. split; [reflexivity|]. split; [reflexivity|].
  split; [apply Hd|].
  assert (Hnth : nth (nth r0 on 0) (map (@PG F) (gen (pfsoln_tables baseMVA ref d t))) f0
                 = PG r').
  { apply nth_error_nth. rewrite nth_error_map, Hr'. reflexivity. }
  cbv zeta. rewrite Hnth, Hoth, HPG.
  split; [destruct others; reflexivity|]. split; [reflexivity|].
  intros Hcancel Hzero. destruct others as [|r1 others].
  - simpl. apply Hzero.
  - apply Hcancel.
Qed.

(** C3, as the code has it.  In every arithmetic, the tables [pfsoln]
    returns have, at the first generator that is on at the reference bus,
    PG = real(V[ref] * conj(Ybus[ref, :] * V)) * baseMVA + PD[ref], less, when
    other generators that are on sit at that bus, the sum of their real
    outputs, taken from 0 and from the left; those outputs are the ones on
    entry.  Over the rationals the anchor and the others together generate
    the injection plus the load.  In double precision they do so up to the
    rounding of the subtraction and of the sum only. *)
Theorem reference_bus_real_power :
  (forall {F : Type} `{Num F} `{Libm F}
      (baseMVA : F) (Ybus Yf Yt : csr (complex F)) (V : list (complex F))
      (ref : Z) (t t' s : tables F),
      pfsoln baseMVA Ybus Yf Yt V ref t = (Ok t', s) ->
      let on := gens_on (gen t) in
      exists r0 others v_ref row_ref Pd,
        gens_ref (gens_bus (gen t) on) ref = r0 :: others /\
        np_get V ref = Ok v_ref /\
        np_get (rows Ybus) ref = Ok row_ref /\
        np_get (map (@PD F) (bus t)) ref = Ok Pd /\
        let anchor := nth r0 on 0 in
        let inj :=
          fadd (fmul (real (cmul v_ref (conj (dot c0 cadd cmul row_ref V))))
                     baseMVA) Pd in
        let others_Pg := take f0 (map (@PG F) (gen t)) (take 0 on others) in
        nth anchor (map (@PG F) (gen t')) f0 =
          match others with
          | [] => inj
          | _ :: _ => fsub inj (fold_left fadd others_Pg f0)
          end /\
        take f0 (map (@PG F) (gen t')) (take 0 on others) = others_Pg) /\
  (forall {L : Libm Qc}
      (baseMVA : Qc) (Ybus Yf Yt : csr (complex Qc)) (V : list (complex Qc))
      (ref : Z) (t t' s : tables Qc),
      pfsoln baseMVA Ybus Yf Yt V ref t = (Ok t', s) ->
      let on := gens_on (gen t) in
      exists r0 others v_ref row_ref Pd,
        gens_ref (gens_bus (gen t) on) ref = r0 :: others /\
        np_get V ref = Ok v_ref /\
        np_get (rows Ybus) ref = Ok row_ref /\
        np_get (map (@PD Qc) (bus t)) ref = Ok Pd /\
        (nth (nth r0 on 0%nat) (map (@PG Qc) (gen t')) 0
         + fold_left Qcplus
             (take 0 (map (@PG Qc) (gen t')) (take 0%nat on others)) 0
         = real (cmul v_ref (conj (dot c0 cadd cmul row_ref V))) * baseMVA
           + Pd)%Qc).
Proof.
  split.
  - intros F HN HL baseMVA Ybus Yf Yt V ref t t' s Hrun on.
    destruct (@anchor_real_power _ _ _ _ _ _ _ _ _ _ _ _ Hrun)
      as (r0 & others & v & row & Pd & Href & Hv & Hrow & HPd & HPG & Hoth & _).
    exists r0, others, v, row, Pd. auto 10.
  - intros L baseMVA Ybus Yf Yt V ref t t' s Hrun on.
    destruct (@anchor_real_power _ _ _ _ _ _ _ _ _ _ _ _ Hrun)
      as (r0 & others & v & row & Pd & Href & Hv & Hrow & HPd & _ & _ & Hbal).
    exists r0, others, v, row, Pd.
    repeat (split; [assumption|]).
    apply Hbal.
    + intros x y. cbn [fadd fsub exact]. ring.
    + intros x. cbn [fadd f0 exact]. ring.
Qed.

(** In double precision, on the two-bus case: 6.25 MW injected and no load
    at bus 0, 20 MW from the other generator, -13.75 MW left to the anchor.
    Over the rationals, on the scenario: the two generators together
    generate what the bus injects and consumes, nothing. *)
Lemma reference_bus_real_power_witness :
  (exists r0 others,
      gens_ref (gens_bus (gen Cases.two_bus_case)
                         (gens_on (gen Cases.two_bus_case))) 0%Z
      = r0 :: others /\
      nth (nth r0 (gens_on (gen Cases.two_bus_case)) 0)
          (map (@PG float) (gen Cases.two_bus_out)) 0%float
      = (-13.75)%float) /\
  (nth 0 (map (@PG Qc) (gen ExactCases.scenario_out)) 0
   + fold_left Qcplus
       (take 0 (map (@PG Qc) (gen ExactCases.scenario_out)) [1%nat]) 0
   = 0)%Qc.
Proof.
  split.
  - destruct (proj1 reference_bus_real_power float _ _ _ _ _ _ _ _ _ _ _
                two_bus_run)
      as (r0 & others & v & row & Pd & Href & Hv & Hrow & HPd & HPG & _).
    exists r0, others. split; [exact Href|].
    vm_compute in Href. inversion Href; subst r0 others.
    vm_compute in Hv. inversion Hv; subst v.
    vm_compute in Hrow. inversion Hrow; subst row.
    vm_compute in HPd. inversion HPd; subst Pd.
    etransitivity; [exact HPG|]. vm_compute. reflexivity.
  - assert (Hrun : pfsoln (ExactCases.q 100 1) ExactCases.one_bus_Ybus
                     ExactCases.no_branch ExactCases.no_branch
                     ExactCases.one_bus_V 0%Z ExactCases.scenario
                   = (Ok ExactCases.scenario_out, ExactCases.scenario_out))
      by (vm_compute; reflexivity).
    destruct (proj2 reference_bus_real_power libm_axes_exact
                _ _ _ _ _ _ _ _ _ Hrun)
      as (r0 & others & v & row & Pd & Href & Hv & Hrow & HPd & Hbal).
    vm_compute in Href. inversion Href; subst r0 others.
    vm_compute in Hv. inversion Hv; subst v.
    vm_compute in Hrow. inversion Hrow; subst row.
    assert (HP : Pd = 0%Qc).
    { vm_compute in HPd. inversion HPd. apply Qc_is_canon. reflexivity. }
    subst Pd.
    etransitivity; [exact Hbal|].
    apply Qc_is_canon. vm_compute. reflexivity.
Defined.

(** Against C3 as stated, in double precision: a load of 1 MW at the
    reference bus, which injects nothing, and 1e16 MW on entry at the other
    generator of the bus.  The anchor is left with 1 - 1e16, which rounds to
    -1e16: together the two generate 0 MW, not the 1 MW the bus consumes. *)
Lemma heavy_neighbour_swallows_load :
  pfsoln 100%float Cases.one_bus_Ybus Cases.no_branch Cases.no_branch
         Cases.one_bus_V 0%Z EdgeCases.heavy_neighbour
  = (Ok EdgeCases.heavy_neighbour_out, EdgeCases.heavy_neighbour_out) /\
  gens_ref (gens_bus (gen EdgeCases.heavy_neighbour)
                     (gens_on (gen EdgeCases.heavy_neighbour))) 0%Z
  = [0; 1] /\
  power Cases.one_bus_Ybus Cases.one_bus_V 0%Z 0%Z
  = Ok (Cx 0%float 0.125%float) /\
  map (@PD float) (bus EdgeCases.heavy_neighbour) = [1%float] /\
  (0 * 100 + 1 = 1)%float /\
  map (@PG float) (gen EdgeCases.heavy_neighbour) = [3; 1e16]%float /\
  map (@PG float) (gen EdgeCases.heavy_neighbour_out) = [-1e16; 1e16]%float /\
  (-1e16 + (0 + 1e16) = 0)%float /\
  close_to 0x1p-3%float 0%float 1%float = false.
Proof. vm_compute. repeat split. Qed.

(** ** No generator at the reference bus *)

(** C4, as the code has it.  When no generator that is on sits at the
    reference bus, [pfsoln] does not return: it ends with one of NumPy's own
    exceptions, never with a ConfigurationError, and without having touched
    the branch table.  When the steps before line 90 succeed, the exception is
    the IndexError of [refgen[0]], and by then the store holds the new bus
    voltages and the new reactive outputs. *)
Theorem no_reference_generator {F : Type} `{Num F} `{Libm F}
    (baseMVA : F) (Ybus Yf Yt : csr (complex F)) (V : list (complex F))
    (ref : Z) (t : tables F) :
  gens_ref (gens_bus (gen t) (gens_on (gen t))) ref = [] ->
  exists e s,
    pfsoln baseMVA Ybus Yf Yt V ref t = (Raise e, s) /\
    e <> ConfigurationError /\
    branch s = branch t /\
    forall d, dispatch_reads Ybus V t d ->
      e = IndexError /\
      s = mk_tables (zip_set set_VA (r_va d) (zip_set set_VM (r_vm d) (bus t)))
                    (Qg_table baseMVA d t) (branch t).
Proof.
  intros Href.
  destruct (pfsoln baseMVA Ybus Yf Yt V ref t) as [[t'|e] s] eqn:E.
  { apply pfsoln_returns in E. destruct E as (d & (_ & Hne & _) & _).
    contradiction. }
  exists e, s. split; [reflexivity|].
  split.
  { destruct (pfsoln_raises _ _ _ _ _ _ _ E) as [->| ->]; discriminate. }
  rewrite pfsoln_unfold in E.
  split.
  - apply bind_raise in E. destruct E as [E|(u1 & t1 & E1 & E)].
    { pose proof (update_bus_voltages_frame V t) as (_ & _ & Hr).
      rewrite E in Hr. exact Hr. }
    pose proof (update_bus_voltages_frame V t) as (_ & Hg1 & Hr1).
    rewrite E1 in Hg1, Hr1. simpl in Hg1, Hr1.
    apply bind_raise in E. destruct E as [E|(t0 & t2 & Hg & E)];
      [discriminate|].
    apply get_ok in Hg. destruct Hg as [-> ->].
    apply bind_raise in E. destruct E as [E|(u2 & t3 & E2 & E)].
    + pose proof (dispatch_frame baseMVA Ybus V ref t1 t1) as (_ & Hr & _).
      rewrite E in Hr. simpl in Hr. congruence.
    + apply dispatch_needs_ref in E2. rewrite Hg1 in E2. contradiction.
  - intros d Hd.
    destruct (dispatch_Q_runs baseMVA ref Hd) as [E1 E2].
    rewrite (bind_run _ _ _ E1) in E.
    unfold bind at 1, get at 1 in E.
    unfold bind at 1 in E. rewrite E2, Href in E.
    unfold update_Pg_swing, lift in E.
    inversion E; subst. split; reflexivity.
Qed.

(** On the two-bus case with bus 1 as reference, where no generator is on:
    the run stops with an IndexError, the reactive outputs already
    rewritten, the branch flows still stale. *)
Lemma no_reference_generator_witness :
  exists e s,
    pfsoln 100%float Cases.two_bus_Ybus Cases.two_bus_Yf Cases.two_bus_Yt
           Cases.two_bus_V 1%Z Cases.two_bus_case = (Raise e, s) /\
    e <> ConfigurationError /\
    branch s = branch Cases.two_bus_case.
Proof.
  assert (Href : gens_ref (gens_bus (gen Cases.two_bus_case)
                             (gens_on (gen Cases.two_bus_case))) 1%Z = [])
    by reflexivity.
  destruct (no_reference_generator 100%float Cases.two_bus_Ybus
              Cases.two_bus_Yf Cases.two_bus_Yt Cases.two_bus_V 1%Z
              Cases.two_bus_case Href) as (e & s & Hrun & He & Hbr & _).
  exists e, s. auto.
Defined.

(** Against C4 as stated: the exception of that run is an IndexError, not a
    ConfigurationError. *)
Lemma no_reference_generator_index_error :
  pfsoln 100%float Cases.two_bus_Ybus Cases.two_bus_Yf Cases.two_bus_Yt
         Cases.two_bus_V 1%Z Cases.two_bus_case
  = (Raise IndexError, Cases.two_bus_stopped) /\
  gens_ref (gens_bus (gen Cases.two_bus_case)
                     (gens_on (gen Cases.two_bus_case))) 1%Z = [] /\
  fst (pfsoln 100%float Cases.two_bus_Ybus Cases.two_bus_Yf Cases.two_bus_Yt
              Cases.two_bus_V 1%Z Cases.two_bus_case)
  <> Raise ConfigurationError.
Proof.
  split; [vm_compute; reflexivity|]. split; [reflexivity|].
  vm_compute. discriminate.
Qed.

(** ** Bus voltages *)

Lemma zip_set_repeat {R X} (set : X -> R -> R) v (t : list R) :
  zip_set set (repeat v (length t)) t = map (set v) t.
Proof. induction t as [|r t IH]; simpl; [reflexivity|]. rewrite IH. reflexivity. Qed.

Lemma broadcast_single {X} (v : X) n : broadcast n [v] = Ok (repeat v n).
Proof.
  unfold broadcast. cbn [length].
  destruct (Nat.eqb_spec 1 n) as [<-|]; reflexivity.
Qed.

Lemma broadcast_mismatch {X} (vals : list X) n :
  length vals <> n -> length vals <> 1 -> broadcast n vals = Raise ValueError.
Proof.
  intros Hn H1. unfold broadcast.
  destruct (Nat.eqb_spec (length vals) n); [contradiction|].
  destruct vals as [|v [|w vals]]; simpl in *; congruence.
Qed.

(** C5, as the code has it.  For a voltage vector with one entry per bus,
    lines 40-41 raise nothing and change the bus table only, and in the store
    [pfsoln] leaves, however it ends, row [i] of the bus table has
    VM = abs(V[i]) and VA = angle(V[i]) * 180 / pi, with [angle] the
    two-argument arctangent of the imaginary and real parts, and its other
    columns as they were.  A vector of another length makes line 40 raise a
    ValueError before anything is written, unless it has a single entry,
    which NumPy writes to every bus. *)
Theorem bus_voltages_updated {F : Type} `{Num F} `{Libm F}
    (baseMVA : F) (Ybus Yf Yt : csr (complex F)) (V : list (complex F))
    (ref : Z) (t : tables F) :
  let s := snd (pfsoln baseMVA Ybus Yf Yt V ref t) in
  let written v r :=
    mk_bus (hypot (real v) (imag v))
           (fdiv (fmul (arctan2 (imag v) (real v)) f180) fpi)
           (PD r) (QD r) (bus_rest r) in
  (length V = length (bus t) ->
   update_bus_voltages V t = (Ok tt, with_bus (voltages_written V (bus t)) t) /\
   bus s = voltages_written V (bus t) /\
   forall i v r,
     nth_error V i = Some v -> nth_error (bus t) i = Some r ->
     nth_error (bus s) i = Some (written v r)) /\
  (length V <> length (bus t) -> length V <> 1 ->
   pfsoln baseMVA Ybus Yf Yt V ref t = (Raise ValueError, t)) /\
  (forall v, V = [v] -> bus s = map (written v) (bus t)).
Proof.
  intros s written.
  assert (Hbus : bus s = bus (snd (update_bus_voltages V t))).
  { subst s. apply pfsoln_frame. }
  split; [|split].
  - intros Hlen.
    assert (Hrun : update_bus_voltages V t
                   = (Ok tt, with_bus (voltages_written V (bus t)) t)).
    { apply update_bus_voltages_ok.
      exists (map cabs V), (map (fun v => fdiv (fmul (angle v) f180) fpi) V).
      split; [|split; [|reflexivity]];
        apply broadcast_same; rewrite length_map; exact Hlen. }
    rewrite Hrun in Hbus. simpl in Hbus.
    split; [exact Hrun|split; [exact Hbus|]].
    intros i v r Hv Hr. rewrite Hbus. unfold voltages_written.
    rewrite !nth_error_zip_set, !nth_error_map, Hv, Hr. reflexivity.
  - intros Hlen Hone.
    assert (Hraise : update_bus_voltages V t = (Raise ValueError, t)).
    { unfold update_bus_voltages, bind, get, lift, assign_column. simpl.
      rewrite broadcast_mismatch by (rewrite length_map; assumption).
      reflexivity. }
    unfold pfsoln. unfold bind at 1. rewrite Hraise. reflexivity.
  - intros v ->.
    assert (Hrun : update_bus_voltages [v] t
                   = (Ok tt, with_bus (map (written v) (bus t)) t)).
    { apply update_bus_voltages_ok.
      exists (repeat (cabs v) (length (bus t))),
             (repeat (fdiv (fmul (angle v) f180) fpi) (length (bus t))).
      split; [apply broadcast_single|]. split; [apply broadcast_single|].
      f_equal. rewrite zip_set_repeat.
      rewrite <- (length_map (set_VM (cabs v)) (bus t)) at 1.
      rewrite zip_set_repeat, map_map. reflexivity. }
    rewrite Hbus, Hrun. reflexivity.
Qed.

(** On the two-bus case, whose voltage vector has two entries. *)
Lemma bus_voltages_updated_witness :
  bus Cases.two_bus_out
  = voltages_written Cases.two_bus_V (bus Cases.two_bus_case).
Proof.
  assert (Hlen : length Cases.two_bus_V = length (bus Cases.two_bus_case))
    by reflexivity.
  destruct (bus_voltages_updated 100%float Cases.two_bus_Ybus Cases.two_bus_Yf
              Cases.two_bus_Yt Cases.two_bus_V 0%Z Cases.two_bus_case)
    as (Hsame & _ & _).
  destruct (Hsame Hlen) as (_ & Hbus & _).
  rewrite <- Hbus. vm_compute. reflexivity.
Defined.

(** Against C5 as stated: two voltages for a case of one bus.  Line 40
    raises a ValueError and the tables stay as they were. *)
Lemma voltage_vector_too_long :
  pfsoln 100%float Cases.one_bus_Ybus Cases.no_branch Cases.no_branch
         [Cx 1%float 0%float; Cx 1%float 0%float] 0%Z Cases.scenario
  = (Raise ValueError, Cases.scenario).
Proof. vm_compute. reflexivity. Qed.

(** ** Branch flows *)

(** C6.  In the tables [pfsoln] returns, a branch [k] whose status is not
    zero has PF and QF at the real and imaginary parts of
    [V[F_BUS] * conj(Yf[k, :] * V) * baseMVA] and PT and QT at those of
    [V[T_BUS] * conj(Yt[k, :] * V) * baseMVA]; its other columns are as on
    entry. *)
Theorem branch_flows_written {F : Type} `{Num F} `{Libm F}
    (baseMVA : F) (Ybus Yf Yt : csr (complex F)) (V : list (complex F))
    (ref : Z) (t t' s : tables F) :
  pfsoln baseMVA Ybus Yf Yt V ref t = (Ok t', s) ->
  forall k r,
    nth_error (branch t) k = Some r -> feqb (BR_STATUS r) f0 = false ->
    exists v_from v_to row_f row_t,
      np_get V (fint (F_BUS r)) = Ok v_from /\
      np_get V (fint (T_BUS r)) = Ok v_to /\
      nth_error (rows Yf) k = Some row_f /\
      nth_error (rows Yt) k = Some row_t /\
      let Sf := cmul (cmul v_from (conj (dot c0 cadd cmul row_f V)))
                     (of_real baseMVA) in
      let St := cmul (cmul v_to (conj (dot c0 cadd cmul row_t V)))
                     (of_real baseMVA) in
      nth_error (branch t') k =
      Some (mk_branch (F_BUS r) (T_BUS r) (BR_STATUS r)
                      (real Sf) (imag Sf) (real St) (imag St)
                      (branch_rest r)).
Proof.
  intros Hrun k r Hr Hs. apply pfsoln_returns in Hrun.
  destruct Hrun as (d & (_ & _ & _ & HSf & HSt) & -> & _).
  assert (Hin : In k (branches_in (branch t)))
    by (apply branches_in_spec; eauto).
  apply In_nth_error in Hin. destruct Hin as [j Hj].
  assert (Hjl : j < length (branches_in (branch t)))
    by (apply nth_error_Some; congruence).
  assert (Hrow : nth_error (map Z.of_nat (branches_in (branch t))) j
                 = Some (Z.of_nat k))
    by (rewrite nth_error_map, Hj; reflexivity).
  assert (Hcol : forall (c : branch_row F -> F),
             nth_error (map fint (take f0 (map c (branch t))
                                       (branches_in (branch t)))) j
             = Some (fint (c r))).
  { intros c. rewrite nth_error_map. unfold take. rewrite nth_error_map, Hj.
    simpl. do 2 f_equal.
    assert (Hc : nth_error (map c (branch t)) k = Some (c r))
      by (rewrite nth_error_map, Hr; reflexivity).
    apply nth_error_nth with (d := f0) in Hc. exact Hc. }
  assert (Hget : forall (A : Type) (a : list A) x,
             np_get a (Z.of_nat k) = Ok x -> nth_error a k = Some x).
  { intros A a x. unfold np_get, np_index.
    destruct ((0 <=? Z.of_nat k)%Z && (Z.of_nat k <? Z.of_nat (length a))%Z)
      eqn:Hrange; simpl.
    - rewrite Nat2Z.id. destruct (nth_error a k); congruence.
    - assert (Hneg : (Z.of_nat k <? 0)%Z = false) by (apply Z.ltb_ge; lia).
      rewrite Hneg, andb_false_r. discriminate. }
  eapply injection_nth in HSf; [|apply (Hcol (@F_BUS F))|exact Hrow].
  eapply injection_nth in HSt; [|apply (Hcol (@T_BUS F))|exact Hrow].
  destruct HSf as (sf & Hpf & Hsf). destruct HSt as (st & Hpt & Hst).
  unfold power in Hpf, Hpt.
  destruct (np_get V (fint (F_BUS r))) as [vf|] eqn:Hvf; [|discriminate].
  destruct (np_get V (fint (T_BUS r))) as [vt|] eqn:Hvt; [|discriminate].
  simpl in Hpf, Hpt.
  destruct (np_get (rows Yf) (Z.of_nat k)) as [rf|] eqn:Hrf; [|discriminate].
  destruct (np_get (rows Yt) (Z.of_nat k)) as [rt|] eqn:Hrt; [|discriminate].
  simpl in Hpf, Hpt. inversion Hpf; inversion Hpt; subst.
  exists vf, vt, rf, rt.
  repeat (split; [solve [reflexivity | apply Hget; assumption]|]).
  unfold pfsoln_tables. cbn [branch].
  apply (flows_in baseMVA _ _ _ j Hj Hr Hsf Hst).
Qed.

(** The branch in service. *)
Lemma branch_flows_written_witness :
  exists v_from v_to row_f row_t,
    np_get Cases.two_bus_V 0%Z = Ok v_from /\
    np_get Cases.two_bus_V 1%Z = Ok v_to /\
    nth_error (rows Cases.two_bus_Yf) 0 = Some row_f /\
    nth_error (rows Cases.two_bus_Yt) 0 = Some row_t /\
    let Sf := cmul (cmul v_from (conj (dot c0 cadd cmul row_f Cases.two_bus_V)))
                   (of_real 100%float) in
    let St := cmul (cmul v_to (conj (dot c0 cadd cmul row_t Cases.two_bus_V)))
                   (of_real 100%float) in
    nth_error (branch Cases.two_bus_out) 0
    = Some (mk_branch 0%float 1%float 1%float
                      (real Sf) (imag Sf) (real St) (imag St) [250%float]).
Proof.
  exact (@branch_flows_written _ _ _ _ _ _ _ _ _ _ _ _ two_bus_run 0
           (mk_branch 0 1 1 9 9 9 9 [250])%float eq_refl eq_refl).
Defined.

(** ** Equipment that is off *)

(** C7.  In the tables [pfsoln] returns, a generator whose status is not
    positive has a zero reactive output and every other column, its real
    output included, as on entry; a branch whose status is zero has its four
    flows at zero, whatever they were, and its other columns as on entry. *)
Theorem offline_equipment_zeroed {F : Type} `{Num F} `{Libm F}
    (baseMVA : F) (Ybus Yf Yt : csr (complex F)) (V : list (complex F))
    (ref : Z) (t t' s : tables F) :
  pfsoln baseMVA Ybus Yf Yt V ref t = (Ok t', s) ->
  (forall k r,
      nth_error (gen t) k = Some r -> fltb f0 (GEN_STATUS r) = false ->
      nth_error (gen t') k =
      Some (mk_gen (GEN_BUS r) (GEN_STATUS r) (PG r) f0 (QMIN r) (QMAX r)
                   (gen_rest r))) /\
  (forall k r,
      nth_error (branch t) k = Some r -> feqb (BR_STATUS r) f0 = true ->
      nth_error (branch t') k =
      Some (mk_branch (F_BUS r) (T_BUS r) (BR_STATUS r) f0 f0 f0 f0
                      (branch_rest r))).
Proof.
  intros Hrun. apply pfsoln_returns in Hrun.
  destruct Hrun as (d & Hd & -> & _). split.
  - intros k r Hr Hs. apply (returned_gen_off baseMVA Hd k Hr Hs).
  - intros k r Hr Hs. unfold pfsoln_tables. cbn [branch].
    apply flows_out; assumption.
Qed.

(** The generator that is off and the branch that is out. *)
Lemma offline_equipment_zeroed_witness :
  nth_error (gen Cases.two_bus_out) 2
  = Some (mk_gen 1 0 5 0 (-5) 5 [100])%float /\
  nth_error (branch Cases.two_bus_out) 1
  = Some (mk_branch 0 1 0 0 0 0 0 [250])%float.
Proof.
  destruct (@offline_equipment_zeroed _ _ _ _ _ _ _ _ _ _ _ _ two_bus_run)
    as [Hgen Hbr].
  split.
  - apply (Hgen 2 (mk_gen 1 0 5 3 (-5) 5 [100])%float); reflexivity.
  - apply (Hbr 1 (mk_branch 0 1 0 7 7 7 7 [250])%float); reflexivity.
Defined.

(** ** Generators with the same limits *)




(** ** Idempotence *)

(** C9.  When [pfsoln] returns, running it again on the tables it returned,
    with the same base, matrices, voltages and reference bus, returns those
    very tables: equal field by field, which for doubles is bit by bit. *)
Theorem pfsoln_idempotent {F : Type} `{Num F} `{Libm F}
    (baseMVA : F) (Ybus Yf Yt : csr (complex F)) (V : list (complex F))
    (ref : Z) (t t' s : tables F) :
  pfsoln baseMVA Ybus Yf Yt V ref t = (Ok t', s) ->
  pfsoln baseMVA Ybus Yf Yt V ref t' = (Ok t', t').
Proof.
  intros Hrun. apply pfsoln_returns in Hrun.
  destruct Hrun as (d & Hd & -> & _).
  apply pfsoln_returns. exists d.
  split; [|split; [|reflexivity]].
  - apply (same_reads (returned_same_inputs baseMVA Hd) Hd).
  - symmetry. apply (pfsoln_tables_again baseMVA Hd).
Qed.

(** Running again on the tables returned. *)
Lemma pfsoln_idempotent_witness :
  pfsoln 100%float Cases.two_bus_Ybus Cases.two_bus_Yf Cases.two_bus_Yt
         Cases.two_bus_V 0%Z Cases.two_bus_out
  = (Ok Cases.two_bus_out, Cases.two_bus_out).
Proof. exact (@pfsoln_idempotent _ _ _ _ _ _ _ _ _ _ _ _ two_bus_run). Defined.

(** ** Frame *)

(** C10.  Whatever its arguments and however it ends, [pfsoln] leaves in
    every bus row the loads and the columns it never names, in every
    generator row the bus, the status, the reactive limits and the other
    columns, in every branch row the end buses, the status and the other
    columns; the tables keep their heights; and a generator row whose real
    output differs from the input's is the anchor, the first generator that is
    on at the reference bus.  So only VM and VA, QG and the anchor's PG, and
    PF, QF, PT, QT can have changed.  The tables returned are the store. *)
Theorem pfsoln_writes_only {F : Type} `{Num F} `{Libm F}
    (baseMVA : F) (Ybus Yf Yt : csr (complex F)) (V : list (complex F))
    (ref : Z) (t : tables F) :
  let s := snd (pfsoln baseMVA Ybus Yf Yt V ref t) in
  Forall2 bus_frame (bus t) (bus s) /\
  Forall2 gen_frame (gen t) (gen s) /\
  Forall2 branch_frame (branch t) (branch s) /\
  (forall k r r',
      nth_error (gen t) k = Some r -> nth_error (gen s) k = Some r' ->
      PG r' <> PG r -> anchor (gen t) ref = Some k) /\
  (forall t', fst (pfsoln baseMVA Ybus Yf Yt V ref t) = Ok t' -> t' = s).
Proof.
  intros s.
  destruct (pfsoln_frame baseMVA Ybus Yf Yt V ref t) as (Hb & [Hg Hp] & Hr).
  fold s in Hb, Hg, Hp, Hr.
  split; [|split; [exact Hg|split; [exact Hr|split]]].
  - rewrite Hb. apply update_bus_voltages_frame.
  - intros k r r' Hk Hk' Hne.
    destruct (anchor (gen t) ref) as [a|] eqn:Ha.
    + destruct (Nat.eq_dec a k) as [->|Hak]; [reflexivity|].
      exfalso. apply Hne.
      assert (Hn : Some a <> Some k) by congruence.
      specialize (Hp k Hn). rewrite !nth_error_map, Hk, Hk' in Hp.
      simpl in Hp. congruence.
    + exfalso. apply Hne.
      assert (Hn : @None nat <> Some k) by discriminate.
      specialize (Hp k Hn). rewrite !nth_error_map, Hk, Hk' in Hp.
      simpl in Hp. congruence.
  - intros t' Hok. subst s.
    destruct (pfsoln baseMVA Ybus Yf Yt V ref t) as [r s'] eqn:E.
    simpl in *. subst r. apply pfsoln_returns in E.
    destruct E as (d & _ & _ & ->). reflexivity.
Qed.

(** * Beyond the claims *)

(** ** Indexing *)

Lemma np_index_in_range n i :
  in_range n i = true -> np_index n i = Ok (Z.to_nat i).
Proof. unfold np_index, in_range. intros ->. reflexivity. Qed.

Lemma in_range_lt n i : in_range n i = true -> Z.to_nat i < n.
Proof.
  unfold in_range. intros Hr. apply andb_prop in Hr. destruct Hr as [H0 H1].
  apply Z.leb_le in H0. apply Z.ltb_lt in H1. lia.
Qed.

Lemma np_get_in_range {A} (a : list A) i :
  in_range (length a) i = true -> exists x, np_get a i = Ok x.
Proof.
  intros Hr. unfold np_get. rewrite (np_index_in_range _ _ Hr). simpl.
  destruct (nth_error a (Z.to_nat i)) as [x|] eqn:Hx; [eauto|].
  apply nth_error_None in Hx. apply in_range_lt in Hr. lia.
Qed.

Lemma np_take_in_range {A} (a : list A) idx :
  forallb (in_range (length a)) idx = true -> exists l, np_take a idx = Ok l.
Proof.
  unfold np_take. induction idx as [|i idx IH]; simpl; [eauto|].
  intros Hall. apply andb_prop in Hall. destruct Hall as [Hi Hall].
  destruct (np_get_in_range a i Hi) as [x ->].
  destruct (IH Hall) as [l ->]. simpl. eauto.
Qed.

Lemma np_index_IndexError n i e : np_index n i = Raise e -> e = IndexError.
Proof.
  unfold np_index. destruct (_ && _); [discriminate|].
  destruct (_ && _); [discriminate|]. congruence.
Qed.

Lemma np_get_IndexError {A} (a : list A) i e :
  np_get a i = Raise e -> e = IndexError.
Proof.
  unfold np_get. destruct (np_index (length a) i) as [k|e'] eqn:Hk; simpl.
  - destruct (nth_error a k); [discriminate|congruence].
  - intros He. inversion He; subst. eapply np_index_IndexError; eassumption.
Qed.

Lemma np_take_IndexError {A} (a : list A) idx e :
  np_take a idx = Raise e -> e = IndexError.
Proof.
  apply (res_map_never (np_get a) idx (fun e => e = IndexError)).
  intros i e'. apply np_get_IndexError.
Qed.

(** An index outside [-n, n) is refused. *)
Lemma np_get_outside {A} (a : list A) i :
  (i < - Z.of_nat (length a) \/ Z.of_nat (length a) <= i)%Z ->
  np_get a i = Raise IndexError.
Proof.
  intros Hout. unfold np_get, np_index.
  destruct (Z.leb_spec 0 i), (Z.ltb_spec i (Z.of_nat (length a))),
    (Z.leb_spec (- Z.of_nat (length a)) i), (Z.ltb_spec i 0);
    simpl; try reflexivity; lia.
Qed.

Lemma np_take_outside {A} (a : list A) idx i :
  In i idx ->
  (i < - Z.of_nat (length a) \/ Z.of_nat (length a) <= i)%Z ->
  np_take a idx = Raise IndexError.
Proof.
  intros Hin Hout.
  destruct (np_take a idx) as [l|e] eqn:E.
  - apply In_nth_error in Hin. destruct Hin as [j Hj].
    destruct (res_map_nth _ _ _ E Hj) as (b & _ & Hb).
    rewrite (np_get_outside a Hout) in Hb. discriminate.
  - apply np_take_IndexError in E. congruence.
Qed.

Section Shapes.
Context {F : Type} `{Num F} `{Libm F}.

Lemma injection_in_range (Y : csr (complex F)) V vidx yidx :
  forallb (in_range (length V)) vidx = true ->
  forallb (in_range (length (rows Y))) yidx = true ->
  ncols Y = length V ->
  exists S, injection Y V vidx yidx = Ok S.
Proof.
  intros Hv Hy Hc. unfold injection, csr_take.
  destruct (np_take_in_range V vidx Hv) as [Vi ->].
  destruct (np_take_in_range (rows Y) yidx Hy) as [Yi ->]. simpl.
  unfold np_matvec. cbn [ncols]. rewrite Hc, Nat.eqb_refl. simpl. eauto.
Qed.

Lemma has_shape_spec {A} n m (Y : csr A) :
  has_shape n m Y = true <-> length (rows Y) = n /\ ncols Y = m.
Proof.
  unfold has_shape. rewrite andb_true_iff, !Nat.eqb_eq. reflexivity.
Qed.

Lemma forallb_in_range_of_nat n (l : list nat) :
  (forall k, In k l -> k < n) -> forallb (in_range n) (map Z.of_nat l) = true.
Proof.
  intros Hl. apply forallb_forall. intros z Hz.
  apply in_map_iff in Hz. destruct Hz as (k & <- & Hk).
  unfold in_range. apply andb_true_iff. split.
  - apply Z.leb_le. lia.
  - apply Z.ltb_lt. specialize (Hl k Hk). lia.
Qed.
End Shapes.

(** ** Arguments on which the run returns *)

(** X1.  On well-formed arguments [pfsoln] raises nothing: it returns, and
    the tables it returns are the store.  The condition looks at no
    generator that is off and at no branch that is out: their bus numbers
    may be anything. *)
Theorem well_formed_case_returns {F : Type} `{Num F} `{Libm F}
    (baseMVA : F) (Ybus Yf Yt : csr (complex F)) (V : list (complex F))
    (ref : Z) (t : tables F) :
  well_formed Ybus Yf Yt V ref t = true ->
  exists t', pfsoln baseMVA Ybus Yf Yt V ref t = (Ok t', t').
Proof.
  unfold well_formed. rewrite !andb_true_iff, Nat.eqb_eq, !has_shape_spec.
  intros (((((((HV & HYr & HYc) & HFr & HFc) & HTr & HTc) & Hg) & Href)
           & Hf) & Ht).
  destruct (@injection_in_range F _ Ybus V _ _
              ltac:(rewrite HV; exact Hg) ltac:(rewrite HYr; exact Hg)
              ltac:(congruence)) as [Sg HSg].
  assert (HQd : exists Qd, np_take (map (@QD F) (bus t))
                   (gens_bus (gen t) (gens_on (gen t))) = Ok Qd)
    by (apply np_take_in_range; rewrite length_map; exact Hg).
  destruct HQd as [Qd HQd].
  apply existsb_exists in Href. destruct Href as (b & Hb & Hrb).
  apply Z.eqb_eq in Hrb. subst b.
  assert (HPd : exists Pd, np_get (map (@PD F) (bus t)) ref = Ok Pd).
  { apply np_get_in_range. rewrite length_map.
    rewrite forallb_forall in Hg. apply Hg, Hb. }
  destruct HPd as [Pd HPd].
  assert (Hbr : forallb (in_range (length (branch t)))
                  (map Z.of_nat (branches_in (branch t))) = true).
  { apply forallb_in_range_of_nat. intros k Hk.
    apply branches_in_spec in Hk. destruct Hk as (r & Hr & _).
    apply nth_error_Some. congruence. }
  destruct (@injection_in_range F _ Yf V _ _
              ltac:(rewrite HV; exact Hf) ltac:(rewrite HFr; exact Hbr)
              ltac:(congruence)) as [Sf HSf].
  destruct (@injection_in_range F _ Yt V _ _
              ltac:(rewrite HV; exact Ht) ltac:(rewrite HTr; exact Hbr)
              ltac:(congruence)) as [St HSt].
  set (d := mk_reads (map cabs V) (map (fun v => fdiv (fmul (angle v) f180) fpi) V)
                     Sg Qd Pd Sf St).
  exists (pfsoln_tables baseMVA ref d t).
  apply pfsoln_returns. exists d. split; [|split; reflexivity].
  unfold pfsoln_reads, dispatch_reads. cbn [r_vm r_va r_Sg r_Qd r_Pd r_Sf r_St d].
  repeat split; try assumption.
  - apply broadcast_same. rewrite length_map. exact HV.
  - apply broadcast_same. rewrite length_map. exact HV.
  - intros _. exact Hg.
  - intros Hempty. apply In_nth_error in Hb. destruct Hb as [j Hj].
    apply gens_ref_spec in Hj. rewrite Hempty in Hj. exact Hj.
Qed.

(** On the two-bus case, whose third generator is off and whose second
    branch is out. *)
Lemma well_formed_case_returns_witness :
  exists t',
    pfsoln 100%float Cases.two_bus_Ybus Cases.two_bus_Yf Cases.two_bus_Yt
           Cases.two_bus_V 0%Z Cases.two_bus_case = (Ok t', t').
Proof.
  apply (@well_formed_case_returns float _ _ 100%float Cases.two_bus_Ybus
           Cases.two_bus_Yf Cases.two_bus_Yt Cases.two_bus_V 0%Z
           Cases.two_bus_case).
  vm_compute. reflexivity.
Defined.

(** ** Runs that raise *)

Section Stops.
Context {F : Type} `{Num F} `{Libm F}.
Variables (baseMVA : F) (Ybus Yf Yt : csr (complex F))
          (V : list (complex F)) (ref : Z).

(** The branch step writes only once both of its reads have succeeded. *)
Lemma update_branch_flows_stops (t s : tables F) e :
  update_branch_flows baseMVA Yf Yt V t = (Raise e, s) -> s = t.
Proof.
  unfold update_branch_flows, bind, get, lift, set_branch, modify. simpl.
  destruct (injection Yf V _ _) as [Sf|e1]; simpl;
    [|intros E; inversion E; reflexivity].
  destruct (injection Yt V _ _) as [St|e2]; simpl;
    [discriminate|intros E; inversion E; reflexivity].
Qed.

Lemma pfsoln_raise_branch (t s : tables F) e :
  pfsoln baseMVA Ybus Yf Yt V ref t = (Raise e, s) -> branch s = branch t.
Proof.
  rewrite pfsoln_unfold. intros E.
  pose proof (update_bus_voltages_frame V t) as (_ & _ & Hr1).
  apply bind_raise in E. destruct E as [E|(u1 & t1 & E1 & E)].
  { rewrite E in Hr1. exact Hr1. }
  rewrite E1 in Hr1. simpl in Hr1.
  apply bind_raise in E. destruct E as [E|(t0 & t2 & Hg & E)];
    [discriminate|].
  apply get_ok in Hg. destruct Hg as [-> ->].
  pose proof (dispatch_frame baseMVA Ybus V ref t1 t1) as (_ & Hr2 & _).
  apply bind_raise in E. destruct E as [E|(u2 & t3 & E2 & E)].
  { rewrite E in Hr2. simpl in Hr2. congruence. }
  rewrite E2 in Hr2. simpl in Hr2.
  apply bind_raise in E. destruct E as [E|(u3 & t4 & E3 & E)];
    [|discriminate].
  apply update_branch_flows_stops in E. subst s. congruence.
Qed.

(** The run stops at line 50 when the injection at the generator buses
    cannot be computed: the bus voltages are written by then, and nothing
    else. *)
Lemma pfsoln_stops_at_injection (t t1 : tables F) e :
  update_bus_voltages V t = (Ok tt, t1) ->
  injection Ybus V (gens_bus (gen t) (gens_on (gen t)))
            (gens_bus (gen t) (gens_on (gen t))) = Raise e ->
  pfsoln baseMVA Ybus Yf Yt V ref t = (Raise e, t1).
Proof.
  intros E1 Einj.
  pose proof (update_bus_voltages_frame V t) as (_ & Hg1 & _).
  rewrite E1 in Hg1. simpl in Hg1.
  unfold pfsoln. rewrite (bind_run _ _ _ E1).
  unfold bind at 1, get at 1. rewrite Hg1.
  unfold bind at 1, lift at 1. rewrite Einj. reflexivity.
Qed.

Lemma injection_width (Y : csr (complex F)) vidx yidx S :
  injection Y V vidx yidx = Ok S -> ncols Y = length V.
Proof.
  unfold injection, csr_take.
  destruct (np_take V vidx) as [Vi|]; simpl; [|discriminate].
  destruct (np_take (rows Y) yidx) as [Yi|]; simpl; [|discriminate].
  unfold np_matvec. cbn [ncols].
  destruct (Nat.eqb_spec (ncols Y) (length V)); [auto|discriminate].
Qed.

Lemma gens_bus_member (t : tables F) k r :
  nth_error (gen t) k = Some r -> fltb f0 (GEN_STATUS r) = true ->
  In (fint (GEN_BUS r)) (gens_bus (gen t) (gens_on (gen t))).
Proof.
  intros Hr Hs. unfold gens_bus, take. rewrite map_map.
  apply in_map_iff. exists k. split.
  - f_equal. apply nth_error_nth with (d := f0).
    rewrite nth_error_map, Hr. reflexivity.
  - apply gens_on_spec. eauto.
Qed.
End Stops.

(** X2.  A run that raises has written nothing to the branch table: the
    four flow columns change only in a run that returns. *)
Theorem raising_run_keeps_branch_table {F : Type} `{Num F} `{Libm F}
    (baseMVA : F) (Ybus Yf Yt : csr (complex F)) (V : list (complex F))
    (ref : Z) (t s : tables F) (e : exception) :
  pfsoln baseMVA Ybus Yf Yt V ref t = (Raise e, s) -> branch s = branch t.
Proof. apply pfsoln_raise_branch. Qed.

(** With bus 1 as reference the two-bus case raises; its branch table is
    left with the flows it came with. *)
Lemma raising_run_keeps_branch_table_witness :
  branch Cases.two_bus_stopped = branch Cases.two_bus_case.
Proof.
  apply (@raising_run_keeps_branch_table float _ _ 100%float
           Cases.two_bus_Ybus Cases.two_bus_Yf Cases.two_bus_Yt
           Cases.two_bus_V 1%Z Cases.two_bus_case Cases.two_bus_stopped
           IndexError).
  vm_compute. reflexivity.
Defined.

(** X3.  A generator that is on at a bus number outside [-nb, nb) stops the
    run at line 50 with an IndexError.  The bus voltages are written by
    then; the generator and branch tables are as they came. *)
Theorem generator_bus_out_of_range {F : Type} `{Num F} `{Libm F}
    (baseMVA : F) (Ybus Yf Yt : csr (complex F)) (V : list (complex F))
    (ref : Z) (t : tables F) (k : nat) (r : gen_row F) :
  length V = length (bus t) ->
  nth_error (gen t) k = Some r ->
  fltb f0 (GEN_STATUS r) = true ->
  (fint (GEN_BUS r) < - Z.of_nat (length (bus t)) \/
   Z.of_nat (length (bus t)) <= fint (GEN_BUS r))%Z ->
  pfsoln baseMVA Ybus Yf Yt V ref t
  = (Raise IndexError, with_bus (voltages_written V (bus t)) t).
Proof.
  intros HV Hr Hs Hout.
  apply pfsoln_stops_at_injection.
  - apply update_bus_voltages_ok.
    exists (map cabs V), (map (fun v => fdiv (fmul (angle v) f180) fpi) V).
    split; [|split; [|reflexivity]];
      apply broadcast_same; rewrite length_map; exact HV.
  - unfold injection.
    rewrite (@np_take_outside _ V _ (fint (GEN_BUS r))
               (gens_bus_member t k Hr Hs)
               ltac:(rewrite HV; exact Hout)).
    reflexivity.
Qed.

(** One bus, a generator that is on at bus 5. *)
Lemma generator_bus_out_of_range_witness :
  pfsoln 100%float Cases.one_bus_Ybus Cases.no_branch Cases.no_branch
         Cases.one_bus_V 0%Z EdgeCases.stray_generator
  = (Raise IndexError,
     with_bus (voltages_written Cases.one_bus_V Cases.one_bus)
              EdgeCases.stray_generator).
Proof.
  apply (@generator_bus_out_of_range float _ _ 100%float Cases.one_bus_Ybus
           Cases.no_branch Cases.no_branch Cases.one_bus_V 0%Z
           EdgeCases.stray_generator 0 (mk_gen 5 1 3 99 0 10 [])%float).
  - reflexivity.
  - reflexivity.
  - reflexivity.
  - right. vm_compute. discriminate.
Defined.

(** X4.  An admittance matrix whose width is not the length of the voltage
    vector is refused, whatever the tables hold.  For [Ybus] the run stops
    before it has written to the generator or branch table; for [Yf] or
    [Yt] it stops without having written to the branch table. *)
Theorem admittance_width_mismatch {F : Type} `{Num F} `{Libm F}
    (baseMVA : F) (Ybus Yf Yt : csr (complex F)) (V : list (complex F))
    (ref : Z) (t : tables F) :
  (ncols Ybus <> length V ->
   exists e s, pfsoln baseMVA Ybus Yf Yt V ref t = (Raise e, s) /\
               gen s = gen t /\ branch s = branch t) /\
  (ncols Yf <> length V \/ ncols Yt <> length V ->
   exists e s, pfsoln baseMVA Ybus Yf Yt V ref t = (Raise e, s) /\
               branch s = branch t).
Proof.
  split.
  - intros Hw.
    pose proof (update_bus_voltages_frame V t) as (_ & Hg1 & Hr1).
    destruct (update_bus_voltages V t) as [[[]|e1] t1] eqn:E1;
      simpl in Hg1, Hr1.
    + destruct (injection Ybus V (gens_bus (gen t) (gens_on (gen t)))
                  (gens_bus (gen t) (gens_on (gen t)))) as [S|e] eqn:Einj.
      { apply injection_width in Einj. contradiction. }
      exists e, t1. split; [|split; assumption].
      apply pfsoln_stops_at_injection; assumption.
    + exists e1, t1. split; [|split; assumption].
      unfold pfsoln. unfold bind at 1. rewrite E1. reflexivity.
  - intros Hw.
    destruct (pfsoln baseMVA Ybus Yf Yt V ref t) as [[t'|e] s] eqn:E.
    + apply pfsoln_returns in E.
      destruct E as (d & (_ & _ & _ & HSf & HSt) & _).
      apply injection_width in HSf. apply injection_width in HSt.
      destruct Hw; contradiction.
    + exists e, s. split; [reflexivity|].
      eapply pfsoln_raise_branch; eassumption.
Qed.

(** One bus and a [Ybus] declared two columns wide: SciPy's ValueError, the
    generator table as it came. *)
Lemma admittance_width_mismatch_witness :
  exists e s,
    pfsoln 100%float EdgeCases.wide_Ybus Cases.no_branch Cases.no_branch
           Cases.one_bus_V 0%Z Cases.scenario = (Raise e, s) /\
    gen s = gen Cases.scenario /\ branch s = branch Cases.scenario.
Proof.
  apply (proj1 (@admittance_width_mismatch float _ _ 100%float
                  EdgeCases.wide_Ybus Cases.no_branch Cases.no_branch
                  Cases.one_bus_V 0%Z Cases.scenario)).
  vm_compute. discriminate.
Defined.

(** ** A single generator *)

(** X5.  When one generator only is on and the run returns, that generator
    sits at the reference bus and takes the whole of what the bus injects
    and consumes: QG = imag(S) * baseMVA + QD and PG = real(S) * baseMVA + PD
    with S = V[ref] * conj(Ybus[ref, :] * V).  Lines 62-86 and 93-94 are
    skipped, so this holds in every arithmetic, doubles included. *)
Theorem single_generator_takes_bus_total {F : Type} `{Num F} `{Libm F}
    (baseMVA : F) (Ybus Yf Yt : csr (complex F)) (V : list (complex F))
    (ref : Z) (t t' s : tables F) (k : nat) (r : gen_row F) :
  pfsoln baseMVA Ybus Yf Yt V ref t = (Ok t', s) ->
  gens_on (gen t) = [k] ->
  nth_error (gen t) k = Some r ->
  fint (GEN_BUS r) = ref /\
  exists S qd pd,
    power Ybus V ref ref = Ok S /\
    np_get (map (@QD F) (bus t)) ref = Ok qd /\
    np_get (map (@PD F) (bus t)) ref = Ok pd /\
    nth_error (gen t') k =
    Some (mk_gen (GEN_BUS r) (GEN_STATUS r)
                 (fadd (fmul (real S) baseMVA) pd)
                 (fadd (fmul (imag S) baseMVA) qd)
                 (QMIN r) (QMAX r) (gen_rest r)).
Proof.
  intros Hrun Hon Hr. apply pfsoln_returns in Hrun.
  destruct Hrun as (d & Hd & -> & _).
  pose proof Hd as (Hdr & Hne & HPd & _).
  assert (Hi : 0 < length (gens_on (gen t))) by (rewrite Hon; simpl; lia).
  assert (Hr0 : nth_error (gen t) (nth 0 (gens_on (gen t)) 0) = Some r)
    by (rewrite Hon; exact Hr).
  pose proof (gbus_at t Hi Hr0) as Hgb.
  (* the reference generators are the single one that is on *)
  destruct (gens_ref (gens_bus (gen t) (gens_on (gen t))) ref)
    as [|r0 others] eqn:Href; [contradiction|].
  assert (Hlt : forall j, In j (r0 :: others) -> j = 0).
  { intros j Hj. rewrite <- Href in Hj. apply refgen_lt in Hj.
    rewrite Hon in Hj. simpl in Hj. lia. }
  assert (Hnd : NoDup (r0 :: others)) by (rewrite <- Href; apply find_NoDup).
  assert (Hr00 : r0 = 0) by (apply Hlt; left; reflexivity).
  assert (Hoth : others = []).
  { destruct others as [|j others]; [reflexivity|].
    assert (j = 0) by (apply Hlt; right; left; reflexivity).
    subst. inversion Hnd as [|? ? Hnin _]. exfalso. apply Hnin.
    left; reflexivity. }
  subst r0 others.
  assert (Hbus : fint (GEN_BUS r) = ref).
  { assert (Hin : In 0 (gens_ref (gens_bus (gen t) (gens_on (gen t))) ref))
      by (rewrite Href; left; reflexivity).
    apply gens_ref_spec in Hin. congruence. }
  split; [exact Hbus|].
  destruct (returned_anchor baseMVA Hd Href)
    as (S & ra & ra' & HS & Hra & Hra' & HPG).
  destruct (returned_gen_on baseMVA Hd Hi Hr0) as (r' & Hr' & HQ & Hfr).
  rewrite Hra' in Hr'. inversion Hr'; subst ra'. clear Hr'.
  destruct Hdr as (_ & _ & _ & HQd & _).
  destruct (res_map_nth _ _ 0 HQd Hgb) as (qd & Hqd & Hget).
  rewrite Hbus in Hget.
  exists S, qd, (r_Pd d).
  split; [exact HS|]. split; [exact Hget|]. split; [exact HPd|].
  rewrite Hon in Hra'. cbn [nth] in Hra'. rewrite Hra'. f_equal.
  assert (HQG : QG r' = fadd (fmul (imag S) baseMVA) qd).
  { rewrite HQ. unfold Qg_final. rewrite Hon. cbn [length Nat.ltb Nat.leb].
    destruct Hd as [Hdr' _].
    rewrite (Qg_required_at baseMVA Hdr' Hi Hr0). unfold bus_required.
    rewrite Hbus, HS, Hget. reflexivity. }
  destruct Hfr as (H1 & H2 & H3 & H4 & H5).
  destruct r'; cbn in *. subst. rewrite HQG. reflexivity.
Qed.

(** One bus with a load of 2 MW and 7.5 MVAr, one generator: it ends with
    2 MW and 20 MVAr. *)
Lemma single_generator_takes_bus_total_witness :
  nth_error (gen EdgeCases.one_generator_out) 0
  = Some (mk_gen 0 1 2 20 0 10 [])%float.
Proof.
  assert (Hrun : pfsoln 100%float Cases.one_bus_Ybus Cases.no_branch
                   Cases.no_branch Cases.one_bus_V 0%Z EdgeCases.one_generator
                 = (Ok EdgeCases.one_generator_out,
                    EdgeCases.one_generator_out))
    by (vm_compute; reflexivity).
  destruct (@single_generator_takes_bus_total float _ _ _ _ _ _ _ _ _ _ _
              0 (mk_gen 0 1 3 99 0 10 [])%float Hrun eq_refl eq_refl)
    as (_ & S & qd & pd & HS & Hqd & Hpd & Hrow).
  vm_compute in HS. inversion HS; subst S.
  vm_compute in Hqd. inversion Hqd; subst qd.
  vm_compute in Hpd. inversion Hpd; subst pd.
  rewrite Hrow. vm_compute. reflexivity.
Defined.

(** ** The proportional split and the limits *)

Section Bounds.
Local Open Scope Qc_scope.

Lemma Qc_fraction_bounds (n dd : Qc) :
  0 <= n -> n <= dd -> 0 < dd -> 0 <= n / dd /\ n / dd <= 1.
Proof.
  intros Hn Hle Hpos.
  assert (Hnz : dd <> 0) by (apply not_eq_sym, Qclt_not_eq; exact Hpos).
  assert (Hback : n / dd * dd = n) by (field; exact Hnz).
  split.
  - apply Qcmult_lt_0_le_reg_r with (z := dd); [exact Hpos|].
    rewrite Hback. replace (0 * dd) with 0 by ring. exact Hn.
  - apply Qcmult_lt_0_le_reg_r with (z := dd); [exact Hpos|].
    rewrite Hback. replace (1 * dd) with dd by ring. exact Hle.
Qed.

Lemma Qc_between (lo hi f : Qc) :
  lo <= hi -> 0 <= f -> f <= 1 ->
  lo <= lo + f * (hi - lo) /\ lo + f * (hi - lo) <= hi.
Proof.
  intros Hw H0 H1.
  assert (Hw0 : 0 <= hi - lo).
  { apply -> Qcle_minus_iff. exact Hw. }
  split.
  - replace lo with (lo + 0 * (hi - lo)) at 1 by ring.
    apply Qcplus_le_compat; [apply Qcle_refl|].
    apply Qcmult_le_compat_r; assumption.
  - replace hi with (lo + 1 * (hi - lo)) at 2 by ring.
    apply Qcplus_le_compat; [apply Qcle_refl|].
    apply Qcmult_le_compat_r; assumption.
Qed.

Lemma Qc_fraction_above (n dd : Qc) : 0 < dd -> dd < n -> 1 < n / dd.
Proof.
  intros Hpos Hlt.
  assert (Hnz : dd <> 0) by (apply not_eq_sym, Qclt_not_eq; exact Hpos).
  assert (Hback : n / dd * dd = n) by (field; exact Hnz).
  destruct (Qclt_le_dec 1 (n / dd)) as [|Hle]; [assumption|].
  exfalso. apply (Qcle_not_lt n dd); [|exact Hlt].
  rewrite <- Hback. apply Qcle_trans with (y := 1 * dd).
  - apply Qcmult_le_compat_r; [exact Hle|apply Qclt_le_weak, Hpos].
  - replace (1 * dd) with dd by ring. apply Qcle_refl.
Qed.

Lemma Qc_beyond (lo hi f : Qc) :
  lo < hi -> 1 < f -> hi < lo + f * (hi - lo).
Proof.
  intros Hw Hf. apply Qclt_minus_iff.
  replace (lo + f * (hi - lo) + - hi) with ((f - 1) * (hi - lo)) by ring.
  replace 0 with (0 * (hi - lo)) by ring.
  apply Qcmult_lt_compat_r.
  - apply -> Qclt_minus_iff. exact Hw.
  - apply -> Qclt_minus_iff. exact Hf.
Qed.

Lemma EPS_positive : 0 < @EPS Qc exact.
Proof. reflexivity. Qed.
End Bounds.

(** X6.  Over the rationals, when the output required of a bus lies between
    the summed limits of the generators that are on there, and those sums
    differ, a run that returns with more than one generator on leaves each
    generator of the bus whose QMIN is at most its QMAX within its own
    limits. *)
Theorem split_within_limits {L : Libm Qc}
    (baseMVA : Qc) (Ybus Yf Yt : csr (complex Qc)) (V : list (complex Qc))
    (ref : Z) (t t' s : tables Qc) (i : nat) (r : gen_row Qc) :
  pfsoln baseMVA Ybus Yf Yt V ref t = (Ok t', s) ->
  let on := gens_on (gen t) in
  let gbus := gens_bus (gen t) on in
  1 < length on -> i < length on ->
  nth_error (gen t) (nth i on 0) = Some r ->
  let bz := fint (GEN_BUS r) in
  let A := sum_at bz gbus (take f0 (map (@QMIN Qc) (gen t)) on) in
  let B := sum_at bz gbus (take f0 (map (@QMAX Qc) (gen t)) on) in
  let R := bus_required baseMVA Ybus V t bz in
  (A <= R)%Qc -> (R <= B)%Qc -> (A < B)%Qc -> (QMIN r <= QMAX r)%Qc ->
  exists r',
    nth_error (gen t') (nth i on 0) = Some r' /\
    (QMIN r <= QG r')%Qc /\ (QG r' <= QMAX r)%Qc.
Proof.
  intros Hrun on gbus Hmany Hi Hr bz A B R HAR HRB HAB Hw.
  apply pfsoln_returns in Hrun. destruct Hrun as (d & Hd & -> & _).
  destruct (returned_gen_on baseMVA Hd Hi Hr) as (r' & Hr' & HQ & _).
  exists r'. split; [exact Hr'|].
  pose proof (gbus_at t Hi Hr) as Hhost.
  pose proof Hd as [Hdr _].
  rewrite HQ, (Qg_final_share baseMVA Hdr Hmany Hi Hr).
  rewrite (share_member baseMVA Hd i Hhost Hmany r eq_refl).
  fold on gbus bz.
  change (sum_at bz gbus (take 0%Qc (map (@QMIN Qc) (gen t)) on)) with A.
  change (sum_at bz gbus (take 0%Qc (map (@QMAX Qc) (gen t)) on)) with B.
  change (bus_required baseMVA Ybus V t bz) with R.
  assert (Hne : A <> B) by (apply Qclt_not_eq; exact HAB).
  destruct (Qc_eq_bool A B) eqn:HE.
  { apply Qc_eq_bool_correct in HE. contradiction. }
  assert (Hden : (0 < B - A + EPS)%Qc).
  { apply Qclt_le_trans with (y := (B - A)%Qc).
    - apply -> Qclt_minus_iff. exact HAB.
    - replace (B - A)%Qc with (B - A + 0)%Qc at 1 by ring.
      apply Qcplus_le_compat; [apply Qcle_refl|].
      apply Qclt_le_weak, EPS_positive. }
  destruct (@Qc_fraction_bounds (R - A)%Qc (B - A + EPS)%Qc) as [Hf0 Hf1].
  - apply -> Qcle_minus_iff. exact HAR.
  - replace (R - A)%Qc with (R - A + 0)%Qc by ring.
    apply Qcplus_le_compat; [|apply Qclt_le_weak, EPS_positive].
    unfold Qcminus. apply Qcplus_le_compat; [exact HRB|apply Qcle_refl].
  - exact Hden.
  - apply Qc_between; assumption.
Qed.

(** The scenario over the rationals: the bus needs 20 of the 0 to 40 its
    two generators can give; the first ends within its 0 to 10. *)
Lemma split_within_limits_witness :
  exists r',
    nth_error (gen ExactCases.scenario_out) 0 = Some r' /\
    (0 <= QG r')%Qc /\ (QG r' <= ExactCases.q 10 1)%Qc.
Proof.
  assert (Hrun : pfsoln (ExactCases.q 100 1) ExactCases.one_bus_Ybus
                   ExactCases.no_branch ExactCases.no_branch
                   ExactCases.one_bus_V 0%Z ExactCases.scenario
                 = (Ok ExactCases.scenario_out, ExactCases.scenario_out))
    by (vm_compute; reflexivity).
  assert (Hmany : 1 < length (gens_on (gen ExactCases.scenario)))
    by (vm_compute; lia).
  assert (Hi : 0 < length (gens_on (gen ExactCases.scenario)))
    by (vm_compute; lia).
  apply (@split_within_limits libm_axes_exact _ _ _ _ _ _ _ _ _ 0
           (mk_gen 0 1 (ExactCases.q 3 1) (ExactCases.q 99 1) 0
                   (ExactCases.q 10 1) [])%Qc Hrun Hmany Hi eq_refl).
  - vm_compute. discriminate.
  - vm_compute. discriminate.
  - vm_compute. reflexivity.
  - vm_compute. discriminate.
Defined.

(** X7.  The split does not clip.  Over the rationals, when the output
    required of a bus exceeds the summed QMAX of its generators by more than
    EPS, a run that returns with more than one generator on leaves every
    generator of the bus that has a range above its QMAX. *)
Theorem split_does_not_clip {L : Libm Qc}
    (baseMVA : Qc) (Ybus Yf Yt : csr (complex Qc)) (V : list (complex Qc))
    (ref : Z) (t t' s : tables Qc) (i : nat) (r : gen_row Qc) :
  pfsoln baseMVA Ybus Yf Yt V ref t = (Ok t', s) ->
  let on := gens_on (gen t) in
  let gbus := gens_bus (gen t) on in
  1 < length on -> i < length on ->
  nth_error (gen t) (nth i on 0) = Some r ->
  let bz := fint (GEN_BUS r) in
  let A := sum_at bz gbus (take f0 (map (@QMIN Qc) (gen t)) on) in
  let B := sum_at bz gbus (take f0 (map (@QMAX Qc) (gen t)) on) in
  let R := bus_required baseMVA Ybus V t bz in
  (A < B)%Qc -> (B + EPS < R)%Qc -> (QMIN r < QMAX r)%Qc ->
  exists r',
    nth_error (gen t') (nth i on 0) = Some r' /\ (QMAX r < QG r')%Qc.
Proof.
  intros Hrun on gbus Hmany Hi Hr bz A B R HAB HR Hw.
  apply pfsoln_returns in Hrun. destruct Hrun as (d & Hd & -> & _).
  destruct (returned_gen_on baseMVA Hd Hi Hr) as (r' & Hr' & HQ & _).
  exists r'. split; [exact Hr'|].
  pose proof (gbus_at t Hi Hr) as Hhost.
  pose proof Hd as [Hdr _].
  rewrite HQ, (Qg_final_share baseMVA Hdr Hmany Hi Hr).
  rewrite (share_member baseMVA Hd i Hhost Hmany r eq_refl).
  fold on gbus bz.
  change (sum_at bz gbus (take 0%Qc (map (@QMIN Qc) (gen t)) on)) with A.
  change (sum_at bz gbus (take 0%Qc (map (@QMAX Qc) (gen t)) on)) with B.
  change (bus_required baseMVA Ybus V t bz) with R.
  assert (Hne : A <> B) by (apply Qclt_not_eq; exact HAB).
  destruct (Qc_eq_bool A B) eqn:HE.
  { apply Qc_eq_bool_correct in HE. contradiction. }
  assert (Hden : (0 < B - A + EPS)%Qc).
  { apply Qclt_le_trans with (y := (B - A)%Qc).
    - apply -> Qclt_minus_iff. exact HAB.
    - replace (B - A)%Qc with (B - A + 0)%Qc at 1 by ring.
      apply Qcplus_le_compat; [apply Qcle_refl|].
      apply Qclt_le_weak, EPS_positive. }
  apply Qc_beyond; [exact Hw|].
  apply Qc_fraction_above; [exact Hden|].
  apply Qclt_minus_iff.
  replace (R - A + - (B - A + EPS))%Qc with (R + - (B + EPS))%Qc by ring.
  apply -> Qclt_minus_iff. exact HR.
Qed.

(** Two generators with the ranges 0 to 10 and 0 to 30 at a bus of which 95
    MVAr are required: the first ends above 10. *)
Lemma split_does_not_clip_witness :
  exists r',
    nth_error (gen EdgeCases.overloaded_out) 0 = Some r' /\
    (ExactCases.q 10 1 < QG r')%Qc.
Proof.
  assert (Hrun : pfsoln (ExactCases.q 100 1) ExactCases.one_bus_Ybus
                   ExactCases.no_branch ExactCases.no_branch
                   ExactCases.one_bus_V 0%Z EdgeCases.overloaded
                 = (Ok EdgeCases.overloaded_out, EdgeCases.overloaded_out))
    by (vm_compute; reflexivity).
  assert (Hmany : 1 < length (gens_on (gen EdgeCases.overloaded)))
    by (vm_compute; lia).
  assert (Hi : 0 < length (gens_on (gen EdgeCases.overloaded)))
    by (vm_compute; lia).
  apply (@split_does_not_clip libm_axes_exact _ _ _ _ _ _ _ _ _ 0
           (mk_gen 0 1 0 0 0 (ExactCases.q 10 1) [])%Qc Hrun Hmany Hi eq_refl).
  - vm_compute. reflexivity.
  - vm_compute. reflexivity.
  - vm_compute. reflexivity.
Defined.

(** ** Which generator is the anchor *)

Lemma find_from_increasing mask k0 i j :
  i < j -> j < length (find_from k0 mask) ->
  nth i (find_from k0 mask) 0 < nth j (find_from k0 mask) 0.
Proof.
  revert k0 i j. induction mask as [|b mask IH]; intros k0 i j Hij Hj;
    simpl in *; [lia|].
  destruct b; simpl in *.
  - destruct j as [|j]; [lia|]. destruct i as [|i].
    + assert (Hin : In (nth j (find_from (S k0) mask) 0)
                       (find_from (S k0) mask)) by (apply nth_In; lia).
      apply find_from_spec in Hin. lia.
    + apply IH; lia.
  - apply IH; assumption.
Qed.

Lemma find_increasing mask i j :
  i < j -> j < length (find mask) ->
  nth i (find mask) 0 < nth j (find mask) 0.
Proof. apply find_from_increasing. Qed.

(** The head of [find mask] is the first position that holds [true]. *)
Lemma find_head mask j rest i :
  find mask = j :: rest -> i < j -> nth_error mask i <> Some true.
Proof.
  intros Hf Hi Ht. apply find_spec in Ht. rewrite Hf in Ht.
  destruct Ht as [->|Hin]; [lia|].
  apply In_nth with (d := 0) in Hin. destruct Hin as (p & Hp & Hnth).
  pose proof (@find_increasing mask 0 (S p)) as Hinc.
  rewrite Hf in Hinc. simpl in Hinc.
  specialize (Hinc ltac:(lia) ltac:(lia)). lia.
Qed.

Section Anchor.
Context {F : Type} `{Num F} `{Libm F}.

Lemma anchor_spec (g : list (gen_row F)) ref k :
  anchor g ref = Some k ->
  (exists r, nth_error g k = Some r /\ fltb f0 (GEN_STATUS r) = true /\
             fint (GEN_BUS r) = ref) /\
  (forall k' r', k' < k -> nth_error g k' = Some r' ->
                 fltb f0 (GEN_STATUS r') = true -> fint (GEN_BUS r') <> ref).
Proof.
  unfold anchor.
  destruct (gens_ref (gens_bus g (gens_on g)) ref) as [|r0 others] eqn:Href;
    [discriminate|].
  intros Hk. inversion Hk as [Hk']. clear Hk.
  assert (Hin0 : In r0 (gens_ref (gens_bus g (gens_on g)) ref))
    by (rewrite Href; left; reflexivity).
  assert (Hr0 : r0 < length (gens_on g)).
  { apply gens_ref_lt in Hin0. rewrite length_gens_bus in Hin0. exact Hin0. }
  assert (Hon : In (nth r0 (gens_on g) 0) (gens_on g)) by (apply nth_In, Hr0).
  pose proof Hon as Hon'. apply gens_on_spec in Hon'.
  destruct Hon' as (r & Hr & Hs).
  split.
  - exists r. split; [exact Hr|]. split; [exact Hs|].
    apply gens_ref_spec in Hin0.
    unfold gens_bus, take in Hin0. rewrite map_map, nth_error_map in Hin0.
    rewrite (nth_error_nth_iff (gens_on g) 0 Hr0) in Hin0. simpl in Hin0.
    assert (Hg : nth (nth r0 (gens_on g) 0) (map (@GEN_BUS F) g) f0
                 = GEN_BUS r).
    { apply nth_error_nth. rewrite nth_error_map, Hr. reflexivity. }
    rewrite Hg in Hin0. congruence.
  - intros k' r' Hlt Hr' Hs' Hat.
    assert (Hin' : In k' (gens_on g)) by (apply gens_on_spec; eauto).
    apply In_nth with (d := 0) in Hin'. destruct Hin' as (i' & Hi' & Hnth).
    assert (Hi'r0 : i' < r0).
    { destruct (Nat.lt_ge_cases i' r0) as [|Hge]; [assumption|].
      destruct (Nat.eq_dec i' r0) as [->|Hne]; [lia|].
      pose proof (@find_increasing
                    (map (fun r => fltb f0 (GEN_STATUS r)) g) r0 i') as Hinc.
      fold (gens_on g) in Hinc. specialize (Hinc ltac:(lia) Hi'). lia. }
    apply (find_head _ Href Hi'r0).
    rewrite nth_error_map.
    assert (Hgb : nth_error (gens_bus g (gens_on g)) i'
                  = Some (fint (GEN_BUS r'))).
    { unfold gens_bus, take. rewrite map_map, nth_error_map.
      rewrite (nth_error_nth_iff (gens_on g) 0 Hi'). simpl.
      rewrite Hnth. do 2 f_equal.
      apply nth_error_nth. rewrite nth_error_map, Hr'. reflexivity. }
    rewrite Hgb. simpl. rewrite Hat, Z.eqb_refl. reflexivity.
Qed.
End Anchor.

(** X8.  In a run that returns, the generator whose real output is
    rewritten is the one of lowest row among those that are on at the
    reference bus; the real output of every other row is as it came. *)
Theorem swing_generator_is_lowest_row {F : Type} `{Num F} `{Libm F}
    (baseMVA : F) (Ybus Yf Yt : csr (complex F)) (V : list (complex F))
    (ref : Z) (t t' s : tables F) :
  pfsoln baseMVA Ybus Yf Yt V ref t = (Ok t', s) ->
  exists k r,
    nth_error (gen t) k = Some r /\
    fltb f0 (GEN_STATUS r) = true /\ fint (GEN_BUS r) = ref /\
    (forall k' r', k' < k -> nth_error (gen t) k' = Some r' ->
                   fltb f0 (GEN_STATUS r') = true ->
                   fint (GEN_BUS r') <> ref) /\
    (forall j, j <> k ->
               nth_error (map (@PG F) (gen t')) j
               = nth_error (map (@PG F) (gen t)) j).
Proof.
  intros Hrun.
  pose proof (pfsoln_frame baseMVA Ybus Yf Yt V ref t) as (_ & [_ Hp] & _).
  rewrite Hrun in Hp. cbn [snd] in Hp.
  apply pfsoln_returns in Hrun. destruct Hrun as (d & (_ & Hne & _) & Ht' & ->).
  destruct (anchor (gen t) ref) as [k|] eqn:Ha.
  - destruct (anchor_spec _ _ Ha) as ((r & Hr & Hs & Hb) & Hfirst).
    exists k, r. repeat (split; [assumption|]).
    intros j Hj. apply Hp. congruence.
  - exfalso. unfold anchor in Ha.
    destruct (gens_ref _ ref); [contradiction|discriminate].
Qed.

(** On the two-bus case the anchor is row 0; row 1, on at the same bus,
    keeps its 20 MW. *)
Lemma swing_generator_is_lowest_row_witness :
  exists k r,
    nth_error (gen Cases.two_bus_case) k = Some r /\
    fint (GEN_BUS r) = 0%Z /\
    (forall j, j <> k ->
               nth_error (map (@PG float) (gen Cases.two_bus_out)) j
               = nth_error (map (@PG float) (gen Cases.two_bus_case)) j).
Proof.
  destruct (@swing_generator_is_lowest_row float _ _ _ _ _ _ _ _ _ _ _
              two_bus_run) as (k & r & Hr & _ & Hb & _ & Hp).
  exists k, r. auto.
Defined.

(** ** Bus numbers counted from the end *)

Lemma np_get_wraps {A} (a : list A) i :
  (- Z.of_nat (length a) <= i < Z.of_nat (length a))%Z ->
  exists x, np_get a i = Ok x.
Proof.
  intros Hr. unfold np_get, np_index.
  destruct (Z.leb_spec 0 i), (Z.ltb_spec i (Z.of_nat (length a))),
    (Z.leb_spec (- Z.of_nat (length a)) i), (Z.ltb_spec i 0);
    simpl; try lia.
  - destruct (nth_error a (Z.to_nat i)) as [x|] eqn:Hx; [eauto|].
    apply nth_error_None in Hx. lia.
  - destruct (nth_error a (Z.to_nat (Z.of_nat (length a) + i))) as [x|] eqn:Hx;
      [eauto|].
    apply nth_error_None in Hx. lia.
Qed.

Lemma np_take_wraps {A} (a : list A) idx :
  Forall (fun i => (- Z.of_nat (length a) <= i < Z.of_nat (length a))%Z) idx ->
  exists l, np_take a idx = Ok l.
Proof.
  unfold np_take. induction 1 as [|i idx Hi _ IH]; simpl; [eauto|].
  destruct (np_get_wraps a Hi) as [x ->]. destruct IH as [l ->].
  simpl. eauto.
Qed.

Lemma csr_matrix_negative {X} (data : list X) cols nb :
  Exists (fun j => (j < 0)%Z) cols ->
  csr_matrix data cols nb = Raise ValueError.
Proof.
  intros Hex. unfold csr_matrix.
  destruct (forallb (in_range nb) cols) eqn:Hall; [|reflexivity].
  apply Exists_exists in Hex. destruct Hex as (j & Hj & Hneg).
  rewrite forallb_forall in Hall. specialize (Hall j Hj).
  unfold in_range in Hall. apply andb_prop in Hall. destruct Hall as [H0 _].
  apply Z.leb_le in H0. lia.
Qed.

(** X9.  NumPy lets a generator name its bus by a negative number, counted
    from the end of the table; SciPy does not.  With more than one
    generator on, such a number passes lines 50 and 54 and is refused at
    line 64 with a ValueError: the run stops with the bus voltages written
    and every generator that is on holding the undivided total of its bus;
    the real outputs and the branch table are as they came. *)
Theorem negative_generator_bus_refused {F : Type} `{Num F} `{Libm F}
    (baseMVA : F) (Ybus Yf Yt : csr (complex F)) (V : list (complex F))
    (ref : Z) (t : tables F) :
  let nb := length (bus t) in
  let on := gens_on (gen t) in
  let gbus := gens_bus (gen t) on in
  length V = nb -> length (rows Ybus) = nb -> ncols Ybus = nb ->
  1 < length on ->
  Forall (fun j => (- Z.of_nat nb <= j < Z.of_nat nb)%Z) gbus ->
  Exists (fun j => (j < 0)%Z) gbus ->
  exists Sg Qd,
    injection Ybus V gbus gbus = Ok Sg /\
    np_take (map (@QD F) (bus t)) gbus = Ok Qd /\
    pfsoln baseMVA Ybus Yf Yt V ref t
    = (Raise ValueError,
       mk_tables (voltages_written V (bus t))
                 (inject_Qg baseMVA Sg Qd on (zero_Qg (gen t)))
                 (branch t)).
Proof.
  intros nb on gbus HV HYr HYc Hmany Hwrap Hneg.
  assert (HSg : exists Sg, injection Ybus V gbus gbus = Ok Sg).
  { unfold injection, csr_take.
    destruct (@np_take_wraps _ V gbus ltac:(rewrite HV; exact Hwrap))
      as [Vi ->].
    destruct (@np_take_wraps _ (rows Ybus) gbus
                ltac:(rewrite HYr; exact Hwrap)) as [Yi ->]. simpl.
    unfold np_matvec. cbn [ncols]. rewrite HYc, <- HV, Nat.eqb_refl.
    simpl. eauto. }
  destruct HSg as [Sg HSg].
  destruct (@np_take_wraps _ (map (@QD F) (bus t)) gbus
              ltac:(rewrite length_map; exact Hwrap)) as [Qd HQd].
  exists Sg, Qd. split; [exact HSg|]. split; [exact HQd|].
  set (t1 := with_bus (voltages_written V (bus t)) t).
  assert (E1 : update_bus_voltages V t = (Ok tt, t1)).
  { apply update_bus_voltages_ok.
    exists (map cabs V), (map (fun v => fdiv (fmul (angle v) f180) fpi) V).
    split; [|split; [|reflexivity]];
      apply broadcast_same; rewrite length_map; exact HV. }
  set (t2 := with_gen (inject_Qg baseMVA Sg Qd on (zero_Qg (gen t))) t1).
  assert (E2 : update_Qg baseMVA Sg on gbus t1 = (Ok tt, t2)).
  { apply update_Qg_ok. exists Qd. split; [|reflexivity].
    unfold t1. cbn [bus with_bus]. unfold voltages_written.
    rewrite map_QD_voltages. exact HQd. }
  assert (E3 : split_Qg on gbus t2 = (Raise ValueError, t2)).
  { unfold split_Qg. unfold bind at 1, get at 1.
    unfold bind at 1, lift at 1.
    rewrite (csr_matrix_negative _ _ Hneg). reflexivity. }
  unfold pfsoln. rewrite (bind_run _ _ _ E1).
  unfold bind at 1, get at 1.
  change (gen t1) with (gen t). fold on. fold gbus.
  rewrite (bind_run _ _ _ (a := Sg) (t1 := t1))
    by (unfold lift; rewrite HSg; reflexivity).
  rewrite (bind_run _ _ _ E2).
  apply Nat.ltb_lt in Hmany. rewrite Hmany.
  unfold bind at 1. rewrite E3. reflexivity.
Qed.

(** Two buses, two generators on at the second, one of them naming it by
    -1. *)
Lemma negative_generator_bus_refused_witness :
  exists s,
    pfsoln 100%float Cases.two_bus_Ybus Cases.no_branch Cases.no_branch
           Cases.two_bus_V 1%Z EdgeCases.counted_from_end
    = (Raise ValueError, s) /\
    map (@PG float) (gen s) = [0; 20]%float.
Proof.
  destruct (@negative_generator_bus_refused float _ _ 100%float
              Cases.two_bus_Ybus Cases.no_branch Cases.no_branch
              Cases.two_bus_V 1%Z EdgeCases.counted_from_end)
    as (Sg & Qd & HSg & HQd & Hrun).
  - reflexivity.
  - reflexivity.
  - reflexivity.
  - vm_compute. lia.
  - vm_compute. repeat constructor; discriminate.
  - vm_compute. right. left. reflexivity.
  - vm_compute in HSg. inversion HSg; subst Sg.
    vm_compute in HQd. inversion HQd; subst Qd.
    eexists. split; [exact Hrun|].
    vm_compute. reflexivity.
Defined.

(** ** The columns the run writes are not read *)

Lemma broadcast_length {X} n (vals vs : list X) :
  broadcast n vals = Ok vs -> length vs = n.
Proof.
  unfold broadcast. destruct (Nat.eqb (length vals) n) eqn:Hn.
  - intros E. inversion E; subst. apply Nat.eqb_eq. exact Hn.
  - destruct vals as [|v [|w vals]]; try discriminate.
    intros E. inversion E. apply repeat_length.
Qed.

Lemma nth_of_nth_error {A} (l l' : list A) k d :
  nth_error l' k = nth_error l k -> nth k l' d = nth k l d.
Proof.
  intros E. destruct (nth_error l k) as [x|] eqn:Hx.
  - rewrite (nth_error_nth _ _ d Hx), (nth_error_nth _ _ d E). reflexivity.
  - apply nth_error_None in Hx. apply nth_error_None in E.
    rewrite !nth_overflow by assumption. reflexivity.
Qed.

Section Stale.
Context {F : Type} `{Num F} `{Libm F}.

Lemma voltages_over_frame (vm va : list F) (b1 b2 : list (bus_row F)) :
  Forall2 bus_frame b1 b2 ->
  length vm = length b1 -> length va = length b1 ->
  zip_set set_VA va (zip_set set_VM vm b2)
  = zip_set set_VA va (zip_set set_VM vm b1).
Proof.
  intros Hfr Hvm Hva. apply nth_error_ext. intros k.
  rewrite !nth_error_zip_set.
  destruct (nth_error b1 k) as [r1|] eqn:H1.
  - destruct (Forall2_nth_error _ Hfr H1) as (r2 & H2 & Hp & Hq & Hrest).
    rewrite H2.
    assert (Hk : k < length b1) by (apply nth_error_Some; congruence).
    destruct (nth_error va k) as [a|] eqn:Ha;
      [|apply nth_error_None in Ha; lia].
    destruct (nth_error vm k) as [m|] eqn:Hm;
      [|apply nth_error_None in Hm; lia].
    destruct r1, r2; cbn in *; subst. reflexivity.
  - assert (H2 : nth_error b2 k = None).
    { apply nth_error_None. apply nth_error_None in H1.
      rewrite <- (Forall2_length_eq Hfr). exact H1. }
    rewrite H2. destruct (nth_error va k), (nth_error vm k); reflexivity.
Qed.

Lemma flows_over_frame (baseMVA : F) (Sf St : list (complex F))
    (b1 b2 : list (branch_row F)) :
  Forall2 branch_frame b1 b2 ->
  length Sf = length (branches_in b1) ->
  length St = length (branches_in b1) ->
  zero_flows (branches_out b2) (write_flows baseMVA Sf St (branches_in b2) b2)
  = zero_flows (branches_out b1)
               (write_flows baseMVA Sf St (branches_in b1) b1).
Proof.
  intros Hfr HSf HSt.
  assert (Hst : map (@BR_STATUS F) b2 = map (@BR_STATUS F) b1)
    by (apply (Forall2_map_eq (@BR_STATUS F) Hfr); intros r r' Hf; apply Hf).
  assert (Hin : branches_in b2 = branches_in b1)
    by (rewrite !branches_in_map, Hst; reflexivity).
  apply nth_error_ext. intros k.
  destruct (nth_error b1 k) as [r1|] eqn:H1.
  - destruct (Forall2_nth_error _ Hfr H1) as (r2 & H2 & Hf & Ht & Hs & Hrest).
    assert (Hrow : forall x, set_flows x r2 = set_flows x r1)
      by (intros x; destruct r1, r2; cbn in *; subst; reflexivity).
    destruct (feqb (BR_STATUS r1) f0) eqn:Hz.
    + rewrite (flows_out baseMVA Sf St b1 k H1 Hz).
      rewrite (flows_out baseMVA Sf St b2 k H2) by (rewrite Hs; exact Hz).
      rewrite Hrow. reflexivity.
    + assert (Hk : In k (branches_in b1)) by (apply branches_in_spec; eauto).
      apply In_nth_error in Hk. destruct Hk as [j Hj].
      assert (Hjl : j < length (branches_in b1))
        by (apply nth_error_Some; congruence).
      destruct (nth_error Sf j) as [sf|] eqn:Hsf;
        [|apply nth_error_None in Hsf; lia].
      destruct (nth_error St j) as [st|] eqn:Hst';
        [|apply nth_error_None in Hst'; lia].
      rewrite (flows_in baseMVA Sf St b1 j Hj H1 Hsf Hst').
      rewrite <- Hin in Hj.
      rewrite (flows_in baseMVA Sf St b2 j Hj H2 Hsf Hst').
      rewrite Hrow. reflexivity.
  - pose proof H1 as H1'. apply nth_error_None in H1'.
    assert (Hl : length b2 = length b1)
      by (symmetry; apply (Forall2_length_eq Hfr)).
    transitivity (@None (branch_row F)); [|symmetry];
      apply nth_error_None; unfold zero_flows, write_flows;
      rewrite !length_put; lia.
Qed.
End Stale.

Section StaleDispatch.
Context {F : Type} `{Num F} `{Libm F}.
Variables (baseMVA : F) (Ybus Yf Yt : csr (complex F))
          (V : list (complex F)) (ref : Z).
Variables (t1 t2 : tables F) (d : reads F).
Hypothesis Hd : pfsoln_reads Ybus Yf Yt V ref t1 d.
Hypothesis Hgen : gen_kept (anchor (gen t1) ref) t1 t2.
Hypothesis Hsame : same_inputs t1 t2.

(** Row by row, the generator table after lines 53-86 differs between the
    two stores by the real outputs only. *)
Lemma Qg_table_over_frame k r1 r2 :
  nth_error (gen t1) k = Some r1 -> nth_error (gen t2) k = Some r2 ->
  exists q,
    nth_error (Qg_table baseMVA d t1) k = Some (set_QG q r1) /\
    nth_error (Qg_table baseMVA d t2) k = Some (set_QG q r2).
Proof.
  intros H1 H2.
  pose proof Hd as [Hd1 _].
  pose proof (same_reads Hsame Hd) as [Hd2 _].
  pose proof (same_gens_on Hsame) as Hon.
  destruct (in_dec Nat.eq_dec k (gens_on (gen t1))) as [Hin|Hout].
  - apply In_nth with (d := 0) in Hin. destruct Hin as (i & Hi & <-).
    exists (Qg_final baseMVA d t1 i). split.
    + apply (Qg_table_on baseMVA Hd1 Hi H1).
    + pose proof (Qg_table_on baseMVA Hd2) as Hq. rewrite Hon in Hq.
      rewrite (Hq i r2 Hi H2), (same_Qg_final Hsame). reflexivity.
  - exists f0. split.
    + apply (Qg_table_off baseMVA Hd1 k Hout H1).
    + pose proof (Qg_table_off baseMVA Hd2) as Hq. rewrite Hon in Hq.
      apply (Hq k r2 Hout H2).
Qed.

Lemma swing_over_frame :
  let on := gens_on (gen t1) in
  let refgen := gens_ref (gens_bus (gen t1) on) ref in
  swing_table baseMVA (r_Sg d) (r_Pd d) on refgen (Qg_table baseMVA d t2)
  = swing_table baseMVA (r_Sg d) (r_Pd d) on refgen (Qg_table baseMVA d t1).
Proof.
  intros on refgen. subst on refgen.
  set (on := gens_on (gen t1)).
  destruct Hgen as [Hfr HPG].
  assert (Hlen : length (gen t2) = length (gen t1))
    by (symmetry; apply (Forall2_length_eq Hfr)).
  destruct (gens_ref (gens_bus (gen t1) on) ref) as [|r0 others] eqn:Href.
  { destruct Hd as (_ & Hne & _). contradiction. }
  assert (Ha : anchor (gen t1) ref = Some (nth r0 on 0)).
  { unfold anchor. fold on. rewrite Href. reflexivity. }
  assert (Hnd : NoDup (r0 :: others)) by (rewrite <- Href; apply find_NoDup).
  assert (Hlt : forall j, In j (r0 :: others) -> j < length on).
  { intros j Hj. apply (refgen_lt ref t1). fold on.
    rewrite Href. exact Hj. }
  assert (Hoth : take f0 (map (@PG F) (gen t2)) (take 0 on others)
                 = take f0 (map (@PG F) (gen t1)) (take 0 on others)).
  { unfold take. rewrite !map_map. apply map_ext_in. intros j Hj.
    apply nth_of_nth_error. apply HPG. rewrite Ha. intros E.
    inversion E as [E']. 
    assert (r0 = j).
    { apply (NoDup_nth_inj (gens_on_NoDup (gen t1))); fold on;
        [apply Hlt; left; reflexivity|apply Hlt; right; exact Hj|exact E']. }
    subst j. inversion Hnd. contradiction. }
  apply nth_error_ext. intros k.
  destruct (nth_error (gen t1) k) as [r1|] eqn:H1.
  - destruct (Forall2_nth_error _ Hfr H1)
      as (r2 & H2 & Hb & Hs & Hmin & Hmax & Hrest).
    destruct (Qg_table_over_frame k H1 H2) as (q & Hq1 & Hq2).
    destruct (Nat.eq_dec k (nth r0 on 0)) as [->|Hne].
    + rewrite (swing_table_anchor baseMVA (r_Sg d) (r_Pd d) _
                 (gens_on_NoDup (gen t1)) Hnd Hlt Hq1).
      rewrite (swing_table_anchor baseMVA (r_Sg d) (r_Pd d) _
                 (gens_on_NoDup (gen t1)) Hnd Hlt Hq2).
      unfold anchor_Pg. fold on. rewrite !Qg_table_PG, Hoth.
      destruct r1, r2; cbn in *; subst. reflexivity.
    + rewrite !swing_table_other by (unfold swing_row; congruence).
      rewrite Hq1, Hq2.
      assert (HP : PG r2 = PG r1).
      { assert (Hk : anchor (gen t1) ref <> Some k) by congruence.
        specialize (HPG k Hk). rewrite !nth_error_map, H1, H2 in HPG.
        simpl in HPG. congruence. }
      destruct r1, r2; cbn in *; subst. reflexivity.
  - apply nth_error_None in H1.
    transitivity (@None (gen_row F)); [|symmetry]; apply nth_error_None.
    + destruct (Nat.eq_dec k (nth r0 on 0)) as [->|Hne].
      * exfalso. assert (Hin : In (nth r0 on 0) on)
          by (apply nth_In, Hlt; left; reflexivity).
        apply gens_on_lt in Hin. lia.
      * pose proof (swing_table_other baseMVA (r_Sg d) (r_Pd d) on
                      (r0 :: others) (Qg_table baseMVA d t2) (k := k)) as E.
        assert (Hn : nth_error (Qg_table baseMVA d t2) k = None)
          by (apply nth_error_None; rewrite length_Qg_table; lia).
        rewrite Hn in E. apply nth_error_None. apply E.
        unfold swing_row. congruence.
    + destruct (Nat.eq_dec k (nth r0 on 0)) as [->|Hne].
      * exfalso. assert (Hin : In (nth r0 on 0) on)
          by (apply nth_In, Hlt; left; reflexivity).
        apply gens_on_lt in Hin. lia.
      * pose proof (swing_table_other baseMVA (r_Sg d) (r_Pd d) on
                      (r0 :: others) (Qg_table baseMVA d t1) (k := k)) as E.
        assert (Hn : nth_error (Qg_table baseMVA d t1) k = None)
          by (apply nth_error_None; rewrite length_Qg_table; lia).
        rewrite Hn in E. apply nth_error_None. apply E.
        unfold swing_row. congruence.
Qed.
End StaleDispatch.

Section StaleRun.
Context {F : Type} `{Num F} `{Libm F}.
Variables (baseMVA : F) (Ybus Yf Yt : csr (complex F))
          (V : list (complex F)) (ref : Z).

Lemma pfsoln_over_frame (t1 t2 t' s : tables F) :
  Forall2 bus_frame (bus t1) (bus t2) ->
  gen_kept (anchor (gen t1) ref) t1 t2 ->
  Forall2 branch_frame (branch t1) (branch t2) ->
  pfsoln baseMVA Ybus Yf Yt V ref t1 = (Ok t', s) ->
  pfsoln baseMVA Ybus Yf Yt V ref t2 = (Ok t', t').
Proof.
  intros Hb Hg Hr Hrun.
  assert (Hsame : same_inputs t1 t2)
    by (apply frames_same_inputs; [exact Hb|apply Hg|exact Hr]).
  apply pfsoln_returns in Hrun. destruct Hrun as (d & Hd & -> & _).
  apply pfsoln_returns. exists d.
  split; [exact (same_reads Hsame Hd)|]. split; [|reflexivity].
  unfold pfsoln_tables.
  rewrite (same_gens_bus Hsame), (same_gens_on Hsame).
  pose proof Hd as ((Hvm & Hva & _) & _ & _ & HSf & HSt).
  apply broadcast_length in Hvm. apply broadcast_length in Hva.
  apply injection_length in HSf. apply injection_length in HSt.
  rewrite !length_map, length_take, Nat.min_id in HSf, HSt.
  rewrite (voltages_over_frame (r_vm d) (r_va d) Hb Hvm Hva).
  rewrite (swing_over_frame baseMVA Hd Hg Hsame).
  rewrite (flows_over_frame baseMVA (r_Sf d) (r_St d) Hr HSf HSt).
  reflexivity.
Qed.
End StaleRun.

(** X10.  The columns [pfsoln] writes it never reads.  Take two stores that
    agree on every column but VM and VA, QG, the real output of the anchor,
    and the four flows.  If the run returns on the first, it returns on the
    second, with the same tables: whatever stood in the written columns is
    without effect. *)
Theorem written_columns_are_not_read {F : Type} `{Num F} `{Libm F}
    (baseMVA : F) (Ybus Yf Yt : csr (complex F)) (V : list (complex F))
    (ref : Z) (t1 t2 t' s : tables F) :
  Forall2 bus_frame (bus t1) (bus t2) ->
  Forall2 gen_frame (gen t1) (gen t2) ->
  Forall2 branch_frame (branch t1) (branch t2) ->
  (forall k, anchor (gen t1) ref <> Some k ->
             nth_error (map (@PG F) (gen t2)) k
             = nth_error (map (@PG F) (gen t1)) k) ->
  pfsoln baseMVA Ybus Yf Yt V ref t1 = (Ok t', s) ->
  pfsoln baseMVA Ybus Yf Yt V ref t2 = (Ok t', t').
Proof.
  intros Hb Hg Hr HP Hrun.
  eapply pfsoln_over_frame;
    [exact Hb|split; [exact Hg|exact HP]|exact Hr|exact Hrun].
Qed.

(** The two-bus case, and the same case with other voltages, reactive
    outputs and flows in the written columns. *)
Lemma written_columns_are_not_read_witness :
  pfsoln 100%float Cases.two_bus_Ybus Cases.two_bus_Yf Cases.two_bus_Yt
         Cases.two_bus_V 0%Z Cases.two_bus_stopped
  = (Ok Cases.two_bus_out, Cases.two_bus_out).
Proof.
  apply (@written_columns_are_not_read float _ _ 100%float
           Cases.two_bus_Ybus Cases.two_bus_Yf Cases.two_bus_Yt
           Cases.two_bus_V 0%Z Cases.two_bus_case Cases.two_bus_stopped
           Cases.two_bus_out Cases.two_bus_out).
  - repeat constructor.
  - repeat constructor.
  - repeat constructor.
  - intros [|[|[|k]]] Hk; reflexivity.
  - vm_compute. reflexivity.
Defined.

(** X11.  A run on the tables an earlier run returned, with the same
    reference bus but any other base, matrices and voltages, returns what
    it returns on the tables as they were before the earlier run: the
    later run overwrites the earlier one without trace. *)
Theorem later_run_overwrites_earlier {F : Type} `{Num F} `{Libm F}
    (baseMVA baseMVA' : F) (Ybus Yf Yt Ybus' Yf' Yt' : csr (complex F))
    (V V' : list (complex F)) (ref : Z) (t ta sa tb sb : tables F) :
  pfsoln baseMVA Ybus Yf Yt V ref t = (Ok ta, sa) ->
  pfsoln baseMVA' Ybus' Yf' Yt' V' ref t = (Ok tb, sb) ->
  pfsoln baseMVA' Ybus' Yf' Yt' V' ref ta = (Ok tb, tb).
Proof.
  intros Ha Hb.
  pose proof (pfsoln_frame baseMVA Ybus Yf Yt V ref t) as (Hbus & Hg & Hr).
  pose proof (update_bus_voltages_frame V t) as (Hbf & _).
  rewrite <- Hbus in Hbf.
  assert (Hs : snd (pfsoln baseMVA Ybus Yf Yt V ref t) = ta).
  { pose proof Ha as Ha'. apply pfsoln_returns in Ha'.
    destruct Ha' as (d & _ & _ & Hsa). rewrite Ha. simpl. congruence. }
  rewrite Hs in Hbf, Hg, Hr.
  eapply pfsoln_over_frame; [exact Hbf|exact Hg|exact Hr|exact Hb].
Qed.

(** The two-bus case solved with its voltages, then solved again with both
    voltages at 1. *)
Lemma later_run_overwrites_earlier_witness :
  pfsoln 100%float Cases.two_bus_Ybus Cases.two_bus_Yf Cases.two_bus_Yt
         EdgeCases.flat_V 0%Z Cases.two_bus_out
  = (Ok EdgeCases.flat_out, EdgeCases.flat_out).
Proof.
  apply (@later_run_overwrites_earlier float _ _ 100%float 100%float
           Cases.two_bus_Ybus Cases.two_bus_Yf Cases.two_bus_Yt
           Cases.two_bus_Ybus Cases.two_bus_Yf Cases.two_bus_Yt
           Cases.two_bus_V EdgeCases.flat_V 0%Z Cases.two_bus_case
           Cases.two_bus_out Cases.two_bus_out
           EdgeCases.flat_out EdgeCases.flat_out).
  - exact two_bus_run.
  - vm_compute. reflexivity.
Defined.

(** ** The equal split *)

(** X12.  Over the rationals, in a run that returns with more than one
    generator on, the generators of a bus whose summed limits are equal end
    each with the output required of the bus over their number. *)
Theorem equal_split_by_head_count {L : Libm Qc}
    (baseMVA : Qc) (Ybus Yf Yt : csr (complex Qc)) (V : list (complex Qc))
    (ref : Z) (t t' s : tables Qc) (i : nat) (r : gen_row Qc) :
  pfsoln baseMVA Ybus Yf Yt V ref t = (Ok t', s) ->
  let on := gens_on (gen t) in
  let gbus := gens_bus (gen t) on in
  1 < length on -> i < length on ->
  nth_error (gen t) (nth i on 0) = Some r ->
  let bz := fint (GEN_BUS r) in
  sum_at bz gbus (take f0 (map (@QMIN Qc) (gen t)) on)
  = sum_at bz gbus (take f0 (map (@QMAX Qc) (gen t)) on) ->
  exists r',
    nth_error (gen t') (nth i on 0) = Some r' /\
    QG r' = (bus_required baseMVA Ybus V t bz
             / Q2Qc (inject_Z (Z.of_nat (count_occ Z.eq_dec gbus bz))))%Qc.
Proof.
  intros Hrun on gbus Hmany Hi Hr bz HAB.
  apply pfsoln_returns in Hrun. destruct Hrun as (d & Hd & -> & _).
  destruct (returned_gen_on baseMVA Hd Hi Hr) as (r' & Hr' & HQ & _).
  exists r'. split; [exact Hr'|].
  pose proof (gbus_at t Hi Hr) as Hhost.
  pose proof Hd as [Hdr _].
  rewrite HQ, (Qg_final_share baseMVA Hdr Hmany Hi Hr).
  rewrite (share_member baseMVA Hd i Hhost Hmany r eq_refl).
  fold on gbus bz.
  change (take (Q2Qc 0) (map (@QMIN Qc) (gen t)) on)
    with (take f0 (map (@QMIN Qc) (gen t)) on).
  change (take (Q2Qc 0) (map (@QMAX Qc) (gen t)) on)
    with (take f0 (map (@QMAX Qc) (gen t)) on).
  rewrite HAB.
  destruct (Qc_eq_bool _ _) eqn:HE;
    [|exfalso; apply (proj1 (Qc_eqb_false _ _) HE); reflexivity].
  rewrite sum_at_ones_count; [reflexivity|].
  unfold gbus. rewrite length_gens_bus. apply Nat.le_refl.
Qed.

(** One bus of which 20 MVAr are required, two generators pinned at 5:
    each ends with 10. *)
Lemma equal_split_by_head_count_witness :
  exists r',
    nth_error (gen EdgeCases.both_pinned_out) 0 = Some r' /\
    QG r' = ExactCases.q 10 1.
Proof.
  assert (Hrun : pfsoln (ExactCases.q 100 1) ExactCases.one_bus_Ybus
                   ExactCases.no_branch ExactCases.no_branch
                   ExactCases.one_bus_V 0%Z EdgeCases.both_pinned
                 = (Ok EdgeCases.both_pinned_out, EdgeCases.both_pinned_out))
    by (vm_compute; reflexivity).
  assert (Hmany : 1 < length (gens_on (gen EdgeCases.both_pinned)))
    by (vm_compute; lia).
  assert (Hi : 0 < length (gens_on (gen EdgeCases.both_pinned)))
    by (vm_compute; lia).
  destruct (@equal_split_by_head_count libm_axes_exact _ _ _ _ _ _ _ _ _ 0
              (mk_gen 0 1 0 0 (ExactCases.q 5 1) (ExactCases.q 5 1) [])%Qc
              Hrun Hmany Hi eq_refl) as (r' & Hr' & HQ).
  - apply Qc_is_canon. vm_compute. reflexivity.
  - exists r'. split; [exact Hr'|]. rewrite HQ.
    apply Qc_is_canon. vm_compute. reflexivity.
Defined.

(** ** A branch between buses the table does not have *)

Section BranchStep.
Context {F : Type} `{Num F} `{Libm F}.
Variables (baseMVA : F) (Ybus Yf Yt : csr (complex F))
          (V : list (complex F)) (ref : Z).

(** The run up to line 94, when the reads of those lines succeed. *)
Lemma pfsoln_before_branches (t : tables F) (d : reads F) :
  dispatch_reads Ybus V t d ->
  gens_ref (gens_bus (gen t) (gens_on (gen t))) ref <> [] ->
  np_get (map (@PD F) (bus t)) ref = Ok (r_Pd d) ->
  pfsoln baseMVA Ybus Yf Yt V ref t
  = bind (update_branch_flows baseMVA Yf Yt V) (fun _ => get)
      (mk_tables
         (zip_set set_VA (r_va d) (zip_set set_VM (r_vm d) (bus t)))
         (swing_table baseMVA (r_Sg d) (r_Pd d) (gens_on (gen t))
            (gens_ref (gens_bus (gen t) (gens_on (gen t))) ref)
            (Qg_table baseMVA d t))
         (branch t)).
Proof.
  intros Hdr Hne HPd.
  destruct (dispatch_Q_runs baseMVA ref Hdr) as [E1 E2].
  rewrite pfsoln_unfold.
  rewrite (bind_run _ _ _ E1).
  unfold bind at 1, get at 1.
  set (t1 := with_bus _ t) in *.
  assert (E3 : dispatch baseMVA Ybus V ref t1 t1
               = (Ok tt,
                  with_gen (swing_table baseMVA (r_Sg d) (r_Pd d)
                              (gens_on (gen t))
                              (gens_ref (gens_bus (gen t) (gens_on (gen t))) ref)
                              (Qg_table baseMVA d t))
                           (with_gen (Qg_table baseMVA d t) t1))).
  { rewrite E2. apply update_Pg_swing_ok. exists (r_Pd d).
    split; [exact Hne|]. split; [|reflexivity].
    unfold t1. cbn [bus with_gen with_bus].
    rewrite map_PD_voltages. exact HPd. }
  rewrite (bind_run _ _ _ E3). reflexivity.
Qed.

Lemma injection_raises_index (Y : csr (complex F)) vidx yidx e :
  ncols Y = length V ->
  injection Y V vidx yidx = Raise e -> e = IndexError.
Proof.
  intros Hw. unfold injection, csr_take.
  destruct (np_take V vidx) as [Vi|e1] eqn:E1; simpl.
  - destruct (np_take (rows Y) yidx) as [Yi|e2] eqn:E2; simpl.
    + unfold np_matvec. cbn [ncols]. rewrite Hw, Nat.eqb_refl. discriminate.
    + intros E. inversion E; subst. eapply np_take_IndexError; eassumption.
  - intros E. inversion E; subst. eapply np_take_IndexError; eassumption.
Qed.

Lemma injection_needs_buses (Y : csr (complex F)) vidx yidx S i :
  injection Y V vidx yidx = Ok S -> In i vidx ->
  (- Z.of_nat (length V) <= i < Z.of_nat (length V))%Z.
Proof.
  unfold injection. intros E Hin.
  destruct (np_take V vidx) as [Vi|e1] eqn:E1; [|discriminate].
  destruct (Z_lt_ge_dec i (- Z.of_nat (length V))) as [Hlo|Hlo].
  { rewrite (@np_take_outside _ V vidx i Hin (or_introl Hlo)) in E1.
    discriminate. }
  destruct (Z_lt_ge_dec i (Z.of_nat (length V))) as [Hhi|Hhi]; [lia|].
  rewrite (@np_take_outside _ V vidx i Hin ltac:(right; lia)) in E1.
  discriminate.
Qed.
End BranchStep.

(** X13.  A branch in service whose from or to bus number is outside
    [-nb, nb) stops the run at lines 101-103 with an IndexError, after
    everything else is done: if the run returns on the case with its
    branches removed, then on the case itself it leaves the bus and
    generator tables that run returns, and the branch table as it came. *)
Theorem branch_bus_out_of_range {F : Type} `{Num F} `{Libm F}
    (baseMVA : F) (Ybus Yf Yt : csr (complex F)) (V : list (complex F))
    (ref : Z) (t ta sa : tables F) (k : nat) (r : branch_row F) :
  pfsoln baseMVA Ybus Yf Yt V ref (with_branch [] t) = (Ok ta, sa) ->
  nth_error (branch t) k = Some r ->
  feqb (BR_STATUS r) f0 = false ->
  let outside j :=
    (j < - Z.of_nat (length V) \/ Z.of_nat (length V) <= j)%Z in
  outside (fint (F_BUS r)) \/ outside (fint (T_BUS r)) ->
  pfsoln baseMVA Ybus Yf Yt V ref t
  = (Raise IndexError, mk_tables (bus ta) (gen ta) (branch t)).
Proof.
  intros Hrun Hr Hs outside Hout.
  apply pfsoln_returns in Hrun.
  destruct Hrun as (d & (Hdr & Hne & HPd & HSf0 & HSt0) & -> & _).
  apply injection_width in HSf0. apply injection_width in HSt0.
  rewrite (@pfsoln_before_branches F _ _ baseMVA Ybus Yf Yt V ref t d
             Hdr Hne HPd).
  change (pfsoln_tables baseMVA ref d (with_branch [] t))
    with (mk_tables
            (zip_set set_VA (r_va d) (zip_set set_VM (r_vm d) (bus t)))
            (swing_table baseMVA (r_Sg d) (r_Pd d) (gens_on (gen t))
               (gens_ref (gens_bus (gen t) (gens_on (gen t))) ref)
               (Qg_table baseMVA d t))
            (zero_flows (branches_out [])
               (write_flows baseMVA (r_Sf d) (r_St d) (branches_in []) []))).
  cbn [bus gen].
  set (t3 := mk_tables _ _ (branch t)).
  assert (Hk : In k (branches_in (branch t)))
    by (apply branches_in_spec; eauto).
  assert (Hcol : forall (c : branch_row F -> F),
             In (fint (c r))
                (map fint (take f0 (map c (branch t))
                                (branches_in (branch t))))).
  { intros c. unfold take. rewrite map_map. apply in_map_iff.
    exists k. split; [|exact Hk]. f_equal.
    apply nth_error_nth. rewrite nth_error_map, Hr. reflexivity. }
  unfold bind at 1.
  assert (E : update_branch_flows baseMVA Yf Yt V t3 = (Raise IndexError, t3)).
  { unfold update_branch_flows, bind, get, lift. cbn [branch t3].
    destruct (injection Yf V _ _) as [Sf|e] eqn:ESf.
    - destruct (injection Yt V _ _) as [St|e] eqn:ESt.
      + exfalso.
        pose proof (@injection_needs_buses F _ V _ _ _ _ _ ESf
                      (Hcol (@F_BUS F))).
        pose proof (@injection_needs_buses F _ V _ _ _ _ _ ESt
                      (Hcol (@T_BUS F))).
        unfold outside in Hout. lia.
      + apply injection_raises_index in ESt; [|exact HSt0]. subst e.
        reflexivity.
    - apply injection_raises_index in ESf; [|exact HSf0]. subst e.
      reflexivity. }
  rewrite E. reflexivity.
Qed.

(** The two-bus case with its line wired to a bus 7: the generators end as
    on the case without branches, the flows stay stale. *)
Lemma branch_bus_out_of_range_witness :
  exists s,
    pfsoln 100%float Cases.two_bus_Ybus Cases.two_bus_Yf Cases.two_bus_Yt
           Cases.two_bus_V 0%Z EdgeCases.loose_end = (Raise IndexError, s) /\
    gen s = gen Cases.two_bus_out /\
    branch s = branch EdgeCases.loose_end.
Proof.
  assert (Hrun : pfsoln 100%float Cases.two_bus_Ybus Cases.two_bus_Yf
                   Cases.two_bus_Yt Cases.two_bus_V 0%Z
                   (with_branch [] EdgeCases.loose_end)
                 = (Ok (with_branch [] Cases.two_bus_out),
                    with_branch [] Cases.two_bus_out))
    by (vm_compute; reflexivity).
  eexists. split.
  - apply (@branch_bus_out_of_range float _ _ _ _ _ _ _ _ _ _ _ 0
             (mk_branch 0 7 1 9 9 9 9 [250])%float Hrun eq_refl eq_refl).
    right. right. vm_compute. discriminate.
  - split; reflexivity.
Defined.
